(** * Write-safety and region coalescing of the nRF Connect programmer

    A shallow embedding of [src/actions/jprog.js] ([canWrite], [write]),
    of [src/lib/actions/fileActions.js] ([updateFileBlRegion],
    [updateFileAppRegions]) and of the file reducer, together with the
    properties the specification states about them.

    JavaScript numbers that hold addresses and sizes are modelled as [Z]:
    every address of the 32-bit space is an exact double, and so are the
    sums, differences and products the code forms from them.  Bytes of a
    [Uint8Array] are [Byte.byte]. *)

From Stdlib Require Import String Strings.Byte.
From Stdlib Require Import ZArith List Bool Lia.
Import ListNotations.
Local Open Scope Z_scope.

(** ** Sparse memory maps *)

Module MemoryMap.

(** Modelled from the spec: the [MemoryMap] class comes from the package
    [nrf-intel-hex], which is imported by the sources but is not part of
    them.  Section 3 of the specification gives the data model: a block is
    a start address with the bytes it owns, a map is an ordered collection
    of blocks.  [new MemoryMap([[a, bytes]])] is the list [[(a, bytes)]]. *)
Definition Block : Type := (Z * list byte)%type.
Definition t : Type := list Block.

Definition empty : t := [].

Definition blockEnd (blk : Block) : Z := fst blk + Z.of_nat (length (snd blk)).

(** The byte a block owns at address [a], if any. *)
Definition byteAt (blk : Block) (a : Z) : option byte :=
  if (fst blk <=? a) && (a <? blockEnd blk)
  then nth_error (snd blk) (Z.to_nat (a - fst blk))
  else None.

(** [holds m a b]: byte [b] is present in [m] at address [a]. *)
Definition holds (m : t) (a : Z) (b : byte) : Prop :=
  exists blk, In blk m /\ byteAt blk a = Some b.

Definition blockHolds (a : Z) (b : byte) (blk : Block) : bool :=
  match byteAt blk a with
  | Some b' => Byte.eqb b' b
  | None => false
  end.

Definition holdsb (m : t) (a : Z) (b : byte) : bool :=
  existsb (blockHolds a b) m.

(** Modelled from the spec: [contains(other)] "returns true iff for every
    byte present in other, the same address holds a byte in self with an
    equal value; addresses absent in other are not checked" (section 4.1).
    [bytesHeld self a bs] walks the bytes [bs] of one block of [other]
    laid out from address [a]. *)
Fixpoint bytesHeld (self : t) (a : Z) (bs : list byte) : bool :=
  match bs with
  | [] => true
  | b :: rest => holdsb self a b && bytesHeld self (a + 1) rest
  end.

Definition contains (self other : t) : bool :=
  forallb (fun blk => bytesHeld self (fst blk) (snd blk)) other.

(** Modelled from the spec: [slice(startAddress, length)] "returns a new
    map containing only the bytes that fall in
    [startAddress, startAddress+length), trimming boundary blocks; byte
    ranges with no data are simply absent" (section 4.1). *)
Definition sliceBlock (address len : Z) (blk : Block) : list Block :=
  let sliceStart := Z.max address (fst blk) in
  let sliceEnd := Z.min (address + len) (blockEnd blk) in
  if sliceStart <? sliceEnd then
    [(sliceStart,
      firstn (Z.to_nat (sliceEnd - sliceStart))
             (skipn (Z.to_nat (sliceStart - fst blk)) (snd blk)))]
  else [].

Definition slice (m : t) (address len : Z) : t :=
  flat_map (sliceBlock address len) m.

(** Modelled from the spec: [paginate(map, pageSize)] "re-buckets the
    flattened map into blocks aligned to pageSize boundaries; any address
    not covered by input data inside a touched page is not synthesized"
    (section 4.2).  A block is cut wherever the next byte would start a
    new page; no byte is added. *)
Fixpoint paginateBytes (pageSize : Z) (s : Z) (bs : list byte) : list Block :=
  match bs with
  | [] => []
  | b :: rest =>
      match paginateBytes pageSize (s + 1) rest with
      | [] => [(s, [b])]
      | (s', bs') :: more =>
          if (s + 1) mod pageSize =? 0
          then (s, [b]) :: (s', bs') :: more
          else (s, b :: bs') :: more
      end
  end.

Definition paginate (m : t) (pageSize : Z) : t :=
  flat_map (fun blk => paginateBytes pageSize (fst blk) (snd blk)) m.

(** Modelled from the spec: [overlapMemoryMaps] and [flattenOverlaps]
    (section 4.2).  The first sweeps the boundaries of all blocks of all
    input maps and lists, for each range between two consecutive
    boundaries that carries data, the contributions [(source, bytes)] in
    input order; the second keeps, for each range, the bytes of the last
    contributor. *)
Definition Overlaps : Type := list (Z * list (string * list byte)).

Definition blockCuts (blk : Block) : list Z := [fst blk; blockEnd blk].

Definition cutPoints (maps : list (string * t)) : list Z :=
  flat_map (fun fm => flat_map blockCuts (snd fm)) maps.

Fixpoint insertCut (c : Z) (cuts : list Z) : list Z :=
  match cuts with
  | [] => [c]
  | x :: rest =>
      if c <? x then c :: cuts
      else if c =? x then cuts
      else x :: insertCut c rest
  end.

Definition sortedCuts (maps : list (string * t)) : list Z :=
  fold_right insertCut [] (cutPoints maps).

Fixpoint ranges (cuts : list Z) : list (Z * Z) :=
  match cuts with
  | c1 :: (c2 :: _) as rest => (c1, c2) :: ranges rest
  | _ => []
  end.

Definition covers (c1 c2 : Z) (blk : Block) : bool :=
  (fst blk <=? c1) && (c2 <=? blockEnd blk).

Definition pieceOf (m : t) (c1 c2 : Z) : option (list byte) :=
  match find (covers c1 c2) m with
  | Some blk =>
      Some (firstn (Z.to_nat (c2 - c1)) (skipn (Z.to_nat (c1 - fst blk)) (snd blk)))
  | None => None
  end.

(** The contribution of one source to the range [c1, c2). *)
Definition contributionOf (c1 c2 : Z) (fm : string * t) : list (string * list byte) :=
  match pieceOf (snd fm) c1 c2 with
  | Some bs => [(fst fm, bs)]
  | None => []
  end.

Definition contributions (maps : list (string * t)) (c1 c2 : Z)
  : list (string * list byte) :=
  flat_map (contributionOf c1 c2) maps.

Definition overlapRange (maps : list (string * t)) (r : Z * Z) : Overlaps :=
  match contributions maps (fst r) (snd r) with
  | [] => []
  | tuples => [(fst r, tuples)]
  end.

Definition overlapMemoryMaps (maps : list (string * t)) : Overlaps :=
  flat_map (overlapRange maps) (ranges (sortedCuts maps)).

Definition flattenEntry (e : Z * list (string * list byte)) : t :=
  match rev (snd e) with
  | (_, bs) :: _ => [(fst e, bs)]
  | [] => []
  end.

Definition flattenOverlaps (o : Overlaps) : t :=
  flat_map flattenEntry o.

End MemoryMap.

(** ** Immutable lists

    The region lists are [List]s of the [immutable] package.  The source
    uses [find], [indexOf], [set], [remove] and [forEach]; [indexOf]
    compares by value, and [set] and [remove] accept a negative index,
    which counts back from the end of the list. *)

Module Immutable.

Section ListOps.
Context {A : Type}.
Variable eqb : A -> A -> bool.

Fixpoint indexOfFrom (i : Z) (x : A) (l : list A) : Z :=
  match l with
  | [] => -1
  | y :: rest => if eqb x y then i else indexOfFrom (i + 1) x rest
  end.

Definition indexOf (x : A) (l : list A) : Z := indexOfFrom 0 x l.

Definition wrapIndex (l : list A) (i : Z) : Z :=
  if i <? 0 then Z.of_nat (length l) + i else i.

Definition inRange (l : list A) (i : Z) : bool :=
  (0 <=? i) && (i <? Z.of_nat (length l)).

Fixpoint replaceNth (n : nat) (v : A) (l : list A) : list A :=
  match l, n with
  | [], _ => []
  | _ :: rest, O => v :: rest
  | y :: rest, S n' => y :: replaceNth n' v rest
  end.

Fixpoint removeNth (n : nat) (l : list A) : list A :=
  match l, n with
  | [], _ => []
  | _ :: rest, O => rest
  | y :: rest, S n' => y :: removeNth n' rest
  end.

(** [list.set(index, value)].  Past its end the library grows the list;
    the source only ever passes the index of an element it has just
    found in the same list (lemma [indexOf_find_inRange] below), so the
    model leaves the list as it is there. *)
Definition set (l : list A) (i : Z) (v : A) : list A :=
  let j := wrapIndex l i in
  if inRange l j then replaceNth (Z.to_nat j) v l else l.

(** [list.remove(index)]: no change when the wrapped index is out of
    range. *)
Definition remove (l : list A) (i : Z) : list A :=
  let j := wrapIndex l i in
  if inRange l j then removeNth (Z.to_nat j) l else l.

(** The loop
    [list.forEach(r => { if (p(r)) list = list.remove(list.indexOf(r)) })]:
    the iteration runs over the list as it was when the loop started,
    the removals act on the list held by the variable. *)
Definition removeStep (p : A -> bool) (cur : list A) (r : A) : list A :=
  if p r then remove cur (indexOf r cur) else cur.

Definition removeEach (p : A -> bool) (l : list A) : list A :=
  fold_left (removeStep p) l l.
End ListOps.

End Immutable.

(** ** Regions *)

(** Modelled from the spec: [RegionName] and [RegionColor] are constants
    of [../util/regions], which is not among the sources.  Section 3 of
    the specification lists the names; the colours are one opaque constant
    per name. *)
Inductive RegionName : Type :=
| NONE | APPLICATION | SOFTDEVICE | BOOTLOADER | MBR | UICR.

Inductive RegionColor : Type :=
| ColorNONE | ColorAPPLICATION | ColorSOFTDEVICE | ColorBOOTLOADER
| ColorMBR | ColorUICR.

Definition RegionName_eqb (a b : RegionName) : bool :=
  match a, b with
  | NONE, NONE | APPLICATION, APPLICATION | SOFTDEVICE, SOFTDEVICE
  | BOOTLOADER, BOOTLOADER | MBR, MBR | UICR, UICR => true
  | _, _ => false
  end.

Definition RegionColor_eqb (a b : RegionColor) : bool :=
  match a, b with
  | ColorNONE, ColorNONE | ColorAPPLICATION, ColorAPPLICATION
  | ColorSOFTDEVICE, ColorSOFTDEVICE | ColorBOOTLOADER, ColorBOOTLOADER
  | ColorMBR, ColorMBR | ColorUICR, ColorUICR => true
  | _, _ => false
  end.

(** A region record, with the fields the sources read and write. *)
Record Region : Type := mkRegion {
  name : RegionName;
  startAddress : Z;
  regionSize : Z;
  color : RegionColor;
  fileNames : list string
}.

Definition set_name (r : Region) (n : RegionName) : Region :=
  mkRegion n (startAddress r) (regionSize r) (color r) (fileNames r).

Definition set_color (r : Region) (c : RegionColor) : Region :=
  mkRegion (name r) (startAddress r) (regionSize r) c (fileNames r).

Definition set_regionSize (r : Region) (sz : Z) : Region :=
  mkRegion (name r) (startAddress r) sz (color r) (fileNames r).

Fixpoint strings_eqb (a b : list string) : bool :=
  match a, b with
  | [], [] => true
  | x :: a', y :: b' => String.eqb x y && strings_eqb a' b'
  | _, _ => false
  end.

(** Value equality of records, as [indexOf] applies it. *)
Definition Region_eqb (a b : Region) : bool :=
  RegionName_eqb (name a) (name b)
  && (startAddress a =? startAddress b)
  && (regionSize a =? regionSize b)
  && RegionColor_eqb (color a) (color b)
  && strings_eqb (fileNames a) (fileNames b).

Definition hasName (n : RegionName) (r : Region) : bool :=
  RegionName_eqb (name r) n.

Definition regionEnd (r : Region) : Z := startAddress r + regionSize r.

(** ** Application state *)

(** Modelled from the spec: the device metadata record is built outside
    the sources; its fields are those of section 3 of the specification,
    of which the sources read [romSize] and [pageSize]. *)
Record DeviceInfo : Type := mkDeviceInfo {
  family : Z;
  romSize : Z;
  pageSize : Z;
  codePageSize : Z;
  configPageAddress : Z;
  configPageSize : Z;
  ramSize : Z
}.

Record LoadedFile : Type := mkLoadedFile {
  filename : string;
  modTime : Z;
  loadTime : Z;
  loadedMemMap : MemoryMap.t
}.

(** The state of the file reducer. *)
Record FileState : Type := mkFileState {
  loaded : list (string * LoadedFile);
  memMaps : list (string * MemoryMap.t);
  regions : list Region;
  mruFiles : list string;
  detectedRegionNames : list RegionName
}.

(** The part of the target state the sources read: [target.serialNumber],
    [target.pageSize], [target.memMap], [target.regions] and
    [target.deviceInfo].  The first three are JavaScript values that may
    be missing ([null] or [undefined]) as long as no device has been
    selected and read. *)
Record TargetState : Type := mkTargetState {
  serialNumber : option Z;
  targetPageSize : option Z;
  memMap : option MemoryMap.t;
  targetRegions : list Region;
  deviceInfo : DeviceInfo
}.

Record AppState : Type := mkAppState {
  file : FileState;
  target : TargetState
}.

Inductive Action : Type :=
| FILES_EMPTY
| FILE_PARSE (newLoaded : list (string * LoadedFile))
             (newMemMaps : list (string * MemoryMap.t))
| FILE_REGIONS_KNOWN (newRegions : list Region)
| FILE_REGION_NAMES_KNOWN (names : list RegionName)
| MRU_FILES_LOAD_SUCCESS (files : option (list string))
| WRITE_PROGRESS_START
| WRITE_PROGRESS_FINISHED.

Definition InitialState : FileState := mkFileState [] [] [] [] [].

(** The file reducer. *)
Definition reducer (state : FileState) (action : Action) : FileState :=
  match action with
  | FILES_EMPTY =>
      mkFileState (loaded InitialState) (memMaps InitialState)
                  (regions InitialState) (mruFiles state)
                  (detectedRegionNames InitialState)
  | FILE_PARSE newLoaded newMemMaps =>
      mkFileState newLoaded newMemMaps (regions state) (mruFiles state)
                  (detectedRegionNames state)
  | FILE_REGIONS_KNOWN newRegions =>
      mkFileState (loaded state) (memMaps state) newRegions (mruFiles state)
                  (detectedRegionNames state)
  | FILE_REGION_NAMES_KNOWN names =>
      mkFileState (loaded state) (memMaps state) (regions state)
                  (mruFiles state) names
  | MRU_FILES_LOAD_SUCCESS files =>
      mkFileState (loaded state) (memMaps state) (regions state)
                  (match files with Some fs => fs | None => [] end)
                  (detectedRegionNames state)
  | _ => state
  end.

(** The store: the file reducer acts on [app.file]; the reducer of
    [app.target] is not among the sources, and the actions modelled here
    are taken to leave the fields of [app.target] listed above as they
    are. *)
Definition appReducer (st : AppState) (action : Action) : AppState :=
  mkAppState (reducer (file st) action) (target st).

(** Outcome of a JavaScript call: a value, or a thrown error. *)
Inductive JsError : Type := TypeError.

Inductive Result (A : Type) : Type :=
| Ok (a : A)
| Throw (e : JsError).
Arguments Ok {A} a.
Arguments Throw {A} e.

(** A thunk reads the state once, dispatches actions in order and may stop
    with an error. *)
Record ThunkRun : Type := mkThunkRun {
  dispatched : list Action;
  thrown : option JsError
}.

Definition afterThunk (st : AppState) (run : ThunkRun) : AppState :=
  fold_left appReducer (dispatched run) st.

(** [!x] on a number that may be [undefined]. *)
Definition falsy (x : option Z) : bool :=
  match x with
  | None => true
  | Some z => z =? 0
  end.

(** ** [src/actions/jprog.js] *)

Module Jprog.

Definition uicrAddr : Z := 0x10001000.
Definition uicrSize : Z := 0x400.

(** [new MemoryMap([[uicrAddr, (new Uint8Array(uicrSize)).fill(0xFF)]])] *)
Definition blankUicr : MemoryMap.t :=
  [(uicrAddr, repeat xff (Z.to_nat uicrSize))].

(** [MemoryMap.flattenOverlaps(MemoryMap.overlapMemoryMaps(appState.file.memMaps))] *)
Definition flattenedFiles (appState : AppState) : MemoryMap.t :=
  MemoryMap.flattenOverlaps (MemoryMap.overlapMemoryMaps (memMaps (file appState))).

(** [canWrite(appState)].  Calling [contains] on a missing
    [target.memMap] raises a [TypeError]; the [console.log] lines are
    not modelled. *)
Definition canWrite (appState : AppState) : Result bool :=
  match memMap (target appState) with
  | None => Throw TypeError
  | Some targetMemMap =>
      if MemoryMap.contains targetMemMap blankUicr then Ok true
      else
        let uicrUpdates := MemoryMap.slice (flattenedFiles appState) uicrAddr uicrSize in
        if negb (MemoryMap.contains targetMemMap uicrUpdates) then Ok false
        else Ok true
  end.

(** What [write] does to the outside world, in order. *)
Inductive Effect : Type :=
| LoggerError (msg : string)
| LoggerInfo (msg : string)
| CheckUpToDateFiles
| Dispatch (a : Action)
| Program (serial : Z) (pages : MemoryMap.t).

Record WriteRun : Type := mkWriteRun {
  effects : list Effect;
  raised : option JsError
}.

(** The pages handed to [writeHex], computed inside the [then] callback.
    [None]: the callback raised, which the trailing [catch] swallows. *)
Definition writePages (appState : AppState) (pageSize : Z)
  : option (bool * MemoryMap.t) :=
  let pages := MemoryMap.paginate (flattenedFiles appState) pageSize in
  match memMap (target appState) with
  | None => None
  | Some targetMemMap =>
      if negb (MemoryMap.contains targetMemMap blankUicr)
      then Some (true, MemoryMap.slice pages 0 uicrAddr)
      else Some (false, pages)
  end.

(** [write()], run on the state [getState().app].  [upToDate] tells
    whether the promise of [checkUpToDateFiles] is fulfilled ([true]) or
    rejected ([false]).  [Program] is the call of [writeHex], that is of
    [nrfjprog.program], the only call that changes the device; what the
    probe reports afterwards is not part of the run. *)
Definition write (appState : AppState) (upToDate : bool) : WriteRun :=
  match serialNumber (target appState), targetPageSize (target appState) with
  | Some serial, Some pageSize =>
      if (serial =? 0) || (pageSize =? 0)
      then mkWriteRun [LoggerError "Select a device before writing"] None
      else
        match canWrite appState with
        | Throw e => mkWriteRun [] (Some e)
        | Ok false =>
            mkWriteRun
              [LoggerError
                 "Can not write in the current state. Try erasing all non-volatile memory in the target."]
              None
        | Ok true =>
            if upToDate then
              match writePages appState pageSize with
              | Some (skipped, pages) =>
                  mkWriteRun
                    ([CheckUpToDateFiles]
                       ++ (if skipped
                           then [LoggerInfo "Target's UICR is not blank, skipping UICR updates."]
                           else [])
                       ++ [Dispatch WRITE_PROGRESS_START; Program serial pages])
                    None
              | None => mkWriteRun [CheckUpToDateFiles] None
              end
            else mkWriteRun [CheckUpToDateFiles] None
        end
  | _, _ => mkWriteRun [LoggerError "Select a device before writing"] None
  end.

(** The payloads transmitted to the device during a run. *)
Definition transmitted (run : WriteRun) : list MemoryMap.t :=
  flat_map (fun e => match e with Program _ pages => [pages] | _ => [] end)
           (effects run).

End Jprog.

(** ** [src/lib/actions/fileActions.js] *)

Module FileActions.

Definition fileRegionsKnownAction (rs : list Region) : Action :=
  FILE_REGIONS_KNOWN rs.

Definition fileRegionNamesKnownAction (names : list RegionName) : Action :=
  FILE_REGION_NAMES_KNOWN names.

Definition indexOf := Immutable.indexOf Region_eqb.
Definition removeEach := Immutable.removeEach Region_eqb.

(** *** [updateFileBlRegion] *)

(** Body of the first [forEach]: the running value of [blEndAddress]. *)
Definition blSweepStep (blRegion : Region) (rom : Z)
           (blEndAddress : option Z) (r : Region) : option Z :=
  if hasName NONE r
     && (startAddress blRegion <? startAddress r)
     && (startAddress r + regionSize r <? rom)
     && (falsy blEndAddress
         || match blEndAddress with
            | Some e => e <=? startAddress r
            | None => false
            end)
  then Some (startAddress r + regionSize r)
  else blEndAddress.

Definition blSweep (blRegion : Region) (rom : Z) (rs : list Region) : option Z :=
  fold_left (blSweepStep blRegion rom) rs None.

Definition updateFileBlRegion (st : AppState) : ThunkRun :=
  let fileRegions := regions (file st) in
  match find (hasName BOOTLOADER) fileRegions with
  | None => mkThunkRun [] None
  | Some blRegion =>
      let blStartAddress := startAddress blRegion in
      match blSweep blRegion (romSize (deviceInfo (target st))) fileRegions with
      | Some blEndAddress =>
          let fileRegions1 := removeEach (hasName NONE) fileRegions in
          let blRegionIndex := indexOf blRegion fileRegions1 in
          let blRegion1 := set_regionSize blRegion (blEndAddress - blStartAddress) in
          mkThunkRun
            [fileRegionsKnownAction (Immutable.set fileRegions1 blRegionIndex blRegion1)]
            None
      | None => mkThunkRun [] None
      end
  end.

(** *** [updateFileAppRegions] *)

Definition softDeviceMagicStart : Z := 0x1000.

(** [(Math.ceil(softDeviceEnd / pageSize) + extra) * pageSize].  With a
    page size of zero the quotient is infinite or not a number, and so is
    the product: no start address is equal to it. *)
Definition appBoundary (softDeviceEnd page extra : Z) : option Z :=
  if page =? 0 then None
  else Some ((- ((- softDeviceEnd) / page) + extra) * page).

Definition startsAt (boundary : option Z) (r : Region) : bool :=
  match boundary with
  | Some a => startAddress r =? a
  | None => false
  end.

(** The region that the first block of the thunk relabels, if any. *)
Definition findAppRegion (fileRegions : list Region) (softDeviceEnd page : Z)
  : option Region :=
  match find (startsAt (appBoundary softDeviceEnd page 0)) fileRegions with
  | Some r => Some r
  | None => find (startsAt (appBoundary softDeviceEnd page 1)) fileRegions
  end.

(** First block: a SoftDevice in the target and none in the files. *)
Definition labelApp (fileRegions : list Region)
           (fileSoftDeviceRegion targetSoftDeviceRegion : option Region)
           (page : Z) : list Region * list Action :=
  match fileSoftDeviceRegion, targetSoftDeviceRegion with
  | None, Some sd =>
      let softDeviceEnd := startAddress sd + regionSize sd in
      match findAppRegion fileRegions softDeviceEnd page with
      | Some appRegion =>
          let appRegionIndex := indexOf appRegion fileRegions in
          let appRegion1 := set_color (set_name appRegion APPLICATION) ColorAPPLICATION in
          let fileRegions1 := Immutable.set fileRegions appRegionIndex appRegion1 in
          (fileRegions1, [fileRegionsKnownAction fileRegions1])
      | None => (fileRegions, [])
      end
  | _, _ => (fileRegions, [])
  end.

(** Second block: no SoftDevice anywhere. *)
Definition unlabelApp (fileRegions : list Region)
           (fileSoftDeviceRegion targetSoftDeviceRegion : option Region)
  : list Region * list Action :=
  match fileSoftDeviceRegion, targetSoftDeviceRegion with
  | None, None =>
      match find (hasName APPLICATION) fileRegions with
      | Some appRegion =>
          if negb (startAddress appRegion =? softDeviceMagicStart) then
            let appRegionIndex := indexOf appRegion fileRegions in
            let appRegion1 := set_color (set_name appRegion NONE) ColorNONE in
            let fileRegions1 := Immutable.set fileRegions appRegionIndex appRegion1 in
            (fileRegions1, [fileRegionsKnownAction fileRegions1])
          else (fileRegions, [])
      | None => (fileRegions, [])
      end
  | _, _ => (fileRegions, [])
  end.

Definition regionChecklist : list RegionName :=
  [APPLICATION; SOFTDEVICE; BOOTLOADER].

Definition includes (names : list RegionName) (n : RegionName) : bool :=
  existsb (RegionName_eqb n) names.

(** [set.add(name)] *)
Definition addName (names : list RegionName) (n : RegionName) : list RegionName :=
  if includes names n then names else names ++ [n].

(** Variables of the third block, updated by its [forEach]. *)
Record Sweep : Type := mkSweep {
  detected : list RegionName;
  appStartAddress : option Z;
  appEndAddress : option Z
}.

(** Body of the [forEach] of the third block.  The names of the checklist
    are non-empty strings, so [r.name && ...] is the membership test. *)
Definition appSweepStep (targetBootloaderRegion : option Region)
           (acc : Sweep) (r : Region) : Sweep :=
  let detected1 :=
    if includes regionChecklist (name r) then addName (detected acc) (name r)
    else detected acc in
  let appEnd1 :=
    match targetBootloaderRegion with
    | Some bl =>
        if hasName NONE r
           && (startAddress r <? startAddress bl)
           && (falsy (appEndAddress acc)
               || match appEndAddress acc with
                  | Some e => e <=? startAddress r
                  | None => false
                  end)
        then Some (startAddress r + regionSize r)
        else appEndAddress acc
    | None => appEndAddress acc
    end in
  let appStart1 :=
    if hasName APPLICATION r then Some (startAddress r)
    else appStartAddress acc in
  mkSweep detected1 appStart1 appEnd1.

Definition appSweep (targetBootloaderRegion : option Region)
           (rs : list Region) : Sweep :=
  fold_left (appSweepStep targetBootloaderRegion) rs (mkSweep [] None None).

(** Last block: the merge of the unlabelled regions into the application. *)
Definition mergeApp (fileRegions : list Region)
           (targetBootloaderRegion : option Region) (sw : Sweep)
  : list Action * option JsError :=
  match targetBootloaderRegion, appStartAddress sw, appEndAddress sw with
  | Some bl, Some appStart, Some appEnd =>
      let fileRegions1 :=
        removeEach (fun r => hasName NONE r && (startAddress r <? startAddress bl))
                   fileRegions in
      match find (hasName APPLICATION) fileRegions1 with
      | Some appRegion =>
          let appRegionIndex := indexOf appRegion fileRegions1 in
          let appRegion1 :=
            set_color (set_regionSize appRegion (appEnd - appStart)) ColorAPPLICATION in
          ([fileRegionsKnownAction (Immutable.set fileRegions1 appRegionIndex appRegion1)],
           None)
      | None => ([], Some TypeError)
      end
  | _, _, _ => ([], None)
  end.

Definition updateFileAppRegions (st : AppState) : ThunkRun :=
  let fileRegions := regions (file st) in
  let targetRegions := targetRegions (target st) in
  let fileSoftDeviceRegion := find (hasName SOFTDEVICE) fileRegions in
  let targetSoftDeviceRegion := find (hasName SOFTDEVICE) targetRegions in
  let targetBootloaderRegion := find (hasName BOOTLOADER) targetRegions in
  let page := pageSize (deviceInfo (target st)) in
  let '(fileRegions1, out1) :=
    labelApp fileRegions fileSoftDeviceRegion targetSoftDeviceRegion page in
  let '(fileRegions2, out2) :=
    unlabelApp fileRegions1 fileSoftDeviceRegion targetSoftDeviceRegion in
  let sw := appSweep targetBootloaderRegion fileRegions2 in
  let '(out3, err) := mergeApp fileRegions2 targetBootloaderRegion sw in
  mkThunkRun
    (out1 ++ out2 ++ [fileRegionNamesKnownAction (detected sw)] ++ out3)
    err.

(** The two thunks in the order [updateFileRegions] dispatches them, each
    reading the state the previous one left. *)
Definition coalesce (st : AppState) : AppState :=
  let st1 := afterThunk st (updateFileBlRegion st) in
  afterThunk st1 (updateFileAppRegions st1).

End FileActions.

(** ** Vocabulary of the statements *)

Module Statements.

(** The configuration page of the target reads as erased. *)
Definition uicrBlank (targetMemMap : MemoryMap.t) : Prop :=
  forall a, Jprog.uicrAddr <= a < Jprog.uicrAddr + Jprog.uicrSize ->
            MemoryMap.holds targetMemMap a xff.

(** Every byte the files define in the configuration page is already on
    the target. *)
Definition uicrUnchanged (targetMemMap flattened : MemoryMap.t) : Prop :=
  forall a b,
    MemoryMap.holds (MemoryMap.slice flattened Jprog.uicrAddr Jprog.uicrSize) a b ->
    MemoryMap.holds targetMemMap a b.

Definition inUicr (a : Z) : Prop :=
  Jprog.uicrAddr <= a < Jprog.uicrAddr + Jprog.uicrSize.

(** A state that differs from [st] in the device metadata only. *)
Definition withMetadata (st : AppState) (fam cfgAddress cfgSize : Z) : AppState :=
  let t := target st in
  let d := deviceInfo t in
  mkAppState (file st)
    (mkTargetState (serialNumber t) (targetPageSize t) (memMap t) (targetRegions t)
       (mkDeviceInfo fam (romSize d) (pageSize d) (codePageSize d)
                     cfgAddress cfgSize (ramSize d))).

(** No address of the map holds two different bytes: the blocks do not
    overlap, or agree where they do. *)
Definition functional (m : MemoryMap.t) : Prop :=
  forall a b1 b2, MemoryMap.holds m a b1 -> MemoryMap.holds m a b2 -> b1 = b2.

(** [b] is the byte at [a] of the last map of the sequence that has a
    byte there. *)
Definition lastWriter (maps : list (string * MemoryMap.t)) (a : Z) (b : byte) : Prop :=
  exists pre fm suf,
    maps = pre ++ fm :: suf
    /\ MemoryMap.holds (snd fm) a b
    /\ Forall (fun fm' => forall b', ~ MemoryMap.holds (snd fm') a b') suf.

Fixpoint increasing (l : list Z) : Prop :=
  match l with
  | [] => True
  | x :: rest => (forall y, In y rest -> x < y) /\ increasing rest
  end.

(** The block lies inside one page. *)
Definition withinPage (page : Z) (blk : MemoryMap.Block) : Prop :=
  fst blk / page = (MemoryMap.blockEnd blk - 1) / page.

(** [x] rounded up to the next multiple of [page]. *)
Definition pageCeil (x page : Z) : Z := page * ((x + page - 1) / page).

Definition finalRegions (st : AppState) (run : ThunkRun) : list Region :=
  regions (file (afterThunk st run)).

(** The region list that a sequence of actions leaves in the store. *)
Definition lastKnown (acts : list Action) (rs : list Region) : list Region :=
  fold_left (fun cur a =>
               match a with
               | FILE_REGIONS_KNOWN x => x
               | FILES_EMPTY => []
               | _ => cur
               end) acts rs.

(** Regions that the merge of [updateFileAppRegions] keeps: all but the
    unlabelled ones that start below the bootloader [bl]. *)
Definition keptBelow (bl : Region) (r : Region) : bool :=
  negb (hasName NONE r && (startAddress r <? startAddress bl)).

Definition labelled (r : Region) : bool := negb (hasName NONE r).

Definition asApplication (r : Region) : Region :=
  set_color (set_name r APPLICATION) ColorAPPLICATION.

Definition asNone (r : Region) : Region :=
  set_color (set_name r NONE) ColorNONE.

Definition isApplication (r : Region) : Prop := name r = APPLICATION.


(** Modelled from the spec: the application inference on the file image
    alone, which belongs to [getFileRegions] of [../util/regions] and is
    not among the sources (section 4.3, step 4: "if no region is
    explicitly tagged APPLICATION but a SoftDevice region is identified
    (either in the file image or, failing that, in the target device's
    own classified regions), the region immediately following the
    SoftDevice's end address -- rounded up to the next page boundary, or
    to the boundary one page further [...] -- is relabeled APPLICATION";
    "if none exists at the expected boundary, leave APPLICATION unset").
    [updateFileAppRegions] does the same from the SoftDevice of the
    target and names its counterpart: "Update similar function at
    ../lib/regions.getRegionsFromOverlaps if need"; the search for the
    region is the one of the thunk. *)
Definition inferFileApplication (rs : list Region) (page : Z) : list Region :=
  match find (hasName APPLICATION) rs, find (hasName SOFTDEVICE) rs with
  | None, Some sd =>
      match FileActions.findAppRegion rs (regionEnd sd) page with
      | Some r => Immutable.set rs (FileActions.indexOf r rs) (asApplication r)
      | None => rs
      end
  | _, _ => rs
  end.

(** The store that the thunk finds: [updateFileRegions] has dispatched
    the regions of the file image with the inference above done. *)
Definition classifiedFile (st : AppState) : AppState :=
  appReducer st
    (FileActions.fileRegionsKnownAction
       (inferFileApplication (regions (file st))
                             (pageSize (deviceInfo (target st))))).

End Statements.

(** ** Sample states *)

Module Samples.

Definition nrf52 : DeviceInfo :=
  mkDeviceInfo 1 0x80000 0x1000 0x1000 0x10001000 0x400 0x10000.

Definition device (mm : option MemoryMap.t) (rs : list Region) : TargetState :=
  mkTargetState (Some 682000001) (Some 0x1000) mm rs nrf52.

Definition files (maps : list (string * MemoryMap.t)) (rs : list Region) : FileState :=
  mkFileState [] maps rs [] [].

(** A device dump: some flash, and a configuration page that has been
    written (its first word is set). *)
Definition usedUicr : MemoryMap.t :=
  [(0x0, [x00; x04; x00; x20; xc1; x00; x00; x00]);
   (0x10001000, [x00; x00; x00; x00] ++ repeat xff 1020)].

Definition appHex : MemoryMap.t := [(0x26000, [x01; x02; x03; x04])].

(** Data above the configuration page. *)
Definition highHex : MemoryMap.t := [(0x10002000, [x2a])].

Definition uicrHex : MemoryMap.t := [(0x10001000, [x00; x00; x00; x00])].

Definition otherUicrHex : MemoryMap.t := [(0x10001000, [x12; x34])].

(** Nothing read from the target yet: the map is there and it is empty. *)
Definition unread : AppState :=
  mkAppState (files [("app.hex"%string, appHex)] []) (device (Some []) []).

(** No memory map in the target state. *)
Definition absent : AppState :=
  mkAppState (files [("app.hex"%string, appHex)] []) (device None []).

Definition erased : AppState :=
  mkAppState (files [("app.hex"%string, appHex); ("uicr.hex"%string, otherUicrHex)] [])
             (device (Some Jprog.blankUicr) []).

Definition matching : AppState :=
  mkAppState (files [("app.hex"%string, appHex); ("uicr.hex"%string, uicrHex)] [])
             (device (Some usedUicr) []).

Definition conflicting : AppState :=
  mkAppState (files [("app.hex"%string, appHex); ("uicr.hex"%string, otherUicrHex)] [])
             (device (Some usedUicr) []).

Definition withHighData : AppState :=
  mkAppState (files [("app.hex"%string, appHex); ("high.hex"%string, highHex)] [])
             (device (Some usedUicr) []).

Definition colorOf (n : RegionName) : RegionColor :=
  match n with
  | NONE => ColorNONE
  | APPLICATION => ColorAPPLICATION
  | SOFTDEVICE => ColorSOFTDEVICE
  | BOOTLOADER => ColorBOOTLOADER
  | MBR => ColorMBR
  | UICR => ColorUICR
  end.

(** The region named [n] that covers [from, to). *)
Definition region (n : RegionName) (from to : Z) : Region :=
  mkRegion n from (to - from) (colorOf n) ["app.hex"%string].

Definition classified (fileRs targetRs : list Region) : AppState :=
  mkAppState (files [] fileRs) (device (Some []) targetRs).

(** Scenario 5: a bootloader with two unlabelled blocks above it. *)
Definition bootloaderGaps : AppState :=
  classified [region BOOTLOADER 0x70000 0x71000;
              region NONE 0x71000 0x72000;
              region NONE 0x73000 0x74000] [].

(** The same bootloader, and unlabelled data far below it. *)
Definition bootloaderAndLowData : AppState :=
  classified [region NONE 0x1000 0x2000;
              region BOOTLOADER 0x70000 0x71000;
              region NONE 0x71000 0x72000] [].

Definition targetWithSoftDevice : list Region :=
  [region MBR 0x0 0x1000; region SOFTDEVICE 0x1000 0x26000;
   region BOOTLOADER 0x70000 0x80000].

(** Scenario 4, the SoftDevice being in the target. *)
Definition appOnTargetSoftDevice : AppState :=
  classified [region NONE 0x26000 0x27000] targetWithSoftDevice.

(** Scenario 4, the SoftDevice being in the file. *)
Definition appOnFileSoftDevice : AppState :=
  classified [region SOFTDEVICE 0x1000 0x26000; region NONE 0x26000 0x27000] [].

(** Two application regions and no SoftDevice. *)
Definition twoApplications : AppState :=
  classified [region APPLICATION 0x1000 0x2000;
              region APPLICATION 0x30000 0x31000] [].

Definition strayApplication : AppState :=
  classified [region MBR 0x0 0x1000; region APPLICATION 0x30000 0x31000] [].

(** An application with an unlabelled block above it, below the
    bootloader of the target. *)
Definition appWithGap : AppState :=
  classified [region APPLICATION 0x26000 0x27000;
              region NONE 0x28000 0x29000] targetWithSoftDevice.

(** Application data not yet labelled, and a bootloader with a gap. *)
Definition appAndBootloader : AppState :=
  classified [region NONE 0x26000 0x27000;
              region BOOTLOADER 0x70000 0x71000;
              region NONE 0x71000 0x72000] targetWithSoftDevice.

(** An application, and unlabelled data below it. *)
Definition appAboveLowData : AppState :=
  classified [region NONE 0x10000 0x11000;
              region APPLICATION 0x26000 0x27000] targetWithSoftDevice.

End Samples.

(** ** Statements of the specification that the code does not meet *)

Module Claimed.
Import Statements.

(** "The produced write payload excludes exactly the configuration-page
    range and still includes all other paginated file data." *)
Definition payloadSkipsOnlyUicr (st : AppState) : Prop :=
  forall t payload page,
    memMap (target st) = Some t ->
    targetPageSize (target st) = Some page ->
    ~ uicrBlank t ->
    Jprog.canWrite st = Ok true ->
    Jprog.transmitted (Jprog.write st true) = [payload] ->
    forall a b,
      MemoryMap.holds payload a b <->
      MemoryMap.holds (MemoryMap.paginate (Jprog.flattenedFiles st) page) a b
      /\ ~ inUicr a.

(** "Any region labeled APPLICATION is relabeled to NONE unless its start
    address equals the architecture's fixed vector-table address." *)
Definition appDowngraded (st : AppState) : Prop :=
  find (hasName SOFTDEVICE) (regions (file st)) = None ->
  find (hasName SOFTDEVICE) (targetRegions (target st)) = None ->
  forall r,
    In r (finalRegions st (FileActions.updateFileAppRegions st)) ->
    isApplication r -> startAddress r = FileActions.softDeviceMagicStart.

(** "The address range checked and excluded by the write-safety logic is
    the constant [0x10001000, 0x10001400) for every connected device: for
    any two application states that differ only in the device metadata,
    canWrite returns the same verdict and write excludes the same
    range."  Excluding that range: of the paged file data, the payload
    holds the bytes outside it and no other. *)
Definition uicrRangeFixed (st : AppState) (fam cfgAddress cfgSize : Z) : Prop :=
  let st' := withMetadata st fam cfgAddress cfgSize in
  Jprog.canWrite st' = Jprog.canWrite st
  /\ forall t payload page,
       memMap (target st) = Some t ->
       targetPageSize (target st) = Some page ->
       ~ uicrBlank t ->
       In payload (Jprog.transmitted (Jprog.write st' true)) ->
       forall a b,
         MemoryMap.holds (MemoryMap.paginate (Jprog.flattenedFiles st) page) a b ->
         (MemoryMap.holds payload a b <-> ~ 0x10001000 <= a < 0x10001400).

(** "For every application state given to it, canWrite evaluates to a
    definite boolean without raising an error." *)
Definition canWriteNeverThrows : Prop :=
  forall st : AppState, exists verdict : bool, Jprog.canWrite st = Ok verdict.

End Claimed.

(** ** Vocabulary of the further properties *)

Module Further.

(** An unlabelled region that the sweep of [updateFileBlRegion] takes
    for a gap of the bootloader [bl]. *)
Definition qualifies (bl : Region) (rom : Z) (r : Region) : Prop :=
  name r = NONE /\ startAddress bl < startAddress r /\ regionEnd r < rom.

(** Regions in address order that do not overlap, none of negative
    size. *)
Fixpoint ordered (rs : list Region) : Prop :=
  match rs with
  | [] => True
  | r :: rest =>
      0 <= regionSize r
      /\ (forall q, In q rest -> regionEnd r <= startAddress q)
      /\ ordered rest
  end.

(** The device is selected: [serialNumber] and [pageSize] are truthy. *)
Definition selected (st : AppState) : Prop :=
  exists serial page,
    serialNumber (target st) = Some serial
    /\ targetPageSize (target st) = Some page
    /\ serial <> 0 /\ page <> 0.

Definition namesKnown (run : ThunkRun) : list (list RegionName) :=
  flat_map (fun a => match a with
                     | FILE_REGION_NAMES_KNOWN d => [d]
                     | _ => []
                     end) (dispatched run).

(** Every region of [final] is a region of [rs] with, at most, another
    name, colour or size, and [final] has no more regions than [rs]. *)
Definition comesFrom (rs final : list Region) : Prop :=
  (length final <= length rs)%nat
  /\ forall r', In r' final ->
        exists r, In r rs /\ startAddress r' = startAddress r
                  /\ fileNames r' = fileNames r.

End Further.

(** ** The persistent store and the list of recently used files *)

Module PersistentStore.

(** The [electron-store] of the application, restricted to the two keys
    that [fileActions.js] reads and writes: ['mruFiles'] and
    ['behaviour-when-files-not-up-to-date'].  A key that has never been
    set is absent. *)
Record t : Type := mk {
  storedMruFiles : option (list string);
  storedBehaviour : option string
}.

Definition empty : t := mk None None.

(** [persistentStore.get('mruFiles', [])] *)
Definition getMruFiles (store : t) : list string :=
  match storedMruFiles store with
  | Some files => files
  | None => []
  end.

(** [persistentStore.set('mruFiles', files)] *)
Definition setMruFiles (store : t) (files : list string) : t :=
  mk (Some files) (storedBehaviour store).

(** [persistentStore.set('behaviour-when-files-not-up-to-date', b)] *)
Definition setBehaviour (store : t) (b : string) : t :=
  mk (storedMruFiles store) (Some b).

End PersistentStore.

Module Mru.
Import PersistentStore.

(** [files.indexOf(filename)] on an array of strings. *)
Definition arrayIndexOf (filename : string) (files : list string) : Z :=
  Immutable.indexOf String.eqb filename files.

(** [removeMruFile(filename)] *)
Definition removeMruFile (filename : string) (store : t) : t :=
  let files := getMruFiles store in
  setMruFiles store (filter (fun f => negb (String.eqb f filename)) files).

(** [addMruFile(filename)]: [unshift] puts the name in front,
    [splice(10)] drops what lies past the tenth entry. *)
Definition addMruFile (filename : string) (store : t) : t :=
  let files := getMruFiles store in
  if arrayIndexOf filename files =? -1
  then setMruFiles store (firstn 10 (filename :: files))
  else store.

(** [loadMruFiles()]: the action it dispatches. *)
Definition loadMruFiles (store : t) : Action :=
  MRU_FILES_LOAD_SUCCESS (Some (getMruFiles store)).

End Mru.

(** ** The file thunks of [src/lib/actions/fileActions.js] *)

Module FileThunks.

(** A JavaScript object used as a map from file paths to values, with its
    keys in insertion order.  The keys are paths of files, so none of
    them is an integer index or a property of [Object.prototype]. *)
Definition objGet {V : Type} (key : string) (o : list (string * V)) : option V :=
  match find (fun kv => String.eqb (fst kv) key) o with
  | Some kv => Some (snd kv)
  | None => None
  end.

(** [{ ...o, [key]: v }]: an existing key keeps its place. *)
Definition objSet {V : Type} (key : string) (v : V) (o : list (string * V))
  : list (string * V) :=
  if existsb (fun kv => String.eqb (fst kv) key) o
  then map (fun kv => if String.eqb (fst kv) key then (key, v) else kv) o
  else o ++ [(key, v)].

(** [delete o[key]] *)
Definition objDelete {V : Type} (key : string) (o : list (string * V))
  : list (string * V) :=
  filter (fun kv => negb (String.eqb (fst kv) key)) o.

(** An error value: what [String(e)] and [e.message] give. *)
Record JsErr : Type := mkJsErr {
  errText : string;
  errMessage : string
}.

(** [error.message || error] *)
Inductive DialogMessage : Type :=
| MessageText (s : string)
| MessageError (e : JsErr).

Definition errorDialogMessage (e : JsErr) : DialogMessage :=
  if String.eqb (errMessage e) "" then MessageError e
  else MessageText (errMessage e).

(** What the thunks do, in order.  The dates and the addresses that the
    source formats into log lines ([toLocaleString], [hexpad8]) are kept
    as numbers. *)
Inductive Event : Type :=
| LoggerError (msg : string)
| LoggerInfo (args : list string)
| LoggerInfoModified (mtime : Z)
| LoggerInfoBlock (address size : Z)
| DispatchAction (a : Action)
| DispatchErrorDialog (m : DialogMessage)
| DispatchWarningRemove
| RunUpdateFileRegions
| RunUpdateTargetWritable
| ShowMessageBox (newestFileTimestamp : option Z) (filenames : list string).

(** The state of the file reducer once the actions among the events have
    been dispatched. *)
Definition fileAfter (events : list Event) (state : FileState) : FileState :=
  fold_left (fun s e => match e with
                        | DispatchAction a => reducer s a
                        | _ => s
                        end) events state.

(** *** [parseOneFile] *)

(** What [parseOneFile] holds on to when it is dispatched:
    [const { loaded, memMaps } = getState().app.file]. *)
Record Captured : Type := mkCaptured {
  capLoaded : list (string * LoadedFile);
  capMemMaps : list (string * MemoryMap.t)
}.

(** The synchronous part of [parseOneFile(filePath)].  [None]: the path
    is loaded already and the thunk returns at once. *)
Definition parseOneFile_start (state : FileState) (filePath : string)
  : option Captured :=
  match objGet filePath (loaded state) with
  | Some _ => None
  | None => Some (mkCaptured (loaded state) (memMaps state))
  end.

(** What the file system and the parser answer. *)
Inductive FileRead : Type :=
| StatFailed (statsError : JsErr)
| ReadFailed (mtime : Z) (readError : JsErr)
| ParseFailed (mtime : Z) (e : JsErr)
| Parsed (mtime : Z) (memMap : MemoryMap.t).

Definition couldNotOpen (e : JsErr) : string :=
  ("Could not open HEX file: " ++ errText e)%string.

Definition parsingLines (filePath : string) (mtime : Z) : list Event :=
  [LoggerInfo ["Parsing HEX file: "%string; filePath]; LoggerInfoModified mtime].

(** The callbacks of [stat] and [readFile], run when the file system has
    answered; [now] is [new Date()], [basename] the function of [path]. *)
Definition parseOneFile_finish (basename : string -> string) (filePath : string)
           (c : Captured) (answer : FileRead) (now : Z)
           (store : PersistentStore.t) : list Event * PersistentStore.t :=
  match answer with
  | StatFailed statsError =>
      ([LoggerError (couldNotOpen statsError);
        DispatchErrorDialog (errorDialogMessage statsError)],
       Mru.removeMruFile filePath store)
  | ReadFailed mtime readError =>
      (parsingLines filePath mtime
         ++ [LoggerError (couldNotOpen readError);
             DispatchErrorDialog (errorDialogMessage readError)],
       Mru.removeMruFile filePath store)
  | ParseFailed mtime e =>
      (parsingLines filePath mtime
         ++ [LoggerError (couldNotOpen e);
             DispatchErrorDialog (errorDialogMessage e)],
       Mru.addMruFile filePath store)
  | Parsed mtime memMap =>
      let newLoaded :=
        objSet filePath (mkLoadedFile (basename filePath) mtime now memMap)
               (capLoaded c) in
      let newMemMaps := capMemMaps c ++ [(filePath, memMap)] in
      (parsingLines filePath mtime
         ++ map (fun blk => LoggerInfoBlock (fst blk) (Z.of_nat (length (snd blk))))
                memMap
         ++ [DispatchAction (FILE_PARSE newLoaded newMemMaps);
             RunUpdateFileRegions;
             RunUpdateTargetWritable],
       Mru.addMruFile filePath store)
  end.

(** *** [removeFile], [closeFiles], [openFile], [openFileDialog] *)

Definition removeFile (state : FileState) (filePath : string) : list Event :=
  let newLoaded := objDelete filePath (loaded state) in
  let newMemMaps :=
    filter (fun element => negb (String.eqb (fst element) filePath))
           (memMaps state) in
  [DispatchAction (FILE_PARSE newLoaded newMemMaps);
   RunUpdateFileRegions;
   RunUpdateTargetWritable].

Definition closeFiles : list Event :=
  [DispatchWarningRemove;
   DispatchAction FILES_EMPTY;
   RunUpdateFileRegions;
   RunUpdateTargetWritable].

(** [openFile(filename)]: the parse is started, and the recently used
    files are loaded from the store before any callback has run. *)
Definition openFile (state : FileState) (filename : string)
           (store : PersistentStore.t) : option Captured * list Event :=
  (parseOneFile_start state filename,
   [DispatchAction (Mru.loadMruFiles store)]).

(** The callback of [openFileDialog]: one parse is started per file, all
    of them on the state as it is when the dialog closes.  Without a list
    of files, [filenames.forEach] raises. *)
Definition openFileDialog (state : FileState) (filenames : option (list string))
  : Result (list (string * option Captured)) :=
  match filenames with
  | None => Throw TypeError
  | Some names => Ok (map (fun f => (f, parseOneFile_start state f)) names)
  end.

(** *** [refreshAllFiles] *)

(** One file of [refreshAllFiles]: [statSync] answers with an error,
    which the [catch] handles, or with the modification time. *)
Definition refreshOne (state : FileState) (statSync : string -> JsErr + Z)
           (entry : string * LoadedFile)
  : list Event * list (string * Captured) :=
  let filePath := fst entry in
  match statSync filePath with
  | inl error =>
      ([LoggerError (couldNotOpen error);
        DispatchErrorDialog (errorDialogMessage error)], [])
  | inr mtime =>
      if loadTime (snd entry) <? mtime then
        ([LoggerInfo ["Reloading: "%string; filePath]],
         match parseOneFile_start state filePath with
         | Some c => [(filePath, c)]
         | None => []
         end)
      else ([LoggerInfo ["Does not need to be reloaded: "%string; filePath]], [])
  end.

(** [refreshAllFiles()]: the events, and the parses it has started. *)
Definition refreshAllFiles (state : FileState) (statSync : string -> JsErr + Z)
  : list Event * list (string * Captured) :=
  let runs := map (refreshOne state statSync) (loaded state) in
  (flat_map fst runs, flat_map snd runs).

(** *** [checkUpToDateFiles] *)

Inductive Settled : Type :=
| Fulfilled
| Rejected
| Pending.

Record CheckRun : Type := mkCheckRun {
  settled : Settled;
  checkEvents : list Event;
  started : list (string * Captured);
  storeAfter : PersistentStore.t
}.

(** The files that have changed on disk since they were loaded, with
    their modification times.  [None]: a [stat] has failed, its callback
    raises on [stats.mtime] and its promise stays pending. *)
Fixpoint changedFiles (stat : string -> option Z) (entries : list (string * LoadedFile))
  : option (list (string * Z)) :=
  match entries with
  | [] => Some []
  | (filePath, entry) :: rest =>
      match stat filePath, changedFiles stat rest with
      | Some mtime, Some changed =>
          if loadTime entry <? mtime then Some ((filePath, mtime) :: changed)
          else Some changed
      | _, _ => None
      end
  end.

(** [Math.max(newestFileTimestamp, stats.mtime)] from [-Infinity]. *)
Definition newest (changed : list (string * Z)) : option Z :=
  fold_left (fun acc fm => match acc with
                           | None => Some (snd fm)
                           | Some t => Some (Z.max t (snd fm))
                           end) changed None.

(** [filenames.filter(i => !!i)]: the empty string is falsy. *)
Definition truthyNames (changed : list (string * Z)) : list string :=
  filter (fun f => negb (String.eqb f "")) (map fst changed).

(** The dialog has been answered with [button] and [doNotAskAgain];
    [state] is the file state at that moment. *)
Definition answerDialog (state : FileState) (statSync : string -> JsErr + Z)
           (store : PersistentStore.t) (shown : list Event)
           (button : Z) (doNotAskAgain : bool) : CheckRun :=
  let store1 :=
    if doNotAskAgain
    then PersistentStore.setBehaviour store (if button =? 0 then "ignore" else "reload")
    else store in
  if button =? 0 then mkCheckRun Fulfilled shown [] store1
  else if button =? 1 then
    let refresh := refreshAllFiles state statSync in
    mkCheckRun Fulfilled (shown ++ fst refresh) (snd refresh) store1
  else mkCheckRun Rejected shown [] store1.

(** [checkUpToDateFiles(dispatch, getState)].  [state] is the file state
    when it is called, [later] the file state when the files are reloaded
    (the [stat] callbacks and the dialog come in between); [button] and
    [doNotAskAgain] are the answer to the dialog, should it be shown. *)
Definition checkUpToDateFiles (state later : FileState) (stat : string -> option Z)
           (statSync : string -> JsErr + Z) (store : PersistentStore.t)
           (button : Z) (doNotAskAgain : bool) : CheckRun :=
  match changedFiles stat (loaded state) with
  | None => mkCheckRun Pending [] [] store
  | Some changed =>
      let filenames := truthyNames changed in
      match filenames with
      | [] => mkCheckRun Fulfilled [] [] store
      | _ =>
          let ask :=
            answerDialog later statSync store
                         [ShowMessageBox (newest changed) filenames]
                         button doNotAskAgain in
          match PersistentStore.storedBehaviour store with
          | Some behaviour =>
              if String.eqb behaviour "ignore" then mkCheckRun Fulfilled [] [] store
              else if String.eqb behaviour "reload" then
                let refresh := refreshAllFiles later statSync in
                mkCheckRun Fulfilled (fst refresh) (snd refresh) store
              else ask
          | None => ask
          end
      end
  end.

(** *** States the thunks can reach *)

(** The file states that the store goes through: it starts from the
    initial state; a parse that was started on an earlier state
    completes; a file is removed; the files are closed; the regions, the
    region names or the recently used files become known. *)
Inductive Reachable : FileState -> Prop :=
| ReachInitial : Reachable InitialState
| ReachParsed (s earlier : FileState) (filePath : string) (c : Captured)
              (basename : string -> string) (mtime now : Z)
              (memMap : MemoryMap.t) (store : PersistentStore.t) :
    Reachable s -> Reachable earlier ->
    parseOneFile_start earlier filePath = Some c ->
    Reachable
      (fileAfter (fst (parseOneFile_finish basename filePath c
                                           (Parsed mtime memMap) now store)) s)
| ReachRemoved (s : FileState) (filePath : string) :
    Reachable s -> Reachable (fileAfter (removeFile s filePath) s)
| ReachClosed (s : FileState) :
    Reachable s -> Reachable (fileAfter closeFiles s)
| ReachRegions (s : FileState) (rs : list Region) :
    Reachable s -> Reachable (reducer s (FILE_REGIONS_KNOWN rs))
| ReachNames (s : FileState) (names : list RegionName) :
    Reachable s -> Reachable (reducer s (FILE_REGION_NAMES_KNOWN names))
| ReachMru (s : FileState) (files : option (list string)) :
    Reachable s -> Reachable (reducer s (MRU_FILES_LOAD_SUCCESS files)).

End FileThunks.

(** ** More sample states *)

Module MoreSamples.
Import FileThunks.

(** One file, loaded at time 200. *)
Definition oneFile : FileState :=
  mkFileState [("app.hex"%string, mkLoadedFile "app.hex" 100 200 Samples.appHex)]
              [("app.hex"%string, Samples.appHex)] [] [] [].

(** The file has been modified at time 300. *)
Definition modified (path : string) : option Z := Some 300.
Definition modifiedSync (path : string) : JsErr + Z := inr 300.

(** The file is as it was when it was loaded. *)
Definition untouched (path : string) : option Z := Some 100.

Definition baseName (path : string) : string := path.

End MoreSamples.

(** ** Vocabulary of the properties of the file thunks *)

Module CheckStatements.
Import FileThunks.

(** The message box is among the events. *)
Definition dialogShown (events : list Event) : Prop :=
  exists timestamp filenames, In (ShowMessageBox timestamp filenames) events.

(** The store holds no answer that spares the question. *)
Definition mustAsk (store : PersistentStore.t) : Prop :=
  PersistentStore.storedBehaviour store <> Some "ignore"%string
  /\ PersistentStore.storedBehaviour store <> Some "reload"%string.

End CheckStatements.
(** ** [updateFileRegions] of [src/lib/actions/fileActions.js] *)

Module RegionsThunk.

Import MemoryMap FileActions.

(** The two warnings of the thunk.  The second one lists the blocks as
    [hexpad8(startAddress)-hexpad8(endAddress)]; the addresses are kept
    as numbers. *)
Inductive Warning : Type :=
| OverlappingData
| OutsideFlash (blocks : list (Z * Z)).

Inductive Dispatched : Type :=
| FileWarningRemove
| AddFileWarning (w : Warning)
| FileAction (a : Action).

Record Run : Type := mkRun {
  dispatches : list Dispatched;
  failure : option JsError
}.

(** The condition on one block.  [uicrBaseAddr] is read from
    [target.deviceInfo]; it is [None] when the record has no such
    property, and a comparison with [undefined] is false. *)
Definition outside (uicrBaseAddr : option Z) (romSize pageSize : Z)
           (startAddress endAddress : Z) : bool :=
  match uicrBaseAddr with
  | None => false
  | Some base =>
      ((startAddress <? base) && (romSize <? endAddress))
      || ((base <=? startAddress) && (base + pageSize <? endAddress))
  end.

(** The loop over the overlaps; [overlap[0][1]] raises on an entry
    without contributions. *)
Fixpoint outsideFlashBlocks (uicrBaseAddr : option Z) (romSize pageSize : Z)
         (overlaps : Overlaps) : Result (list (Z * Z)) :=
  match overlaps with
  | [] => Ok []
  | (startAddress, overlap) :: rest =>
      match overlap with
      | [] => Throw TypeError
      | (_, bytes) :: _ =>
          let endAddress := startAddress + Z.of_nat (length bytes) in
          match outsideFlashBlocks uicrBaseAddr romSize pageSize rest with
          | Throw e => Throw e
          | Ok blocks =>
              Ok (if outside uicrBaseAddr romSize pageSize startAddress endAddress
                  then (startAddress, endAddress) :: blocks
                  else blocks)
          end
      end
  end.

(** [r.fileNames && r.fileNames.length > 1] *)
Definition sharedByFiles (r : Region) : bool :=
  (1 <? Z.of_nat (length (fileNames r))).

(** [updateFileRegions()].  [getFileRegions] is the function of
    [util/regions], which is not among the sources. *)
Definition updateFileRegions
           (getFileRegions : list (string * MemoryMap.t) -> DeviceInfo -> list Region)
           (uicrBaseAddr : option Z) (st : AppState) : Run :=
  let overlaps := overlapMemoryMaps (memMaps (file st)) in
  let regions := getFileRegions (memMaps (file st)) (deviceInfo (target st)) in
  let overlapping :=
    match find sharedByFiles regions with
    | Some _ => [AddFileWarning OverlappingData]
    | None => []
    end in
  match outsideFlashBlocks uicrBaseAddr (romSize (deviceInfo (target st)))
                           (pageSize (deviceInfo (target st))) overlaps with
  | Throw e => mkRun (FileWarningRemove :: overlapping) (Some e)
  | Ok blocks =>
      let outsideWarning :=
        match blocks with
        | [] => []
        | _ => [AddFileWarning (OutsideFlash blocks)]
        end in
      let st1 := appReducer st (fileRegionsKnownAction regions) in
      let bl := updateFileBlRegion st1 in
      let st2 := afterThunk st1 bl in
      let app := updateFileAppRegions st2 in
      match thrown bl with
      | Some e =>
          mkRun (FileWarningRemove :: overlapping ++ outsideWarning
                   ++ [FileAction (fileRegionsKnownAction regions)]
                   ++ map FileAction (dispatched bl))
                (Some e)
      | None =>
          mkRun (FileWarningRemove :: overlapping ++ outsideWarning
                   ++ [FileAction (fileRegionsKnownAction regions)]
                   ++ map FileAction (dispatched bl)
                   ++ map FileAction (dispatched app))
                (thrown app)
      end
  end.

(** The store once the actions of a run have been dispatched. *)
Definition afterRun (st : AppState) (run : Run) : AppState :=
  fold_left (fun s d => match d with
                        | FileAction a => appReducer s a
                        | _ => s
                        end) (dispatches run) st.

(** A block that the warning of a run reports as outside the flash. *)
Definition reportedOutside (run : Run) (startAddress endAddress : Z) : Prop :=
  exists blocks,
    In (AddFileWarning (OutsideFlash blocks)) (dispatches run)
    /\ In (startAddress, endAddress) blocks.

(** The actions that touch only the regions and their names. *)
Definition regionsOnly (a : Action) : bool :=
  match a with
  | FILE_REGIONS_KNOWN _ | FILE_REGION_NAMES_KNOWN _ => true
  | _ => false
  end.

(** Two stores that differ at most in the detected region names. *)
Definition sameButNames (a b : AppState) : Prop :=
  target a = target b
  /\ loaded (file a) = loaded (file b)
  /\ memMaps (file a) = memMaps (file b)
  /\ regions (file a) = regions (file b)
  /\ mruFiles (file a) = mruFiles (file b).

End RegionsThunk.

(** ** The callbacks of [writeHex] and [recover] in [src/actions/jprog.js] *)

Module Programming.

Import Jprog.

Definition newline : Ascii.ascii := Ascii.ascii_of_byte x0a.

(** [s.split('\n')] *)
Fixpoint split (s : string) : list string :=
  match s with
  | EmptyString => [EmptyString]
  | String c rest =>
      if Ascii.eqb c newline then EmptyString :: split rest
      else match split rest with
           | line :: lines => String c line :: lines
           | [] => [String c EmptyString]
           end
  end.

(** No line break in [s]. *)
Fixpoint singleLine (s : string) : bool :=
  match s with
  | EmptyString => true
  | String c rest => negb (Ascii.eqb c newline) && singleLine rest
  end.

(** [lines.join('\n')] *)
Definition join (lines : list string) : string :=
  String.concat (String newline EmptyString) lines.

(** What [nrfjprog] calls back with: the [process] of each progress
    report, then the finish callback with an error, of which the code
    reads the string [log], or with none. *)
Record Report : Type := mkReport {
  progress : list string;
  failed : option string
}.

(** The two callbacks that [writeHex] hands to [nrfjprog.program]. *)
Definition writeHexCallbacks (r : Report) : list Effect :=
  map LoggerInfo (progress r)
  ++ match failed r with
     | Some log => map LoggerError (split log)
     | None => [LoggerInfo "Write procedure finished";
                Dispatch WRITE_PROGRESS_FINISHED]
     end.

(** [write()] together with the callbacks of the programming it starts. *)
Definition writeAndProgram (appState : AppState) (upToDate : bool) (r : Report)
  : list Effect :=
  let run := write appState upToDate in
  effects run
  ++ flat_map (fun e => match e with
                        | Program _ _ => writeHexCallbacks r
                        | _ => []
                        end) (effects run).

(** The lines that a run logs as errors. *)
Definition errorLines (es : list Effect) : list string :=
  flat_map (fun e => match e with LoggerError msg => [msg] | _ => [] end) es.

(** [recover()].  [forEach(logger.error)] hands the logger each line
    together with its index and the array of all lines. *)
Inductive RecoverEffect : Type :=
| Did (e : Effect)
| Recover (serial : Z)
| LoggerErrorEach (line : string) (index : Z) (lines : list string).

Fixpoint forEachFrom {A B : Type} (f : A -> Z -> list A -> B) (index : Z)
         (all rest : list A) : list B :=
  match rest with
  | [] => []
  | x :: rest' => f x index all :: forEachFrom f (index + 1) all rest'
  end.

Definition forEach {A B : Type} (f : A -> Z -> list A -> B) (l : list A) : list B :=
  forEachFrom f 0 l l.

Definition refused : list RecoverEffect :=
  [Did (LoggerError "Select a device before recovering")].

(** The finish callback that [recover] hands to [nrfjprog.recover]. *)
Definition finish (r : Report) : list RecoverEffect :=
  match failed r with
  | Some log => forEach LoggerErrorEach (split log)
  | None => [Did (LoggerInfo "Recovery procedure finished");
             Did (Dispatch WRITE_PROGRESS_FINISHED)]
  end.

Definition running (serial : Z) (r : Report) : list RecoverEffect :=
  [Did (Dispatch WRITE_PROGRESS_START); Recover serial]
    ++ map (fun p => Did (LoggerInfo p)) (progress r)
    ++ finish r.

Definition recover (appState : AppState) (r : Report) : list RecoverEffect :=
  match serialNumber (target appState) with
  | None => refused
  | Some serial => if serial =? 0 then refused else running serial r
  end.

End Programming.
(** ** Probing a device: [logDeviceInfo] in [src/actions/jprog.js] *)

Module Probing.

Import FileThunks.

(** The constants of [pc-nrfjprog-js] that [getDeviceModel] uses as
    keys; the package is not among the sources, so that their values are
    left open. *)
Record Constants : Type := mkConstants {
  NRF51_FAMILY : Z;
  NRF51xxx_xxAA_REV1 : Z;
  NRF51xxx_xxAA_REV2 : Z;
  NRF51xxx_xxAA_REV3 : Z;
  NRF51801_xxAB_REV3 : Z;
  NRF51802_xxAA_REV3 : Z;
  NRF51xxx_xxAB_REV3 : Z;
  NRF51xxx_xxAC_REV3 : Z;
  NRF52_FAMILY : Z;
  NRF52810_xxAA_FUTURE : Z;
  NRF52832_xxAA_ENGA : Z;
  NRF52832_xxAA_ENGB : Z;
  NRF52832_xxAA_REV1 : Z;
  NRF52832_xxAB_REV1 : Z;
  NRF52832_xxAA_FUTURE : Z;
  NRF52832_xxAB_FUTURE : Z;
  NRF52840_xxAA_ENGA : Z;
  NRF52810_xxAA_REV1 : Z;
  NRF52840_xxAA_FUTURE : Z
}.

(** What [nrfjprog.getDeviceInfo] answers, as far as the code reads it. *)
Record DevInfo : Type := mkDevInfo {
  family : Z;
  deviceType : Z;
  codeAddress : Z;
  codeSize : Z;
  codePageSize : Z;
  uicrAddress : Z;
  infoPageSize : Z;
  ramSize : Z
}.

(** What [nrfjprog.getProbeInfo] answers. *)
Record ProbeInfo : Type := mkProbeInfo {
  serialNumber : Z;
  clockSpeedkHz : Z;
  firmwareString : string
}.

(** An object literal with computed keys: of two entries with the same
    key the later one stands. *)
Definition property {V : Type} (key : Z) (literal : list (Z * V)) : option V :=
  match find (fun kv => fst kv =? key) (rev literal) with
  | Some kv => Some (snd kv)
  | None => None
  end.

Definition deviceModels (k : Constants) : list (Z * list (Z * string)) :=
  [(NRF51_FAMILY k,
    [(NRF51xxx_xxAA_REV1 k, "NRF51xxx_xxAA_REV1"%string);
     (NRF51xxx_xxAA_REV2 k, "NRF51xxx_xxAA_REV2"%string);
     (NRF51xxx_xxAA_REV3 k, "NRF51xxx_xxAA_REV3"%string);
     (NRF51801_xxAB_REV3 k, "NRF51801_xxAB_REV3"%string);
     (NRF51802_xxAA_REV3 k, "NRF51802_xxAA_REV3"%string);
     (NRF51xxx_xxAB_REV3 k, "NRF51xxx_xxAB_REV3"%string);
     (NRF51xxx_xxAC_REV3 k, "NRF51xxx_xxAC_REV3"%string)]);
   (NRF52_FAMILY k,
    [(NRF52810_xxAA_FUTURE k, "NRF52810_xxAA_FUTURE"%string);
     (NRF52832_xxAA_ENGA k, "NRF52832_xxAA_ENGA"%string);
     (NRF52832_xxAA_ENGB k, "NRF52832_xxAA_ENGB"%string);
     (NRF52832_xxAA_REV1 k, "NRF52832_xxAA_REV1"%string);
     (NRF52832_xxAB_REV1 k, "NRF52832_xxAB_REV1"%string);
     (NRF52832_xxAA_FUTURE k, "NRF52832_xxAA_FUTURE"%string);
     (NRF52832_xxAB_FUTURE k, "NRF52832_xxAB_FUTURE"%string);
     (NRF52840_xxAA_ENGA k, "NRF52840_xxAA_ENGA"%string);
     (NRF52810_xxAA_REV1 k, "NRF52810_xxAA_REV1"%string);
     (NRF52840_xxAA_FUTURE k, "NRF52840_xxAA_FUTURE"%string)])].

(** [getDeviceModel(deviceInfo)] *)
Definition getDeviceModel (k : Constants) (deviceInfo : DevInfo) : string :=
  match property (family deviceInfo) (deviceModels k) with
  | Some models =>
      match property (deviceType deviceInfo) models with
      | Some model => model
      | None => "Unknown model"
      end
  | None => "Unknown model"
  end.

(** What the probe answers to [getDeviceInfo(serialNumber)]. *)
Inductive Probe : Type :=
| ProbeFailed (err1 : JsErr)
| DeviceFailed (probeInfo : ProbeInfo) (err2 : JsErr)
| Known (probeInfo : ProbeInfo) (devInfo : DevInfo).

(** What the probe answers to the two reads of [getDeviceMemMap]. *)
Inductive Readout : Type :=
| FlashFailed (err1 : JsErr)
| UicrFailed (flashBytes : list byte) (err2 : JsErr)
| Read (flashBytes uicrBytes : list byte).

Section LogDeviceInfo.

(** The memory map, the regions and the labels that [getDeviceMemMap]
    builds from the bytes read, with [MemoryMap.fromPaddedUint8Array],
    [memMap.set] and [memRegions], none of which is among the sources;
    and the number of blocks of the map, [memMap.size]. *)
Variable Contents : Type.
Variable contents : list byte -> list byte -> DevInfo -> Contents.
Variable size : Contents -> Z.

(** What the run does, in order.  The sizes that the source divides by
    1024 and formats into the line are kept as they are read. *)
Inductive Step : Type :=
| InfoSeggerSerial (serial : Z)
| InfoSeggerSpeed (kHz : Z)
| InfoSeggerVersion (firmware : string)
| InfoProbed (serial : Z) (model : string) (ram flash page : Z)
| InfoReading
| InfoMemoryRead (blocks : Z)
| ErrorNoSize (message : string)
| TARGET_SIZE_KNOWN (targetPort : string) (targetSize targetPageSize : Z)
| TARGET_CONTENTS_KNOWN (targetPort : string) (targetSize targetPageSize : Z)
                        (read : Contents).

(** [getDeviceInfo(serialNumber)]: what it logs, and the value or the
    error its promise is settled with. *)
Definition getDeviceInfo (k : Constants) (serial : Z) (probe : Probe)
  : list Step * (JsErr + DevInfo) :=
  match probe with
  | ProbeFailed err1 => ([], inl err1)
  | DeviceFailed probeInfo err2 =>
      ([InfoSeggerSerial (serialNumber probeInfo);
        InfoSeggerSpeed (clockSpeedkHz probeInfo);
        InfoSeggerVersion (firmwareString probeInfo)],
       inl err2)
  | Known probeInfo devInfo =>
      ([InfoSeggerSerial (serialNumber probeInfo);
        InfoSeggerSpeed (clockSpeedkHz probeInfo);
        InfoSeggerVersion (firmwareString probeInfo);
        InfoProbed serial (getDeviceModel k devInfo) (ramSize devInfo)
                   (codeSize devInfo) (codePageSize devInfo);
        InfoReading],
       inr devInfo)
  end.

(** [getDeviceMemMap(serialNumber, devInfo)] *)
Definition getDeviceMemMap (devInfo : DevInfo) (readout : Readout)
  : list Step * (JsErr + Contents) :=
  match readout with
  | FlashFailed err1 => ([], inl err1)
  | UicrFailed _ err2 => ([], inl err2)
  | Read flashBytes uicrBytes =>
      let read := contents flashBytes uicrBytes devInfo in
      ([InfoMemoryRead (size read)], inr read)
  end.

(** [logDeviceInfo(serialNumber, comName)].  The promise of
    [getDeviceMemMap] has a [then] and no [catch]; the [targetFamily]
    that the first callback computes is used nowhere. *)
Definition logDeviceInfo (k : Constants) (serial : Z) (comName : string)
           (probe : Probe) (readout : Readout) : list Step :=
  let '(logged, info) := getDeviceInfo k serial probe in
  match info with
  | inl error =>
      logged ++ [ErrorNoSize (errMessage error)]
  | inr info =>
      let '(logged', read) := getDeviceMemMap info readout in
      logged
        ++ [TARGET_SIZE_KNOWN comName (codeSize info) (codePageSize info)]
        ++ logged'
        ++ match read with
           | inl _ => []
           | inr read =>
               [TARGET_CONTENTS_KNOWN comName (codeSize info) (codePageSize info) read]
           end
  end.

(** The steps that tell the user of a failure. *)
Definition isError (s : Step) : bool :=
  match s with
  | ErrorNoSize _ => true
  | _ => false
  end.

Definition isContents (s : Step) : bool :=
  match s with
  | TARGET_CONTENTS_KNOWN _ _ _ _ => true
  | _ => false
  end.

End LogDeviceInfo.

End Probing.

(** ** Facts about sparse memory maps *)

Module MemoryMapFacts.
Import MemoryMap.

Lemma byteAt_Some (blk : Block) (a : Z) (b : byte) :
  byteAt blk a = Some b <->
  fst blk <= a /\ nth_error (snd blk) (Z.to_nat (a - fst blk)) = Some b.
Proof.
  unfold byteAt, blockEnd.
  destruct (Z.leb_spec (fst blk) a) as [Hle | Hgt]; simpl.
  - destruct (Z.ltb_spec a (fst blk + Z.of_nat (length (snd blk)))) as [Hlt | Hge].
    + tauto.
    + split; [discriminate |]. intros [_ H].
      assert (Z.to_nat (a - fst blk) < length (snd blk))%nat
        by (apply nth_error_Some; congruence).
      lia.
  - split; [discriminate | lia].
Qed.

Lemma byteAt_offset (s : Z) (bs : list byte) (i : nat) :
  byteAt (s, bs) (s + Z.of_nat i) = nth_error bs i.
Proof.
  destruct (nth_error bs i) as [b |] eqn:E.
  - apply byteAt_Some. simpl. split; [lia |].
    rewrite <- E. f_equal. lia.
  - destruct (byteAt (s, bs) (s + Z.of_nat i)) as [b |] eqn:Eb; trivial.
    apply byteAt_Some in Eb as [_ Eb]. simpl in Eb.
    rewrite <- Eb, <- E. f_equal. lia.
Qed.

Lemma holdsb_spec (m : t) (a : Z) (b : byte) :
  holdsb m a b = true <-> holds m a b.
Proof.
  unfold holdsb, holds. rewrite existsb_exists.
  split; intros [blk [Hin H]]; exists blk; split; trivial.
  - unfold blockHolds in H. destruct (byteAt blk a) as [b' |]; [| discriminate].
    apply Byte.byte_dec_bl in H. now subst.
  - unfold blockHolds. rewrite H. now apply Byte.byte_dec_lb.
Qed.

Lemma holds_nil (a : Z) (b : byte) : ~ holds [] a b.
Proof. intros [blk [[] _]]. Qed.

Lemma holds_cons (blk : Block) (m : t) (a : Z) (b : byte) :
  holds (blk :: m) a b <-> byteAt blk a = Some b \/ holds m a b.
Proof.
  unfold holds; simpl. split.
  - intros [blk' [[-> | Hin] H]]; [now left | right; eauto].
  - intros [H | [blk' [Hin H]]]; eauto.
Qed.

Lemma holds_app (m1 m2 : t) (a : Z) (b : byte) :
  holds (m1 ++ m2) a b <-> holds m1 a b \/ holds m2 a b.
Proof.
  unfold holds. split.
  - intros [blk [Hin H]]. apply in_app_or in Hin as [Hin | Hin]; eauto.
  - intros [[blk [Hin H]] | [blk [Hin H]]]; exists blk; split; trivial;
      apply in_or_app; auto.
Qed.

Lemma holds_flat_map {X : Type} (f : X -> t) (m : list X) (a : Z) (b : byte) :
  holds (flat_map f m) a b <-> exists blk, In blk m /\ holds (f blk) a b.
Proof.
  unfold holds. split.
  - intros [blk' [Hin H]]. apply in_flat_map in Hin as [blk [Hin Hin']]. eauto.
  - intros [blk [Hin [blk' [Hin' H]]]]. exists blk'. split; trivial.
    apply in_flat_map. eauto.
Qed.

(** One block of [other], byte by byte. *)
Lemma bytesHeld_spec (self : t) (bs : list byte) (a : Z) :
  bytesHeld self a bs = true <->
  forall x b, byteAt (a, bs) x = Some b -> holds self x b.
Proof.
  revert a. induction bs as [| b0 rest IH]; intros a; simpl.
  - split; trivial. intros _ x b H. apply byteAt_Some in H as [_ H]. simpl in H.
    now rewrite nth_error_nil in H.
  - rewrite andb_true_iff, holdsb_spec, IH. split.
    + intros [H0 Hrest] x b H. apply byteAt_Some in H as [Hle H]. simpl in *.
      destruct (Z.eq_dec x a) as [-> | Hne].
      * rewrite Z.sub_diag in H. simpl in H. now injection H as <-.
      * apply Hrest. apply byteAt_Some. simpl. split; [lia |].
        replace (Z.to_nat (x - a)) with (S (Z.to_nat (x - (a + 1)))) in H by lia.
        exact H.
    + intros H. split.
      * apply H. apply byteAt_Some. simpl. split; [lia |].
        now rewrite Z.sub_diag.
      * intros x b Hx. apply H. apply byteAt_Some in Hx as [Hle Hx]. simpl in *.
        apply byteAt_Some. simpl. split; [lia |].
        replace (Z.to_nat (x - a)) with (S (Z.to_nat (x - (a + 1)))) by lia.
        exact Hx.
Qed.

(** The specification's sentence on [contains], as a theorem of the model. *)
Lemma contains_spec (self other : t) :
  contains self other = true <->
  forall a b, holds other a b -> holds self a b.
Proof.
  unfold contains. rewrite forallb_forall. split.
  - intros H a b [blk [Hin Hb]]. specialize (H blk Hin).
    rewrite bytesHeld_spec in H. apply H. now destruct blk.
  - intros H blk Hin. apply bytesHeld_spec. intros x b Hb.
    apply H. exists blk. split; [trivial | now destruct blk].
Qed.

Lemma contains_false (self other : t) :
  contains self other = false <->
  ~ (forall a b, holds other a b -> holds self a b).
Proof.
  rewrite <- contains_spec. destruct (contains self other); split;
    congruence.
Qed.

Lemma nth_error_window (bs : list byte) (k n i : nat) :
  nth_error (firstn n (skipn k bs)) i =
  if (i <? n)%nat then nth_error bs (k + i) else None.
Proof. rewrite nth_error_firstn, nth_error_skipn. reflexivity. Qed.

Lemma byteAt_in_block (blk : Block) (a : Z) (b : byte) :
  byteAt blk a = Some b -> fst blk <= a < blockEnd blk.
Proof.
  intros H. apply byteAt_Some in H as [Hle H]. unfold blockEnd.
  assert (Z.to_nat (a - fst blk) < length (snd blk))%nat.
  { apply nth_error_Some. congruence. }
  lia.
Qed.

Lemma byteAt_nil (s a : Z) : byteAt (s, []) a = None.
Proof.
  destruct (byteAt (s, []) a) as [b |] eqn:E; trivial.
  apply byteAt_Some in E as [_ E]. simpl in E. now rewrite nth_error_nil in E.
Qed.

(** A slice holds the bytes of the map that fall in the range. *)
Lemma holds_sliceBlock (address len : Z) (blk : Block) (a : Z) (b : byte) :
  holds (sliceBlock address len blk) a b <->
  byteAt blk a = Some b /\ address <= a < address + len.
Proof.
  unfold sliceBlock.
  destruct (Z.ltb_spec (Z.max address (fst blk))
                       (Z.min (address + len) (blockEnd blk))) as [Hlt | Hge].
  - rewrite holds_cons. split.
    + intros [H | H]; [| now apply holds_nil in H].
      apply byteAt_Some in H as [Hle H]. simpl in *.
      rewrite nth_error_window in H.
      destruct (Nat.ltb_spec (Z.to_nat (a - Z.max address (fst blk)))
                  (Z.to_nat (Z.min (address + len) (blockEnd blk)
                             - Z.max address (fst blk)))) as [Hi | Hi];
        [| discriminate].
      split; [| lia].
      apply byteAt_Some. split; [lia |].
      rewrite <- H. f_equal. lia.
    + intros [H Hrange]. left.
      pose proof (byteAt_in_block _ _ _ H) as Hin.
      apply byteAt_Some in H as [Hle H].
      apply byteAt_Some. simpl. split; [lia |].
      rewrite nth_error_window.
      destruct (Nat.ltb_spec (Z.to_nat (a - Z.max address (fst blk)))
                  (Z.to_nat (Z.min (address + len) (blockEnd blk)
                             - Z.max address (fst blk)))) as [Hi | Hi];
        [| lia].
      rewrite <- H. f_equal. lia.
  - split.
    + intros H. now apply holds_nil in H.
    + intros [H Hrange]. apply byteAt_in_block in H. lia.
Qed.

Lemma holds_slice (m : t) (address len : Z) (a : Z) (b : byte) :
  holds (slice m address len) a b <->
  holds m a b /\ address <= a < address + len.
Proof.
  unfold slice. rewrite holds_flat_map. split.
  - intros [blk [Hin H]]. apply holds_sliceBlock in H as [H Hr].
    split; trivial. exists blk. auto.
  - intros [[blk [Hin H]] Hr]. exists blk. split; trivial.
    apply holds_sliceBlock. auto.
Qed.

End MemoryMapFacts.

(** ** Pagination *)

Module PaginateFacts.
Import MemoryMap MemoryMapFacts.

Lemma byteAt_cons (s : Z) (b0 : byte) (bs : list byte) (a : Z) (b : byte) :
  byteAt (s, b0 :: bs) a = Some b <->
  (a = s /\ b = b0) \/ byteAt (s + 1, bs) a = Some b.
Proof.
  rewrite !byteAt_Some. simpl. split.
  - intros [Hle H]. destruct (Z.eq_dec a s) as [-> | Hne].
    + left. rewrite Z.sub_diag in H. simpl in H. split; congruence.
    + right. split; [lia |].
      replace (Z.to_nat (a - s)) with (S (Z.to_nat (a - (s + 1)))) in H by lia.
      exact H.
  - intros [[-> ->] | [Hle H]].
    + split; [lia |]. now rewrite Z.sub_diag.
    + split; [lia |].
      replace (Z.to_nat (a - s)) with (S (Z.to_nat (a - (s + 1)))) by lia.
      exact H.
Qed.

(** The first page block starts where the input block starts. *)
Lemma paginateBytes_head (page : Z) (bs : list byte) (s : Z) :
  match paginateBytes page s bs with
  | [] => bs = []
  | blk :: _ => fst blk = s /\ snd blk <> []
  end.
Proof.
  destruct bs as [| b rest]; simpl; trivial.
  destruct (paginateBytes page (s + 1) rest) as [| [s' bs'] more].
  - simpl. split; [trivial | discriminate].
  - destruct ((s + 1) mod page =? 0); simpl; split; trivial; discriminate.
Qed.

(** Pagination neither invents nor drops a byte. *)
Lemma holds_paginateBytes (page : Z) (bs : list byte) (s : Z) (a : Z) (b : byte) :
  holds (paginateBytes page s bs) a b <-> byteAt (s, bs) a = Some b.
Proof.
  revert s. induction bs as [| b0 rest IH]; intros s.
  - simpl. rewrite byteAt_nil. split; [intros H; now apply holds_nil in H | discriminate].
  - rewrite byteAt_cons. simpl.
    pose proof (paginateBytes_head page rest (s + 1)) as Hhead.
    specialize (IH (s + 1)).
    destruct (paginateBytes page (s + 1) rest) as [| [s' bs'] more].
    + subst rest. rewrite byteAt_nil. rewrite holds_cons, byteAt_cons, byteAt_nil.
      split; intros [H | H]; auto; try discriminate; now apply holds_nil in H.
    + simpl in Hhead. destruct Hhead as [-> _].
      destruct ((s + 1) mod page =? 0).
      * rewrite holds_cons, byteAt_cons, byteAt_nil, IH.
        split; intros [H | H]; auto. destruct H as [H | H]; auto; discriminate.
      * rewrite holds_cons, byteAt_cons. rewrite holds_cons in IH.
        tauto.
Qed.

Lemma holds_paginate (m : t) (page : Z) (a : Z) (b : byte) :
  holds (paginate m page) a b <-> holds m a b.
Proof.
  unfold paginate. rewrite holds_flat_map. split.
  - intros [blk [Hin H]]. apply holds_paginateBytes in H.
    exists blk. split; [trivial | now destruct blk].
  - intros [blk [Hin H]]. exists blk. split; trivial.
    apply holds_paginateBytes. now destruct blk.
Qed.

Lemma same_page_step (page s : Z) :
  0 < page -> (s + 1) mod page <> 0 -> s / page = (s + 1) / page.
Proof.
  intros Hp Hm.
  pose proof (Z.div_mod (s + 1) page ltac:(lia)) as E.
  pose proof (Z.mod_pos_bound (s + 1) page Hp) as B.
  symmetry. apply (Z.div_unique s page ((s + 1) / page) ((s + 1) mod page - 1)); lia.
Qed.

(** Every block that pagination produces lies inside one page. *)
Lemma paginateBytes_withinPage (page : Z) (bs : list byte) (s : Z) :
  0 < page ->
  Forall (Statements.withinPage page) (paginateBytes page s bs).
Proof.
  intros Hp. revert s. induction bs as [| b0 rest IH]; intros s; simpl.
  - constructor.
  - specialize (IH (s + 1)).
    pose proof (paginateBytes_head page rest (s + 1)) as Hhead.
    destruct (paginateBytes page (s + 1) rest) as [| [s' bs'] more].
    + constructor; [| constructor].
      unfold Statements.withinPage, blockEnd. simpl. f_equal. lia.
    + simpl in Hhead. destruct Hhead as [-> Hne].
      destruct (Z.eqb_spec ((s + 1) mod page) 0) as [E | E].
      * constructor; trivial.
        unfold Statements.withinPage, blockEnd. simpl. f_equal. lia.
      * inversion IH as [| ? ? Hw Hmore]; subst. constructor; trivial.
        unfold Statements.withinPage, blockEnd in *. simpl in *.
        rewrite (same_page_step page s Hp E), Hw. f_equal. lia.
Qed.

Lemma paginate_withinPage (m : t) (page : Z) :
  0 < page -> Forall (Statements.withinPage page) (paginate m page).
Proof.
  intros Hp. unfold paginate. induction m as [| blk m IH]; simpl.
  - constructor.
  - apply Forall_app. split; trivial. now apply paginateBytes_withinPage.
Qed.

End PaginateFacts.

(** ** Flattening *)

Module FlattenFacts.
Import MemoryMap MemoryMapFacts Statements.

Lemma In_insertCut (c x : Z) (l : list Z) :
  In x (insertCut c l) <-> x = c \/ In x l.
Proof.
  induction l as [| y l IH]; simpl.
  - intuition.
  - destruct (Z.ltb_spec c y); [simpl; intuition |].
    destruct (Z.eqb_spec c y); simpl; [intuition congruence |].
    rewrite IH. intuition.
Qed.

Lemma increasing_insertCut (c : Z) (l : list Z) :
  increasing l -> increasing (insertCut c l).
Proof.
  induction l as [| y l IH]; simpl.
  - intros _. split; [intros ? [] | trivial].
  - intros [Hy Hl].
    destruct (Z.ltb_spec c y).
    + simpl. split; [| auto].
      intros z [<- | Hz]; [lia | specialize (Hy z Hz); lia].
    + destruct (Z.eqb_spec c y); simpl; [auto |].
      split; [| auto].
      intros z Hz. apply In_insertCut in Hz as [-> | Hz]; [lia | auto].
Qed.

Lemma In_sortedCuts (maps : list (string * t)) (c : Z) :
  In c (sortedCuts maps) <-> In c (cutPoints maps).
Proof.
  unfold sortedCuts. induction (cutPoints maps) as [| x l IH]; simpl.
  - tauto.
  - rewrite In_insertCut, IH. intuition.
Qed.

Lemma increasing_sortedCuts (maps : list (string * t)) :
  increasing (sortedCuts maps).
Proof.
  unfold sortedCuts. induction (cutPoints maps) as [| x l IH]; simpl; trivial.
  now apply increasing_insertCut.
Qed.

(** The boundaries of every block are cut points. *)
Lemma block_cuts (maps : list (string * t)) (fm : string * t) (blk : Block) :
  In fm maps -> In blk (snd fm) ->
  In (fst blk) (sortedCuts maps) /\ In (blockEnd blk) (sortedCuts maps).
Proof.
  intros Hfm Hblk. rewrite !In_sortedCuts. unfold cutPoints.
  split; apply in_flat_map; exists fm; split; trivial;
    apply in_flat_map; exists blk; split; trivial; simpl; auto.
Qed.

(** Consecutive cut points: no cut point lies between them. *)
Lemma ranges_consecutive (l : list Z) (c1 c2 : Z) :
  increasing l -> In (c1, c2) (ranges l) ->
  c1 < c2 /\ forall c, In c l -> c <= c1 \/ c2 <= c.
Proof.
  induction l as [| x l IH]; simpl; [tauto |].
  destruct l as [| y l]; [simpl; tauto |].
  intros [Hx Hl] [E | Hin].
  - injection E as <- <-. split; [apply Hx; now left |].
    intros c [<- | Hc]; [lia |].
    right. destruct Hc as [<- | Hc]; [lia |].
    destruct Hl as [Hy _]. specialize (Hy c Hc). lia.
  - destruct (IH Hl Hin) as [Hlt Hno]. split; trivial.
    intros c [<- | Hc]; [| auto].
    left.
    assert (Hc1 : In c1 (y :: l)).
    { clear - Hin. revert Hin. generalize (y :: l). intros l0.
      induction l0 as [| a [| b l0] IH0]; simpl; try tauto.
      intros [E | H]; [injection E as <- _; auto | right; now apply IH0]. }
    specialize (Hx c1 Hc1). lia.
Qed.

(** Every address between two cut points lies in one of the ranges. *)
Lemma ranges_cover (l : list Z) (lo hi a : Z) :
  increasing l -> In lo l -> In hi l -> lo <= a < hi ->
  exists c1 c2, In (c1, c2) (ranges l) /\ c1 <= a < c2.
Proof.
  revert lo. induction l as [| x l IH]; intros lo; simpl; [tauto |].
  destruct l as [| y l].
  - simpl. intros _ [<- | []] [<- | []] H. lia.
  - intros [Hx Hl] Hlo Hhi Ha.
    destruct (Z.lt_ge_cases a y) as [Hay | Hya].
    + exists x, y. split; [now left |].
      destruct Hlo as [<- | Hlo]; [lia |].
      destruct Hlo as [<- | Hlo]; [lia |].
      destruct Hl as [Hy _]. specialize (Hy lo Hlo). lia.
    + assert (Hhi' : In hi (y :: l)).
      { destruct Hhi as [<- | Hhi]; trivial.
        specialize (Hx y (or_introl eq_refl)). lia. }
      destruct (IH y Hl (or_introl eq_refl) Hhi' ltac:(lia)) as (c1 & c2 & Hin & Hr).
      exists c1, c2. split; [now right | trivial].
Qed.

(** A block that holds an address of a range covers the whole range. *)
Lemma holder_covers (cuts : list Z) (c1 c2 a : Z) (blk : Block) (b : byte) :
  (forall c, In c cuts -> c <= c1 \/ c2 <= c) ->
  In (fst blk) cuts -> In (blockEnd blk) cuts ->
  c1 <= a < c2 -> byteAt blk a = Some b ->
  covers c1 c2 blk = true.
Proof.
  intros Hno Hs He Ha Hb. apply byteAt_in_block in Hb.
  unfold covers. apply andb_true_iff.
  split; [apply Z.leb_le | apply Z.leb_le].
  - destruct (Hno _ Hs); lia.
  - destruct (Hno _ He); lia.
Qed.

(** The piece cut out of a covering block holds the bytes of the block. *)
Lemma piece_bytes (c1 c2 : Z) (blk : Block) (a : Z) :
  covers c1 c2 blk = true -> c1 < c2 ->
  byteAt (c1, firstn (Z.to_nat (c2 - c1)) (skipn (Z.to_nat (c1 - fst blk)) (snd blk))) a
  = if (c1 <=? a) && (a <? c2) then byteAt blk a else None.
Proof.
  intros Hc Hlt. unfold covers in Hc. apply andb_true_iff in Hc as [Hs He].
  apply Z.leb_le in Hs, He. unfold blockEnd in He.
  destruct (Z.leb_spec c1 a) as [H1 | H1]; simpl.
  - destruct (Z.ltb_spec a c2) as [H2 | H2].
    + destruct (byteAt blk a) as [b |] eqn:Eb.
      * apply byteAt_Some. simpl. split; trivial.
        rewrite nth_error_window.
        destruct (Nat.ltb_spec (Z.to_nat (a - c1)) (Z.to_nat (c2 - c1))); [| lia].
        apply byteAt_Some in Eb as [_ Eb]. rewrite <- Eb. f_equal. lia.
      * assert (Hn : nth_error (snd blk) (Z.to_nat (a - fst blk)) = None).
        { destruct (nth_error (snd blk) (Z.to_nat (a - fst blk))) as [b |] eqn:En; trivial.
          assert (byteAt blk a = Some b) by (apply byteAt_Some; split; [lia | trivial]).
          congruence. }
        apply nth_error_None in Hn. lia.
    + destruct (byteAt _ a) as [b |] eqn:Eb; trivial.
      apply byteAt_Some in Eb as [_ Eb]. simpl in Eb.
      rewrite nth_error_window in Eb.
      destruct (Nat.ltb_spec (Z.to_nat (a - c1)) (Z.to_nat (c2 - c1)));
        [lia | discriminate].
  - destruct (byteAt _ a) as [b |] eqn:Eb; trivial.
    apply byteAt_Some in Eb as [Hle _]. simpl in Hle. lia.
Qed.

(** The last contribution of a list of at most one contribution per
    source. *)
Lemma rev_flat_map_head {X Y : Type} (f : X -> list Y) (l : list X) (y : Y) :
  (forall x, f x = [] \/ exists y0, f x = [y0]) ->
  hd_error (rev (flat_map f l)) = Some y <->
  exists pre x suf,
    l = pre ++ x :: suf /\ f x = [y] /\ Forall (fun x' => f x' = []) suf.
Proof.
  intros Hf. induction l as [| x l IH]; simpl.
  - split; [discriminate |]. intros (pre & x & suf & E & _). now destruct pre.
  - rewrite rev_app_distr.
    destruct (rev (flat_map f l)) as [| y' tl] eqn:Er.
    + assert (Hnil : flat_map f l = []).
      { rewrite <- (rev_involutive (flat_map f l)), Er. reflexivity. }
      assert (Hall : Forall (fun x' => f x' = []) l).
      { clear - Hnil. induction l as [| z l IHl]; simpl in *; [constructor |].
        apply app_eq_nil in Hnil as [Hz Hl]. constructor; auto. }
      simpl. split.
      * intros H. exists [], x, l. repeat split; trivial.
        destruct (Hf x) as [E | [y0 E]]; rewrite E in *; simpl in H;
          [discriminate | congruence].
      * intros (pre & x0 & suf & E & Hx0 & Hsuf).
        destruct pre as [| p pre]; simpl in E.
        -- injection E as <- <-. now rewrite Hx0.
        -- injection E as <- ->. exfalso.
           apply Forall_app in Hall as [_ Hall].
           inversion Hall; subst. congruence.
    + simpl. simpl in IH. split.
      * intros H. apply IH in H as (pre & x0 & suf & -> & Hx0 & Hsuf).
        exists (x :: pre), x0, suf. auto.
      * intros (pre & x0 & suf & E & Hx0 & Hsuf).
        apply IH.
        destruct pre as [| p pre]; simpl in E.
        -- injection E as <- <-. exfalso.
           assert (Hnil : flat_map f l = []).
           { clear - Hsuf. induction Hsuf as [| z l Hz _ IHl]; simpl; trivial.
             now rewrite Hz, IHl. }
           rewrite Hnil in Er. discriminate.
        -- injection E as <- ->. exists pre, x0, suf. auto.
Qed.

Lemma byteAt_covered (blk : Block) (a : Z) :
  fst blk <= a < blockEnd blk -> exists b, byteAt blk a = Some b.
Proof.
  intros H. unfold blockEnd in H.
  destruct (nth_error (snd blk) (Z.to_nat (a - fst blk))) as [b |] eqn:E.
  - exists b. apply byteAt_Some. split; [lia | trivial].
  - apply nth_error_None in E. lia.
Qed.

Lemma covers_range (c1 c2 : Z) (blk : Block) :
  covers c1 c2 blk = true <-> fst blk <= c1 /\ c2 <= blockEnd blk.
Proof. unfold covers. now rewrite andb_true_iff, !Z.leb_le. Qed.

Lemma contributionOf_shape (c1 c2 : Z) (fm : string * t) :
  contributionOf c1 c2 fm = [] \/ exists y0, contributionOf c1 c2 fm = [y0].
Proof. unfold contributionOf. destruct (pieceOf (snd fm) c1 c2); eauto. Qed.

(** A byte of the flattened image comes from the last contribution to the
    range its address lies in. *)
Lemma holds_flattened_range (maps : list (string * t)) (a : Z) (b : byte) :
  holds (flattenOverlaps (overlapMemoryMaps maps)) a b <->
  exists c1 c2 idbs,
    In (c1, c2) (ranges (sortedCuts maps))
    /\ hd_error (rev (contributions maps c1 c2)) = Some idbs
    /\ byteAt (c1, snd idbs) a = Some b.
Proof.
  unfold flattenOverlaps, overlapMemoryMaps. rewrite holds_flat_map. split.
  - intros [e [Hin H]]. apply in_flat_map in Hin as [[c1 c2] [Hr Hin]].
    unfold overlapRange in Hin. simpl in Hin.
    destruct (contributions maps c1 c2) as [| t0 tl] eqn:Ec; [destruct Hin |].
    destruct Hin as [<- | []]. unfold flattenEntry in H. simpl snd in H.
    destruct (rev (t0 :: tl)) as [| [id bs] rest] eqn:Erev;
      [now apply holds_nil in H |].
    exists c1, c2, (id, bs). split; trivial.
    split; [rewrite Ec, Erev; reflexivity |].
    simpl fst in H. apply holds_cons in H as [H | H];
      [exact H | now apply holds_nil in H].
  - intros (c1 & c2 & [id bs] & Hr & Hhd & Hb).
    destruct (contributions maps c1 c2) as [| t0 tl] eqn:Ec;
      [discriminate Hhd |].
    exists (c1, t0 :: tl). split.
    + apply in_flat_map. exists (c1, c2). split; trivial.
      unfold overlapRange. simpl. rewrite Ec. now left.
    + unfold flattenEntry. simpl snd.
      destruct (rev (t0 :: tl)) as [| [id' bs'] rest]; [discriminate Hhd |].
      simpl in Hhd. injection Hhd as -> ->. apply holds_cons. now left.
Qed.

(** Flattening is a last-writer-wins merge: the flattened image holds, at
    every address, the byte of the last input map that has one there. *)
Theorem flatten_last_writer (maps : list (string * t)) (a : Z) (b : byte) :
  (forall fm, In fm maps -> functional (snd fm)) ->
  holds (flattenOverlaps (overlapMemoryMaps maps)) a b <-> lastWriter maps a b.
Proof.
  intros Hfun. rewrite holds_flattened_range. split.
  - intros (c1 & c2 & [id bs] & Hr & Hhd & Hb).
    destruct (ranges_consecutive _ _ _ (increasing_sortedCuts maps) Hr) as [Hlt Hno].
    unfold contributions in Hhd.
    apply (rev_flat_map_head _ _ _ (contributionOf_shape c1 c2)) in Hhd
      as (pre & fm & suf & E & Hfm & Hsuf).
    exists pre, fm, suf. split; trivial.
    unfold contributionOf, pieceOf in Hfm.
    destruct (find (covers c1 c2) (snd fm)) as [blk |] eqn:Ef; [| discriminate Hfm].
    injection Hfm as _ <-. apply find_some in Ef as [Hin Hc].
    simpl snd in Hb. rewrite (piece_bytes c1 c2 blk a Hc Hlt) in Hb.
    destruct (Z.leb_spec c1 a); [| discriminate Hb].
    destruct (Z.ltb_spec a c2); [| discriminate Hb]. simpl in Hb.
    split; [exists blk; auto |].
    apply Forall_forall. intros fm' Hfm' b' [blk' [Hin' Hb']].
    rewrite Forall_forall in Hsuf. specialize (Hsuf fm' Hfm').
    unfold contributionOf, pieceOf in Hsuf.
    assert (Hmaps : In fm' maps) by (rewrite E; apply in_or_app; right; now right).
    destruct (block_cuts maps fm' blk' Hmaps Hin') as [Hs He].
    pose proof (holder_covers _ c1 c2 a blk' b' Hno Hs He ltac:(lia) Hb') as Hc'.
    destruct (find (covers c1 c2) (snd fm')) as [blk0 |] eqn:Ef'; [discriminate Hsuf |].
    pose proof (find_none _ _ Ef' blk' Hin'). congruence.
  - intros (pre & fm & suf & E & [blk [Hin Hb]] & Hsuf).
    assert (Hmaps : In fm maps) by (rewrite E; apply in_or_app; right; now left).
    destruct (block_cuts maps fm blk Hmaps Hin) as [Hs He].
    pose proof (byteAt_in_block _ _ _ Hb) as Hrange.
    destruct (ranges_cover _ _ _ a (increasing_sortedCuts maps) Hs He Hrange)
      as (c1 & c2 & Hr & Ha).
    destruct (ranges_consecutive _ _ _ (increasing_sortedCuts maps) Hr) as [Hlt Hno].
    pose proof (holder_covers _ c1 c2 a blk b Hno Hs He Ha Hb) as Hc.
    destruct (find (covers c1 c2) (snd fm)) as [blk0 |] eqn:Ef;
      [| pose proof (find_none _ _ Ef blk Hin); congruence].
    pose proof Ef as Ef0. apply find_some in Ef0 as [Hin0 Hc0].
    assert (Hb0 : byteAt blk0 a = Some b).
    { apply covers_range in Hc0 as [H1 H2].
      destruct (byteAt_covered blk0 a ltac:(lia)) as [b0 Hb0].
      rewrite Hb0. f_equal.
      apply (Hfun fm Hmaps a b0 b); [exists blk0 | exists blk]; auto. }
    exists c1, c2,
      (fst fm, firstn (Z.to_nat (c2 - c1)) (skipn (Z.to_nat (c1 - fst blk0)) (snd blk0))).
    split; trivial. split.
    + unfold contributions.
      apply (rev_flat_map_head _ _ _ (contributionOf_shape c1 c2)).
      exists pre, fm, suf. split; trivial. split.
      * unfold contributionOf, pieceOf. now rewrite Ef.
      * apply Forall_forall. intros fm' Hfm'.
        rewrite Forall_forall in Hsuf. specialize (Hsuf fm' Hfm').
        unfold contributionOf, pieceOf.
        destruct (find (covers c1 c2) (snd fm')) as [blk' |] eqn:Ef'; trivial.
        exfalso. apply find_some in Ef' as [Hin' Hc'].
        apply covers_range in Hc' as [H1 H2].
        destruct (byteAt_covered blk' a ltac:(lia)) as [b' Hb'].
        apply (Hsuf b'). exists blk'. auto.
    + simpl snd. rewrite (piece_bytes c1 c2 blk0 a Hc0 Hlt).
      destruct (Z.leb_spec c1 a); [| lia].
      destruct (Z.ltb_spec a c2); [| lia]. exact Hb0.
Qed.

Lemma flatten_last_writer_sample :
  forall a b,
    holds (Jprog.flattenedFiles Samples.conflicting) a b <->
    lastWriter (memMaps (file Samples.conflicting)) a b.
Proof.
  intros a b. apply flatten_last_writer.
  intros fm [<- | [<- | []]] x b1 b2 [blk1 [[<- | []] H1]] [blk2 [[<- | []] H2]];
    congruence.
Qed.

End FlattenFacts.

(** ** [canWrite] and [write] *)

Module JprogFacts.
Import MemoryMap MemoryMapFacts PaginateFacts Jprog Statements.

Lemma byteAt_repeat (s : Z) (x : byte) (n : nat) (a : Z) (b : byte) :
  byteAt (s, repeat x n) a = Some b <-> s <= a < s + Z.of_nat n /\ b = x.
Proof.
  rewrite byteAt_Some. simpl. split.
  - intros [Hle H].
    assert (Hlt : (Z.to_nat (a - s) < length (repeat x n))%nat).
    { apply nth_error_Some. congruence. }
    rewrite repeat_length in Hlt.
    rewrite nth_error_repeat in H by exact Hlt.
    split; [lia | congruence].
  - intros [Hr ->]. split; [lia |].
    apply nth_error_repeat. lia.
Qed.

Lemma holds_blankUicr (a : Z) (b : byte) :
  holds blankUicr a b <-> inUicr a /\ b = xff.
Proof.
  unfold blankUicr. rewrite holds_cons, byteAt_repeat.
  replace (Z.of_nat (Z.to_nat uicrSize)) with uicrSize by reflexivity.
  unfold inUicr. split.
  - intros [H | H]; [exact H | now apply holds_nil in H].
  - auto.
Qed.

Lemma blank_iff (t : MemoryMap.t) :
  contains t blankUicr = true <-> uicrBlank t.
Proof.
  rewrite contains_spec. unfold uicrBlank. split.
  - intros H a Ha. apply H. apply holds_blankUicr. now split.
  - intros H a b Hb. apply holds_blankUicr in Hb as [Ha ->]. now apply H.
Qed.

Lemma unchanged_iff (t flattened : MemoryMap.t) :
  contains t (slice flattened uicrAddr uicrSize) = true <->
  uicrUnchanged t flattened.
Proof. apply contains_spec. Qed.

(** The verdict, when the target has a memory map. *)
Lemma canWrite_present (st : AppState) (t : MemoryMap.t) :
  memMap (target st) = Some t ->
  canWrite st =
  Ok (contains t blankUicr
      || contains t (slice (flattenedFiles st) uicrAddr uicrSize)).
Proof.
  intros E. unfold canWrite. rewrite E.
  destruct (contains t blankUicr); simpl; trivial.
  now destruct (contains t (slice (flattenedFiles st) uicrAddr uicrSize)).
Qed.

Lemma Ok_inj {A : Type} (x y : A) : Ok x = Ok y <-> x = y.
Proof. split; [intros H; now injection H | now intros ->]. Qed.

(** C1.  When the target has a memory map, [canWrite] answers [true]
    exactly when the configuration page [0x10001000, 0x10001400) of the
    target is all [0xFF], or the target holds, with equal values, every
    byte of the flattened file image that falls in that range; in every
    other case it answers [false]. *)
Theorem canWrite_verdict (st : AppState) (t : MemoryMap.t) :
  memMap (target st) = Some t ->
  (canWrite st = Ok true <->
   uicrBlank t \/ uicrUnchanged t (flattenedFiles st))
  /\ (~ (uicrBlank t \/ uicrUnchanged t (flattenedFiles st)) ->
      canWrite st = Ok false).
Proof.
  intros E. rewrite (canWrite_present st t E).
  rewrite <- blank_iff, <- unchanged_iff, Ok_inj, orb_true_iff.
  split; [tauto |].
  intros H. f_equal. apply not_true_is_false. rewrite orb_true_iff. exact H.
Qed.

Lemma canWrite_verdict_witness :
  (canWrite Samples.matching = Ok true <->
   uicrBlank Samples.usedUicr
   \/ uicrUnchanged Samples.usedUicr (flattenedFiles Samples.matching))
  /\ (~ (uicrBlank Samples.usedUicr
         \/ uicrUnchanged Samples.usedUicr (flattenedFiles Samples.matching)) ->
      canWrite Samples.matching = Ok false).
Proof. exact (canWrite_verdict Samples.matching Samples.usedUicr eq_refl). Defined.

(** The three scenarios of the specification. *)
Example canWrite_erased : canWrite Samples.erased = Ok true.
Proof. vm_compute. reflexivity. Qed.

Example canWrite_matching : canWrite Samples.matching = Ok true.
Proof. vm_compute. reflexivity. Qed.

Example canWrite_conflicting : canWrite Samples.conflicting = Ok false.
Proof. vm_compute. reflexivity. Qed.

(** C7, as stated, fails: without a memory map in the target state the
    call of [contains] raises. *)
Lemma canWrite_absent_throws :
  canWrite Samples.absent = Throw TypeError /\ ~ Claimed.canWriteNeverThrows.
Proof.
  split; [reflexivity |].
  intros H. destruct (H Samples.absent) as [verdict Hv]. discriminate Hv.
Qed.

(** C7, amended.  For every application state whose target has a memory
    map, be it empty because nothing has been read, [canWrite] evaluates
    to a definite boolean and raises nothing. *)
Theorem canWrite_total_when_present (st : AppState) (t : MemoryMap.t) :
  memMap (target st) = Some t ->
  exists verdict : bool, canWrite st = Ok verdict.
Proof.
  intros E. rewrite (canWrite_present st t E). eauto.
Qed.

Lemma canWrite_total_when_present_witness :
  exists verdict : bool, canWrite Samples.unread = Ok verdict.
Proof. exact (canWrite_total_when_present Samples.unread [] eq_refl). Defined.

(** [canWrite] raises only when the memory map is missing. *)
Lemma canWrite_throws_iff (st : AppState) (e : JsError) :
  canWrite st = Throw e <-> memMap (target st) = None.
Proof.
  split.
  - intros H. destruct (memMap (target st)) as [t |] eqn:E; trivial.
    rewrite (canWrite_present st t E) in H. discriminate.
  - intros E. unfold canWrite. rewrite E. now destruct e.
Qed.

End JprogFacts.

(** ** The write path *)

Module WriteFacts.
Import MemoryMap MemoryMapFacts PaginateFacts Jprog Statements JprogFacts.

(** [write] on a state in which a device is selected. *)
Lemma write_selected (st : AppState) (serial page : Z) (upToDate : bool) :
  serialNumber (target st) = Some serial ->
  targetPageSize (target st) = Some page ->
  serial <> 0 -> page <> 0 ->
  write st upToDate =
  match canWrite st with
  | Throw e => mkWriteRun [] (Some e)
  | Ok false =>
      mkWriteRun
        [LoggerError
           "Can not write in the current state. Try erasing all non-volatile memory in the target."]
        None
  | Ok true =>
      if upToDate then
        match writePages st page with
        | Some (skipped, pages) =>
            mkWriteRun
              ([CheckUpToDateFiles]
                 ++ (if skipped
                     then [LoggerInfo "Target's UICR is not blank, skipping UICR updates."]
                     else [])
                 ++ [Dispatch WRITE_PROGRESS_START; Program serial pages])
              None
        | None => mkWriteRun [CheckUpToDateFiles] None
        end
      else mkWriteRun [CheckUpToDateFiles] None
  end.
Proof.
  intros Es Ep Hs Hp. unfold write. rewrite Es, Ep.
  destruct (Z.eqb_spec serial 0); [contradiction |].
  destruct (Z.eqb_spec page 0); [contradiction |].
  reflexivity.
Qed.

Lemma writePages_present (st : AppState) (t : MemoryMap.t) (page : Z) :
  memMap (target st) = Some t ->
  writePages st page =
  if contains t blankUicr
  then Some (false, paginate (flattenedFiles st) page)
  else Some (true, slice (paginate (flattenedFiles st) page) 0 uicrAddr).
Proof.
  intros E. unfold writePages. rewrite E. now destruct (contains t blankUicr).
Qed.

(** C2, as stated, fails: file data above the configuration page is paged
    and yet left out of the payload. *)
Lemma payload_drops_data_above_uicr :
  ~ Claimed.payloadSkipsOnlyUicr Samples.withHighData.
Proof.
  intros H.
  assert (Hblank : ~ uicrBlank Samples.usedUicr).
  { rewrite <- blank_iff. vm_compute. discriminate. }
  specialize (H Samples.usedUicr
                (slice (paginate (flattenedFiles Samples.withHighData) 0x1000) 0 uicrAddr)
                0x1000 eq_refl eq_refl Hblank).
  assert (Hcan : canWrite Samples.withHighData = Ok true) by (vm_compute; reflexivity).
  specialize (H Hcan).
  assert (Hsent : transmitted (write Samples.withHighData true) =
                  [slice (paginate (flattenedFiles Samples.withHighData) 0x1000) 0 uicrAddr])
    by (vm_compute; reflexivity).
  specialize (H Hsent 0x10002000 x2a).
  destruct H as [_ H].
  assert (Hin : holds (slice (paginate (flattenedFiles Samples.withHighData) 0x1000) 0 uicrAddr)
                      0x10002000 x2a).
  { apply H. split.
    - apply holdsb_spec. vm_compute. reflexivity.
    - unfold inUicr, uicrAddr, uicrSize. lia. }
  apply holds_slice in Hin as [_ Hrange]. unfold uicrAddr in Hrange. lia.
Qed.

(** C2, amended.  When [canWrite] allows a write and the files are up to
    date, exactly one payload is sent.  If the configuration page of the
    target is not blank, it holds the paginated file data at the
    addresses below [0x10001000] and nothing else: the configuration page
    and everything above it are left out.  If the page is blank, it holds
    all the paginated file data, the configuration-page data included. *)
Theorem write_payload (st : AppState) (t : MemoryMap.t) (serial page : Z) :
  memMap (target st) = Some t ->
  serialNumber (target st) = Some serial ->
  targetPageSize (target st) = Some page ->
  serial <> 0 -> page <> 0 ->
  canWrite st = Ok true ->
  exists payload,
    transmitted (write st true) = [payload]
    /\ forall a b,
         holds payload a b <->
         holds (paginate (flattenedFiles st) page) a b
         /\ (uicrBlank t \/ 0 <= a < uicrAddr).
Proof.
  intros Em Es Ep Hs Hp Hcan.
  rewrite (write_selected st serial page true Es Ep Hs Hp), Hcan.
  rewrite (writePages_present st t page Em).
  destruct (contains t blankUicr) eqn:Eb.
  - exists (paginate (flattenedFiles st) page). split; [reflexivity |].
    apply blank_iff in Eb. intros a b. tauto.
  - exists (slice (paginate (flattenedFiles st) page) 0 uicrAddr).
    split; [reflexivity |].
    assert (Hnb : ~ uicrBlank t).
    { rewrite <- blank_iff. congruence. }
    intros a b. rewrite holds_slice. rewrite Z.add_0_l. tauto.
Qed.

Lemma write_payload_witness :
  exists payload,
    transmitted (write Samples.withHighData true) = [payload]
    /\ forall a b,
         holds payload a b <->
         holds (paginate (flattenedFiles Samples.withHighData) 0x1000) a b
         /\ (uicrBlank Samples.usedUicr \/ 0 <= a < uicrAddr).
Proof.
  apply (write_payload Samples.withHighData Samples.usedUicr 682000001 0x1000);
    try reflexivity; try lia.
Defined.

(** The payload in terms of the flattened file image itself. *)
Lemma write_payload_bytes (st : AppState) (t : MemoryMap.t) (serial page : Z) :
  memMap (target st) = Some t ->
  serialNumber (target st) = Some serial ->
  targetPageSize (target st) = Some page ->
  serial <> 0 -> page <> 0 ->
  canWrite st = Ok true ->
  exists payload,
    transmitted (write st true) = [payload]
    /\ forall a b,
         holds payload a b <->
         holds (flattenedFiles st) a b /\ (uicrBlank t \/ 0 <= a < uicrAddr).
Proof.
  intros Em Es Ep Hs Hp Hcan.
  rewrite (write_selected st serial page true Es Ep Hs Hp), Hcan.
  rewrite (writePages_present st t page Em).
  destruct (contains t blankUicr) eqn:Eb.
  - eexists. split; [reflexivity |].
    apply blank_iff in Eb. intros a b. rewrite holds_paginate. tauto.
  - eexists. split; [reflexivity |].
    assert (Hnb : ~ uicrBlank t).
    { rewrite <- blank_iff. congruence. }
    intros a b. rewrite holds_slice, holds_paginate, Z.add_0_l. tauto.
Qed.

(** C8.  [write] transmits nothing unless [canWrite] has answered [true]:
    when it answers [false], or raises, the run sends no payload,
    dispatches nothing and at most logs an error; and a run that sends a
    payload is a run in which [canWrite] answered [true]. *)
Theorem write_blocked_unless_canWrite (st : AppState) (upToDate : bool) :
  (canWrite st <> Ok true ->
   transmitted (write st upToDate) = []
   /\ forall e, In e (effects (write st upToDate)) -> exists msg, e = LoggerError msg)
  /\ (forall serial pages,
        In (Program serial pages) (effects (write st upToDate)) ->
        canWrite st = Ok true).
Proof.
  unfold write.
  destruct (serialNumber (target st)) as [serial |];
    [destruct (targetPageSize (target st)) as [page |] |].
  - destruct ((serial =? 0) || (page =? 0)).
    + split.
      * intros _. split; [reflexivity |].
        intros e [<- | []]. eauto.
      * intros s p [H | []]. discriminate H.
    + destruct (canWrite st) as [[|] | err].
      * split; [intros H; now contradiction H | trivial].
      * split.
        -- intros _. split; [reflexivity |]. intros e [<- | []]. eauto.
        -- intros s p [H | []]. discriminate H.
      * split.
        -- intros _. split; [reflexivity |]. intros e [].
        -- intros s p [].
  - split.
    + intros _. split; [reflexivity |]. intros e [<- | []]. eauto.
    + intros s p [H | []]. discriminate H.
  - split.
    + intros _. split; [reflexivity |]. intros e [<- | []]. eauto.
    + intros s p [H | []]. discriminate H.
Qed.

Lemma write_blocked_unless_canWrite_witness :
  transmitted (write Samples.conflicting true) = []
  /\ forall e, In e (effects (write Samples.conflicting true)) ->
               exists msg, e = LoggerError msg.
Proof.
  apply (write_blocked_unless_canWrite Samples.conflicting true).
  vm_compute. discriminate.
Defined.

(** In a run that reaches the device the payload is the last effect. *)
Lemma write_program_last (st : AppState) (upToDate : bool) (serial : Z)
      (pages : MemoryMap.t) :
  In (Program serial pages) (effects (write st upToDate)) ->
  exists before,
    effects (write st upToDate) = before ++ [Program serial pages]
    /\ transmitted (mkWriteRun before None) = [].
Proof.
  unfold write.
  destruct (serialNumber (target st)) as [sn |];
    [destruct (targetPageSize (target st)) as [page |] |];
    try (intros [H | []]; discriminate H).
  destruct ((sn =? 0) || (page =? 0)); [intros [H | []]; discriminate H |].
  destruct (canWrite st) as [[|] | err]; try (intros [H | []]; discriminate H);
    [| intros []].
  destruct upToDate; [| intros [H | []]; discriminate H].
  destruct (writePages st page) as [[[|] pg] |]; simpl.
  - intros [H | [H | [H | [H | []]]]]; try discriminate H. injection H as -> ->.
    eexists [_; _; _]. split; reflexivity.
  - intros [H | [H | [H | []]]]; try discriminate H. injection H as -> ->.
    eexists [_; _]. split; reflexivity.
  - intros [H | []]; discriminate H.
Qed.

(** Neither [canWrite] nor [write] reads the device metadata. *)
Lemma metadata_unread (st : AppState) (fam cfgAddress cfgSize : Z) (upToDate : bool) :
  canWrite (withMetadata st fam cfgAddress cfgSize) = canWrite st
  /\ write (withMetadata st fam cfgAddress cfgSize) upToDate = write st upToDate.
Proof. split; reflexivity. Qed.

(** The payloads of a run, when the target has a memory map. *)
Lemma transmitted_cases (st : AppState) (t : MemoryMap.t) (upToDate : bool)
      (payload : MemoryMap.t) :
  memMap (target st) = Some t ->
  In payload (transmitted (write st upToDate)) ->
  exists page,
    targetPageSize (target st) = Some page
    /\ payload = if contains t blankUicr
                 then paginate (flattenedFiles st) page
                 else slice (paginate (flattenedFiles st) page) 0 uicrAddr.
Proof.
  intros Em Hin. unfold write in Hin.
  destruct (serialNumber (target st)) as [serial |]; [| destruct Hin].
  destruct (targetPageSize (target st)) as [page |]; [| destruct Hin].
  destruct ((serial =? 0) || (page =? 0)); [destruct Hin |].
  destruct (canWrite st) as [[|] | err]; try destruct Hin.
  destruct upToDate; [| destruct Hin].
  rewrite (writePages_present st t page Em) in Hin.
  exists page. split; trivial.
  destruct (contains t blankUicr); simpl in Hin;
    destruct Hin as [<- | []]; reflexivity.
Qed.

(** C9, as stated, fails: the range that [write] leaves out is not
    [0x10001000, 0x10001400).  The byte of [high.hex] at [0x10002000]
    lies outside that range and is left out as well. *)
Lemma excluded_range_is_not_the_page :
  ~ Claimed.uicrRangeFixed Samples.withHighData 2 0x20000000 0x800.
Proof.
  intros [_ H].
  assert (Hblank : ~ uicrBlank Samples.usedUicr).
  { rewrite <- blank_iff. vm_compute. discriminate. }
  specialize (H Samples.usedUicr
                (slice (paginate (flattenedFiles Samples.withHighData) 0x1000) 0 uicrAddr)
                0x1000 eq_refl eq_refl Hblank).
  assert (Hsent : In (slice (paginate (flattenedFiles Samples.withHighData) 0x1000)
                            0 uicrAddr)
                     (transmitted (write (withMetadata Samples.withHighData
                                                       2 0x20000000 0x800) true))).
  { left. vm_compute. reflexivity. }
  specialize (H Hsent 0x10002000 x2a).
  assert (Hpaged : holds (paginate (flattenedFiles Samples.withHighData) 0x1000)
                         0x10002000 x2a).
  { apply holdsb_spec. vm_compute. reflexivity. }
  destruct (H Hpaged) as [_ Hback].
  assert (Hin : holds (slice (paginate (flattenedFiles Samples.withHighData) 0x1000)
                             0 uicrAddr) 0x10002000 x2a).
  { apply Hback. lia. }
  apply holds_slice in Hin as [_ Hrange]. unfold uicrAddr in Hrange. lia.
Qed.

(** C9, amended.  The configuration page is hard-coded, for every
    device: a state that differs in the device metadata only gets the
    same verdict from [canWrite] and the same run from [write].  The
    range that [canWrite] checks is [0x10001000, 0x10001400): it answers
    [true] exactly when the target holds [0xFF] at every address of that
    range, or holds every byte that the flattened files have in that
    range.  The range that [write] leaves out, when the target is not
    blank in [0x10001000, 0x10001400), is not that page but everything
    from [0x10001000] up: a payload holds the paged file data at the
    addresses from [0] up to [0x10001000], and nothing else. *)
Theorem uicr_range_hard_coded (st : AppState) (t : MemoryMap.t)
        (fam cfgAddress cfgSize : Z) (upToDate : bool) :
  memMap (target st) = Some t ->
  let st' := withMetadata st fam cfgAddress cfgSize in
  let blank := forall a, 0x10001000 <= a < 0x10001400 -> holds t a xff in
  (canWrite st' = canWrite st /\ write st' upToDate = write st upToDate)
  /\ (canWrite st' = Ok true <->
      blank
      \/ forall a b,
           0x10001000 <= a < 0x10001400 ->
           holds (flattenedFiles st) a b -> holds t a b)
  /\ (forall payload,
        In payload (transmitted (write st' upToDate)) ->
        exists page,
          targetPageSize (target st) = Some page
          /\ forall a b,
               holds payload a b <->
               holds (paginate (flattenedFiles st) page) a b
               /\ (blank \/ 0 <= a < 0x10001000)).
Proof.
  intros Em st' blank.
  destruct (metadata_unread st fam cfgAddress cfgSize upToDate) as [Ec Ew].
  fold st' in Ec, Ew.
  assert (Hblank : uicrBlank t <-> blank).
  { unfold uicrBlank, blank, uicrAddr, uicrSize.
    split; intros H a Ha; apply H; lia. }
  split; [split; assumption |]. rewrite Ec, Ew. split.
  - rewrite (canWrite_present st t Em), Ok_inj, orb_true_iff,
      blank_iff, unchanged_iff, Hblank.
    unfold uicrUnchanged. split; (intros [H | H]; [now left | right]).
    + intros a b Ha Hb. apply H. apply holds_slice. split; [exact Hb |].
      unfold uicrAddr, uicrSize. lia.
    + intros a b Hb. apply holds_slice in Hb as [Hb Ha].
      apply (H a b); [| exact Hb].
      unfold uicrAddr, uicrSize in Ha. lia.
  - intros payload Hin.
    destruct (transmitted_cases st t upToDate payload Em Hin) as (page & Ep & ->).
    exists page. split; trivial. intros a b.
    destruct (contains t blankUicr) eqn:Eb.
    + apply blank_iff in Eb. apply Hblank in Eb. tauto.
    + assert (Hnb : ~ blank).
      { rewrite <- Hblank, <- blank_iff. congruence. }
      rewrite holds_slice, Z.add_0_l. unfold uicrAddr. tauto.
Qed.

Lemma uicr_range_hard_coded_witness :
  let st' := withMetadata Samples.withHighData 2 0x20000000 0x800 in
  let blank := forall a, 0x10001000 <= a < 0x10001400 -> holds Samples.usedUicr a xff in
  (canWrite st' = canWrite Samples.withHighData
   /\ write st' true = write Samples.withHighData true)
  /\ (canWrite st' = Ok true <->
      blank
      \/ forall a b,
           0x10001000 <= a < 0x10001400 ->
           holds (flattenedFiles Samples.withHighData) a b ->
           holds Samples.usedUicr a b)
  /\ (forall payload,
        In payload (transmitted (write st' true)) ->
        exists page,
          targetPageSize (target Samples.withHighData) = Some page
          /\ forall a b,
               holds payload a b <->
               holds (paginate (flattenedFiles Samples.withHighData) page) a b
               /\ (blank \/ 0 <= a < 0x10001000)).
Proof.
  apply (uicr_range_hard_coded Samples.withHighData Samples.usedUicr
                               2 0x20000000 0x800 true).
  reflexivity.
Defined.

(** C10.  [contains] is what the specification says (every byte present
    in the other map is present in this one, at the same address and with
    the same value); it is reflexive, and the empty map is contained in
    every map. *)
Theorem contains_reflexive_and_bottom :
  (forall self other : MemoryMap.t,
      contains self other = true <->
      forall a b, holds other a b -> holds self a b)
  /\ (forall m : MemoryMap.t, contains m m = true)
  /\ (forall m : MemoryMap.t, contains m empty = true).
Proof.
  split; [exact contains_spec |]. split.
  - intros m. apply contains_spec. trivial.
  - intros m. reflexivity.
Qed.

End WriteFacts.

(** ** Facts about immutable lists *)

Module ImmutableFacts.
Import Immutable.

Section ListFacts.
Context {A : Type}.
Variable eqb : A -> A -> bool.
Hypothesis eqb_eq : forall x y, eqb x y = true <-> x = y.

Lemma eqb_refl (x : A) : eqb x x = true.
Proof. now apply eqb_eq. Qed.

(** [find] returns the first element that satisfies the predicate. *)
Lemma find_split (p : A -> bool) (l : list A) (x : A) :
  find p l = Some x ->
  exists pre suf,
    l = pre ++ x :: suf /\ Forall (fun y => p y = false) pre /\ p x = true.
Proof.
  induction l as [| y l IH]; simpl; [discriminate |].
  destruct (p y) eqn:Ey.
  - intros H. injection H as ->. exists [], l. auto.
  - intros H. destruct (IH H) as [pre [suf [-> [Hpre Hx]]]].
    exists (y :: pre), suf. auto.
Qed.

Lemma find_app_first (p : A -> bool) (pre suf : list A) (x : A) :
  Forall (fun y => p y = false) pre -> p x = true ->
  find p (pre ++ x :: suf) = Some x.
Proof.
  intros Hpre Hx. induction Hpre as [| y pre Hy _ IH]; simpl.
  - now rewrite Hx.
  - now rewrite Hy.
Qed.

Lemma indexOfFrom_first (x x' : A) (pre suf : list A) (i : Z) :
  Forall (fun y => eqb x y = false) pre -> eqb x x' = true ->
  indexOfFrom eqb i x (pre ++ x' :: suf) = i + Z.of_nat (length pre).
Proof.
  intros Hpre Hx. revert i.
  induction Hpre as [| y pre Hy _ IH]; intros i; simpl.
  - rewrite Hx. lia.
  - rewrite Hy, IH. lia.
Qed.

(** An element found by a predicate is not equal to the elements the
    search has passed over. *)
Lemma passed_over (p : A -> bool) (x : A) (pre : list A) :
  Forall (fun y => p y = false) pre -> p x = true ->
  Forall (fun y => eqb x y = false) pre.
Proof.
  intros Hpre Hx. apply Forall_impl with (2 := Hpre).
  intros y Hy. destruct (eqb x y) eqn:E; trivial.
  apply eqb_eq in E. subst y. congruence.
Qed.

Lemma indexOf_found (p : A -> bool) (x : A) (pre suf : list A) :
  Forall (fun y => p y = false) pre -> p x = true ->
  indexOf eqb x (pre ++ x :: suf) = Z.of_nat (length pre).
Proof.
  intros Hpre Hx. unfold indexOf.
  rewrite indexOfFrom_first; [lia | | apply eqb_refl].
  now apply passed_over with p.
Qed.

(** The index the source passes to [set] and [remove] is in range. *)
Lemma indexOf_find_inRange (p : A -> bool) (l : list A) (x : A) :
  find p l = Some x -> inRange l (wrapIndex l (indexOf eqb x l)) = true.
Proof.
  intros H. destruct (find_split p l x H) as [pre [suf [-> [Hpre Hx]]]].
  rewrite (indexOf_found p x pre suf Hpre Hx).
  unfold wrapIndex, inRange.
  destruct (Z.ltb_spec (Z.of_nat (length pre)) 0); [lia |].
  rewrite length_app. simpl.
  apply andb_true_iff. split; [apply Z.leb_le | apply Z.ltb_lt]; lia.
Qed.

Lemma replaceNth_length (pre suf : list A) (x v : A) :
  replaceNth (length pre) v (pre ++ x :: suf) = pre ++ v :: suf.
Proof. induction pre as [| y pre IH]; simpl; [trivial | now rewrite IH]. Qed.

Lemma removeNth_length (pre suf : list A) (x : A) :
  removeNth (length pre) (pre ++ x :: suf) = pre ++ suf.
Proof. induction pre as [| y pre IH]; simpl; [trivial | now rewrite IH]. Qed.

Lemma inRange_middle (pre suf : list A) (x : A) :
  inRange (pre ++ x :: suf)
          (wrapIndex (pre ++ x :: suf) (Z.of_nat (length pre))) = true
  /\ wrapIndex (pre ++ x :: suf) (Z.of_nat (length pre)) = Z.of_nat (length pre).
Proof.
  unfold wrapIndex, inRange.
  destruct (Z.ltb_spec (Z.of_nat (length pre)) 0); [lia |].
  split; trivial. rewrite length_app. simpl.
  apply andb_true_iff. split; [apply Z.leb_le | apply Z.ltb_lt]; lia.
Qed.

Lemma set_middle (pre suf : list A) (x v : A) :
  set (pre ++ x :: suf) (Z.of_nat (length pre)) v = pre ++ v :: suf.
Proof.
  unfold set. destruct (inRange_middle pre suf x) as [-> ->].
  rewrite Nat2Z.id. apply replaceNth_length.
Qed.

Lemma remove_middle (pre suf : list A) (x : A) :
  remove (pre ++ x :: suf) (Z.of_nat (length pre)) = pre ++ suf.
Proof.
  unfold remove. destruct (inRange_middle pre suf x) as [-> ->].
  rewrite Nat2Z.id. apply removeNth_length.
Qed.

(** [list.set(list.indexOf(x), v)] for an [x] that [find] returned. *)
Lemma set_found (p : A -> bool) (x v : A) (pre suf : list A) :
  Forall (fun y => p y = false) pre -> p x = true ->
  set (pre ++ x :: suf) (indexOf eqb x (pre ++ x :: suf)) v = pre ++ v :: suf.
Proof.
  intros Hpre Hx. rewrite (indexOf_found p x pre suf Hpre Hx).
  apply set_middle.
Qed.

(** The removal loop drops exactly the elements that satisfy the
    predicate and keeps the others in order. *)
Lemma removeEach_loop (p : A -> bool) (todo kept : list A) :
  Forall (fun y => p y = false) kept ->
  fold_left (removeStep eqb p) todo (kept ++ todo) =
  kept ++ filter (fun y => negb (p y)) todo.
Proof.
  revert kept. induction todo as [| r todo IH]; intros kept Hkept; simpl.
  - reflexivity.
  - unfold removeStep at 2. destruct (p r) eqn:Er; simpl.
    + rewrite (indexOf_found p r kept todo Hkept Er), remove_middle.
      now apply IH.
    + replace (kept ++ r :: todo) with ((kept ++ [r]) ++ todo)
        by (rewrite <- app_assoc; reflexivity).
      rewrite IH.
      * rewrite <- app_assoc. reflexivity.
      * apply Forall_app. split; trivial. constructor; trivial.
  Qed.

Lemma removeEach_filter (p : A -> bool) (l : list A) :
  removeEach eqb p l = filter (fun y => negb (p y)) l.
Proof. apply (removeEach_loop p l []). constructor. Qed.
End ListFacts.

End ImmutableFacts.

(** ** Facts about regions *)

Module RegionFacts.

Lemma RegionName_eqb_eq (a b : RegionName) : RegionName_eqb a b = true <-> a = b.
Proof. destruct a, b; simpl; split; congruence. Qed.

Lemma RegionColor_eqb_eq (a b : RegionColor) : RegionColor_eqb a b = true <-> a = b.
Proof. destruct a, b; simpl; split; congruence. Qed.

Lemma strings_eqb_eq (a b : list string) : strings_eqb a b = true <-> a = b.
Proof.
  revert b. induction a as [| x a IH]; intros [| y b]; simpl;
    try (split; congruence).
  rewrite andb_true_iff, String.eqb_eq, IH. split.
  - intros [-> ->]. reflexivity.
  - intros H. injection H as -> ->. auto.
Qed.

Lemma Region_eqb_eq (a b : Region) : Region_eqb a b = true <-> a = b.
Proof.
  unfold Region_eqb.
  rewrite !andb_true_iff, RegionName_eqb_eq, RegionColor_eqb_eq,
    strings_eqb_eq, !Z.eqb_eq.
  destruct a, b; simpl. split.
  - intros [[[[-> ->] ->] ->] ->]. reflexivity.
  - intros H. injection H as -> -> -> -> ->. auto.
Qed.

Lemma hasName_iff (n : RegionName) (r : Region) : hasName n r = true <-> name r = n.
Proof. apply RegionName_eqb_eq. Qed.

Lemma hasName_false (n : RegionName) (r : Region) : hasName n r = false <-> name r <> n.
Proof.
  rewrite <- hasName_iff. destruct (hasName n r); split; congruence.
Qed.

End RegionFacts.

(** ** The region thunks *)

Module ThunkFacts.
Import Immutable ImmutableFacts RegionFacts FileActions Statements.

Lemma find_filter {A : Type} (p q : A -> bool) (l : list A) :
  (forall x, p x = true -> q x = true) ->
  find p (filter q l) = find p l.
Proof.
  intros Hpq. induction l as [| y l IH]; simpl; trivial.
  destruct (q y) eqn:Eq; simpl.
  - now rewrite IH.
  - destruct (p y) eqn:Ep; trivial. apply Hpq in Ep. congruence.
Qed.

Lemma find_exists {A : Type} (p : A -> bool) (l : list A) (x : A) :
  In x l -> p x = true -> exists y, find p l = Some y /\ p y = true.
Proof.
  intros Hin Hp. destruct (find p l) as [y |] eqn:E.
  - exists y. split; trivial. now apply find_some in E.
  - pose proof (find_none p l E x Hin). congruence.
Qed.

(** The state after a run holds the last region list dispatched. *)
Lemma regions_fold (acts : list Action) (st : AppState) :
  regions (file (fold_left appReducer acts st)) =
  lastKnown acts (regions (file st)).
Proof.
  unfold lastKnown. revert st.
  induction acts as [| a acts IH]; intros st; simpl; trivial.
  rewrite IH. now destruct a.
Qed.

Lemma finalRegions_lastKnown (st : AppState) (run : ThunkRun) :
  finalRegions st run = lastKnown (dispatched run) (regions (file st)).
Proof. apply regions_fold. Qed.

(** *** [updateFileBlRegion] *)

(** The end address the sweep returns is the end of an unlabelled region
    that starts above the bootloader and ends below the ROM size. *)
Lemma blSweep_gap (bl : Region) (rom : Z) (rs : list Region) (acc : option Z) (e : Z) :
  fold_left (blSweepStep bl rom) rs acc = Some e ->
  acc = Some e
  \/ exists r, In r rs /\ name r = NONE /\ startAddress bl < startAddress r
               /\ regionEnd r < rom /\ e = regionEnd r.
Proof.
  revert acc. induction rs as [| r rs IH]; intros acc; simpl.
  - auto.
  - intros H. apply IH in H as [H | [r' [Hin H]]].
    + unfold blSweepStep in H.
      destruct (hasName NONE r) eqn:En; simpl in H; auto.
      destruct (Z.ltb_spec (startAddress bl) (startAddress r)); simpl in H; auto.
      destruct (Z.ltb_spec (startAddress r + regionSize r) rom); simpl in H; auto.
      destruct (falsy acc
                || match acc with Some e0 => e0 <=? startAddress r | None => false end);
        auto.
      right. exists r. apply hasName_iff in En. unfold regionEnd.
      injection H as <-. auto 6.
    + right. exists r'. auto.
Qed.

(** What [updateFileBlRegion] dispatches when a gap has been found: the
    list without any unlabelled region, the bootloader being resized. *)
Lemma updateFileBlRegion_merged (st : AppState) (bl : Region) (e : Z) :
  find (hasName BOOTLOADER) (regions (file st)) = Some bl ->
  blSweep bl (romSize (deviceInfo (target st))) (regions (file st)) = Some e ->
  exists pre suf,
    filter labelled (regions (file st)) = pre ++ bl :: suf
    /\ Forall (fun y => hasName BOOTLOADER y = false) pre
    /\ updateFileBlRegion st =
       mkThunkRun
         [FILE_REGIONS_KNOWN (pre ++ set_regionSize bl (e - startAddress bl) :: suf)]
         None.
Proof.
  intros Hbl He. unfold updateFileBlRegion. rewrite Hbl, He.
  unfold FileActions.removeEach. rewrite (removeEach_filter Region_eqb Region_eqb_eq).
  assert (Hf : find (hasName BOOTLOADER) (filter labelled (regions (file st))) = Some bl).
  { rewrite find_filter; trivial.
    intros x Hx. unfold labelled. apply hasName_iff in Hx.
    unfold hasName. now rewrite Hx. }
  destruct (find_split _ _ _ Hf) as [pre [suf [E [Hpre Hx]]]].
  exists pre, suf. split; [exact E |]. split; [exact Hpre |].
  unfold labelled in E. rewrite E. unfold FileActions.indexOf.
  now rewrite (set_found Region_eqb Region_eqb_eq (hasName BOOTLOADER)).
Qed.

Lemma updateFileBlRegion_never_throws (st : AppState) :
  thrown (updateFileBlRegion st) = None.
Proof.
  unfold updateFileBlRegion.
  destruct (find (hasName BOOTLOADER) (regions (file st))) as [bl |]; trivial.
  now destruct (blSweep bl (romSize (deviceInfo (target st))) (regions (file st))).
Qed.

(** Scenario 5 of the specification. *)
Example bootloader_coalesced :
  finalRegions Samples.bootloaderGaps (updateFileBlRegion Samples.bootloaderGaps) =
  [Samples.region BOOTLOADER 0x70000 0x74000].
Proof. reflexivity. Qed.

(** C3.  The code at the failing input: the bootloader is merged with the
    gap that follows it, and the unlabelled region at [0x1000, 0x2000),
    which lies below the bootloader, has been removed from the list as
    well. *)
Theorem bootloader_merge_removes_low_region :
  In (Samples.region NONE 0x1000 0x2000) (regions (file Samples.bootloaderAndLowData))
  /\ finalRegions Samples.bootloaderAndLowData
                  (updateFileBlRegion Samples.bootloaderAndLowData)
     = [Samples.region BOOTLOADER 0x70000 0x72000].
Proof. split; [left; reflexivity | reflexivity]. Qed.

End ThunkFacts.

(** ** [updateFileAppRegions] *)

Module AppRegionFacts.
Import Immutable ImmutableFacts RegionFacts FileActions Statements ThunkFacts.

(** The quotient the source rounds up with [Math.ceil]. *)
Lemma ceil_quotient (x page : Z) :
  0 < page -> - ((- x) / page) = (x + page - 1) / page.
Proof.
  intros Hp.
  pose proof (Z.div_mod (x + page - 1) page ltac:(lia)) as E.
  pose proof (Z.mod_pos_bound (x + page - 1) page Hp) as B.
  rewrite <- (Z.div_unique (- x) page (- ((x + page - 1) / page))
                           (page - 1 - (x + page - 1) mod page)); lia.
Qed.


Lemma appBoundary_pageCeil (x page extra : Z) :
  0 < page ->
  appBoundary x page extra = Some (pageCeil x page + extra * page).
Proof.
  intros Hp. unfold appBoundary, pageCeil.
  destruct (Z.eqb_spec page 0); [lia |].
  rewrite (ceil_quotient x page Hp). f_equal. ring.
Qed.

Lemma appBoundary_zero_page (x extra : Z) : appBoundary x 0 extra = None.
Proof. reflexivity. Qed.

(** The region the source picks starts at the boundary, or one page
    further when no region starts at the boundary. *)
Lemma findAppRegion_found (rs : list Region) (x page : Z) (r : Region) :
  0 < page ->
  In r rs ->
  startAddress r = pageCeil x page
  \/ (startAddress r = pageCeil x page + page
      /\ forall q, In q rs -> startAddress q <> pageCeil x page) ->
  exists r0 pre suf,
    findAppRegion rs x page = Some r0
    /\ startAddress r0 = startAddress r
    /\ rs = pre ++ r0 :: suf
    /\ Forall (fun y => startAddress y <> startAddress r) pre
    /\ indexOf r0 rs = Z.of_nat (length pre).
Proof.
  intros Hp Hin Hstart. unfold findAppRegion.
  rewrite !(appBoundary_pageCeil x page _ Hp), Z.mul_0_l, Z.add_0_r, Z.mul_1_l.
  assert (Hsplit : forall b q0,
             find (startsAt (Some b)) rs = Some q0 -> startAddress r = b ->
             exists pre suf,
               startAddress q0 = startAddress r /\ rs = pre ++ q0 :: suf
               /\ Forall (fun y => startAddress y <> startAddress r) pre
               /\ indexOf q0 rs = Z.of_nat (length pre)).
  { intros b q0 Hf Hb.
    destruct (find_split _ _ _ Hf) as [pre [suf [E [Hpre Hq]]]].
    exists pre, suf. pose proof Hq as Hq'. simpl in Hq'. apply Z.eqb_eq in Hq'.
    split; [congruence |]. split; [exact E |]. split.
    - apply Forall_impl with (2 := Hpre). intros y Hy. simpl in Hy.
      apply Z.eqb_neq in Hy. congruence.
    - rewrite E. unfold indexOf.
      now apply (indexOf_found Region_eqb Region_eqb_eq (startsAt (Some b))). }
  destruct Hstart as [Hb | [Hb Hnone]].
  - destruct (find_exists (startsAt (Some (pageCeil x page))) rs r Hin) as [y [Hy _]].
    { simpl. now apply Z.eqb_eq. }
    rewrite Hy. destruct (Hsplit _ _ Hy Hb) as [pre [suf H]].
    exists y, pre, suf. tauto.
  - destruct (find (startsAt (Some (pageCeil x page))) rs) as [y |] eqn:Ey.
    + apply find_some in Ey as [Hy1 Hy2]. simpl in Hy2. apply Z.eqb_eq in Hy2.
      now apply Hnone in Hy1.
    + destruct (find_exists (startsAt (Some (pageCeil x page + page))) rs r Hin)
        as [y [Hy _]].
      { simpl. now apply Z.eqb_eq. }
      rewrite Hy. destruct (Hsplit _ _ Hy Hb) as [pre [suf H]].
      exists y, pre, suf. tauto.
Qed.

(** Each of the first two blocks either leaves the list alone and
    dispatches nothing, or dispatches the list it has built. *)
Lemma labelApp_shape (rs : list Region) (fsd tsd : option Region) (page : Z) :
  labelApp rs fsd tsd page = (rs, [])
  \/ exists rs1, labelApp rs fsd tsd page = (rs1, [FILE_REGIONS_KNOWN rs1]).
Proof.
  unfold labelApp. destruct fsd, tsd as [sd |]; auto.
  destruct (findAppRegion rs (startAddress sd + regionSize sd) page); eauto.
Qed.

Lemma unlabelApp_shape (rs : list Region) (fsd tsd : option Region) :
  unlabelApp rs fsd tsd = (rs, [])
  \/ exists rs1, unlabelApp rs fsd tsd = (rs1, [FILE_REGIONS_KNOWN rs1]).
Proof.
  unfold unlabelApp. destruct fsd, tsd; auto.
  destruct (find (hasName APPLICATION) rs) as [r |]; auto.
  destruct (negb (startAddress r =? softDeviceMagicStart)); eauto.
Qed.

(** The merge either dispatches nothing, or dispatches the kept regions
    with the first application resized. *)
Lemma mergeApp_cases (rs : list Region) (tbl : option Region) (sw : Sweep) :
  fst (mergeApp rs tbl sw) = []
  \/ exists bl s e a pre suf,
       tbl = Some bl /\ appStartAddress sw = Some s /\ appEndAddress sw = Some e
       /\ filter (keptBelow bl) rs = pre ++ a :: suf
       /\ Forall (fun y => hasName APPLICATION y = false) pre
       /\ hasName APPLICATION a = true
       /\ mergeApp rs tbl sw =
          ([FILE_REGIONS_KNOWN
              (pre ++ set_color (set_regionSize a (e - s)) ColorAPPLICATION :: suf)],
           None).
Proof.
  unfold mergeApp.
  destruct tbl as [bl |]; [| now left].
  destruct (appStartAddress sw) as [s |]; [| now left].
  destruct (appEndAddress sw) as [e |]; [| now left].
  unfold FileActions.removeEach. rewrite (removeEach_filter Region_eqb Region_eqb_eq).
  fold (keptBelow bl).
  destruct (find (hasName APPLICATION) (filter (keptBelow bl) rs)) as [a |] eqn:Ef;
    [| now left].
  right. destruct (find_split _ _ _ Ef) as [pre [suf [E [Hpre Ha]]]].
  exists bl, s, e, a, pre, suf. repeat (split; trivial).
  rewrite E. unfold FileActions.indexOf.
  now rewrite (set_found Region_eqb Region_eqb_eq (hasName APPLICATION)).
Qed.

(** The region list in the store once the thunk has run. *)
Lemma updateFileAppRegions_final (st : AppState) :
  let rs := regions (file st) in
  let fsd := find (hasName SOFTDEVICE) rs in
  let tsd := find (hasName SOFTDEVICE) (targetRegions (target st)) in
  let tbl := find (hasName BOOTLOADER) (targetRegions (target st)) in
  let rs1 := fst (labelApp rs fsd tsd (pageSize (deviceInfo (target st)))) in
  let rs2 := fst (unlabelApp rs1 fsd tsd) in
  finalRegions st (updateFileAppRegions st) =
  match fst (mergeApp rs2 tbl (appSweep tbl rs2)) with
  | FILE_REGIONS_KNOWN x :: _ => x
  | _ => rs2
  end.
Proof.
  intros rs fsd tsd tbl rs1 rs2.
  rewrite finalRegions_lastKnown. unfold updateFileAppRegions.
  fold rs fsd tsd tbl.
  subst rs2 rs1.
  destruct (labelApp_shape rs fsd tsd (pageSize (deviceInfo (target st))))
    as [E1 | [rs1 E1]]; rewrite E1; simpl;
    [destruct (unlabelApp_shape rs fsd tsd) as [E2 | [rs2 E2]]
    | destruct (unlabelApp_shape rs1 fsd tsd) as [E2 | [rs2 E2]]];
    rewrite E2; simpl;
    match goal with
    | |- context [mergeApp ?l ?b ?s] =>
        destruct (mergeApp_cases l b s)
          as [Em | (bl & s0 & e & a & pre & suf & _ & _ & _ & _ & _ & _ & Em)];
        [destruct (mergeApp l b s) as [out3 err]; simpl in Em; subst out3
        | rewrite Em]
    end; reflexivity.
Qed.

(** A region labelled APPLICATION keeps its label and its start address
    through the merge. *)
Lemma application_survives_merge (rs : list Region) (tbl : option Region)
      (sw : Sweep) (r : Region) :
  In r rs -> isApplication r ->
  exists r',
    In r' (match fst (mergeApp rs tbl sw) with
           | FILE_REGIONS_KNOWN x :: _ => x
           | _ => rs
           end)
    /\ isApplication r' /\ startAddress r' = startAddress r.
Proof.
  intros Hin Happ.
  destruct (mergeApp_cases rs tbl sw)
    as [Em | (bl & s0 & e & a & pre & suf & _ & _ & _ & Ef & _ & Ha & Em)].
  - rewrite Em. eauto.
  - rewrite Em. simpl.
    assert (Hk : In r (pre ++ a :: suf)).
    { rewrite <- Ef. apply filter_In. split; trivial.
      unfold keptBelow, hasName. unfold isApplication in Happ. now rewrite Happ. }
    apply in_app_or in Hk as [Hk | [Hk | Hk]].
    + exists r. split; [apply in_or_app; now left | auto].
    + subst a. exists (set_color (set_regionSize r (e - s0)) ColorAPPLICATION).
      split; [apply in_or_app; right; now left | auto].
    + exists r. split; [apply in_or_app; right; now right | auto].
Qed.

(** Without an application region the sweep finds no application start. *)
Lemma appSweep_no_application (tbl : option Region) (rs : list Region) (acc : Sweep) :
  Forall (fun y => hasName APPLICATION y = false) rs ->
  appStartAddress (fold_left (appSweepStep tbl) rs acc) = appStartAddress acc.
Proof.
  intros H. revert acc. induction H as [| r rs Hr _ IH]; intros acc; simpl; trivial.
  rewrite IH. unfold appSweepStep. simpl. now rewrite Hr.
Qed.

Lemma appSweep_application (tbl : option Region) (rs : list Region) (acc : Sweep) (s : Z) :
  appStartAddress (fold_left (appSweepStep tbl) rs acc) = Some s ->
  appStartAddress acc = Some s \/ exists r, In r rs /\ isApplication r.
Proof.
  revert acc. induction rs as [| r rs IH]; intros acc; simpl; auto.
  intros H. apply IH in H as [H | [r' [Hin H]]]; eauto.
  unfold appSweepStep in H. simpl in H.
  destruct (hasName APPLICATION r) eqn:E; auto.
  right. exists r. split; [now left | now apply hasName_iff].
Qed.

(** The thunk never raises: when the merge runs, an application region is
    there for it to resize. *)
Lemma updateFileAppRegions_never_throws (st : AppState) :
  thrown (updateFileAppRegions st) = None.
Proof.
  unfold updateFileAppRegions.
  destruct (labelApp _ _ _ _) as [rs1 out1].
  destruct (unlabelApp _ _ _) as [rs2 out2].
  destruct (mergeApp _ _ _) as [out3 err] eqn:Em. simpl.
  unfold mergeApp in Em.
  destruct (find (hasName BOOTLOADER) (targetRegions (target st))) as [bl |];
    [| now injection Em as _ <-].
  destruct (appStartAddress _) as [s |] eqn:Es; [| now injection Em as _ <-].
  destruct (appEndAddress _) as [e |]; [| now injection Em as _ <-].
  unfold FileActions.removeEach in Em.
  rewrite (removeEach_filter Region_eqb Region_eqb_eq) in Em.
  apply appSweep_application in Es as [Es | [r [Hin Hr]]]; [discriminate Es |].
  destruct (find_exists (hasName APPLICATION)
              (filter (fun y => negb (hasName NONE y && (startAddress y <? startAddress bl))) rs2) r)
    as [y [Hy _]].
  - apply filter_In. split; trivial. unfold hasName. unfold isApplication in Hr.
    now rewrite Hr.
  - now apply hasName_iff.
  - rewrite Hy in Em. now injection Em as _ <-.
Qed.

End AppRegionFacts.

(** ** Application inference and coalescing *)

Module AppRegionClaims.
Import Immutable ImmutableFacts RegionFacts FileActions Statements ThunkFacts
       AppRegionFacts.

Lemma asApplication_is (r : Region) :
  isApplication (asApplication r) /\ startAddress (asApplication r) = startAddress r.
Proof. split; reflexivity. Qed.

(** The inference of the thunk, from the SoftDevice of the target.  If
    no SoftDevice region is identified in the file image and one is
    identified in the target's regions, then the first file region that
    starts at the SoftDevice's end rounded up to the next page boundary,
    or, when no region starts there, the first one that starts one page
    further, is relabelled APPLICATION: the thunk dispatches the list
    with that region relabelled, and the final list holds an APPLICATION
    region at that start address. *)
Lemma application_inferred_from_target (st : AppState) (sd r : Region) :
  let rs := regions (file st) in
  let page := pageSize (deviceInfo (target st)) in
  find (hasName SOFTDEVICE) rs = None ->
  find (hasName SOFTDEVICE) (targetRegions (target st)) = Some sd ->
  0 < page ->
  In r rs ->
  startAddress r = pageCeil (regionEnd sd) page
  \/ (startAddress r = pageCeil (regionEnd sd) page + page
      /\ forall q, In q rs -> startAddress q <> pageCeil (regionEnd sd) page) ->
  exists pre r0 suf,
    rs = pre ++ r0 :: suf
    /\ Forall (fun y => startAddress y <> startAddress r) pre
    /\ startAddress r0 = startAddress r
    /\ hd_error (dispatched (updateFileAppRegions st))
       = Some (FILE_REGIONS_KNOWN (pre ++ asApplication r0 :: suf))
    /\ exists r',
         In r' (finalRegions st (updateFileAppRegions st))
         /\ isApplication r' /\ startAddress r' = startAddress r.
Proof.
  intros rs page Hfsd Htsd Hp Hin Hstart.
  destruct (findAppRegion_found rs (regionEnd sd) page r Hp Hin Hstart)
    as (r0 & pre & suf & Hfind & Hr0 & E & Hpre & Hidx).
  assert (Hlabel : labelApp rs None (Some sd) page =
                   (pre ++ asApplication r0 :: suf,
                    [FILE_REGIONS_KNOWN (pre ++ asApplication r0 :: suf)])).
  { unfold labelApp. fold (regionEnd sd). rewrite Hfind. cbv zeta.
    fold (asApplication r0). rewrite Hidx, E, set_middle. reflexivity. }
  exists pre, r0, suf. repeat (split; trivial).
  - unfold updateFileAppRegions. fold rs page. rewrite Hfsd, Htsd, Hlabel.
    simpl. now destruct (mergeApp _ _ _).
  - rewrite updateFileAppRegions_final. fold rs page.
    rewrite Hfsd, Htsd, Hlabel. simpl.
    destruct (application_survives_merge
                (pre ++ asApplication r0 :: suf)
                (find (hasName BOOTLOADER) (targetRegions (target st)))
                (appSweep (find (hasName BOOTLOADER) (targetRegions (target st)))
                          (pre ++ asApplication r0 :: suf))
                (asApplication r0))
      as (r' & Hin' & Happ & Hs).
    + apply in_or_app. right. now left.
    + reflexivity.
    + exists r'. repeat (split; trivial). simpl in Hs. congruence.
Qed.

(** The SoftDevice of the target ends at [0x26000], with pages of
    [0x1000] bytes. *)
Lemma application_inferred_from_target_sample :
  exists pre r0 suf,
    regions (file Samples.appOnTargetSoftDevice) = pre ++ r0 :: suf
    /\ Forall (fun y => startAddress y <> 0x26000) pre
    /\ startAddress r0 = 0x26000
    /\ hd_error (dispatched (updateFileAppRegions Samples.appOnTargetSoftDevice))
       = Some (FILE_REGIONS_KNOWN (pre ++ asApplication r0 :: suf))
    /\ exists r',
         In r' (finalRegions Samples.appOnTargetSoftDevice
                             (updateFileAppRegions Samples.appOnTargetSoftDevice))
         /\ isApplication r' /\ startAddress r' = 0x26000.
Proof.
  apply (application_inferred_from_target
           Samples.appOnTargetSoftDevice
           (Samples.region SOFTDEVICE 0x1000 0x26000)
           (Samples.region NONE 0x26000 0x27000)).
  - reflexivity.
  - reflexivity.
  - reflexivity.
  - left. reflexivity.
  - left. reflexivity.
Defined.

(** With a SoftDevice region in the file image the first two blocks of
    the thunk relabel nothing. *)
Lemma softdevice_in_file_no_relabel (rs : list Region) (fsd : Region)
      (tsd : option Region) (page : Z) :
  labelApp rs (Some fsd) tsd page = (rs, [])
  /\ unlabelApp rs (Some fsd) tsd = (rs, []).
Proof. split; reflexivity. Qed.






(** The same two regions through the classifier and the thunk. *)
Example scenario_4_in_file :
  finalRegions (classifiedFile Samples.appOnFileSoftDevice)
               (updateFileAppRegions (classifiedFile Samples.appOnFileSoftDevice))
  = [Samples.region SOFTDEVICE 0x1000 0x26000;
     Samples.region APPLICATION 0x26000 0x27000].
Proof. reflexivity. Qed.


(** C5, as stated, fails: of two APPLICATION regions only the first is
    looked at. *)
Lemma second_application_keeps_label :
  ~ Claimed.appDowngraded Samples.twoApplications.
Proof.
  intros H.
  specialize (H eq_refl eq_refl (Samples.region APPLICATION 0x30000 0x31000)).
  assert (Hs : startAddress (Samples.region APPLICATION 0x30000 0x31000) =
               softDeviceMagicStart).
  { apply H; [right; left; reflexivity | reflexivity]. }
  discriminate Hs.
Qed.

(** C5, amended.  For every region list with a single region labelled
    APPLICATION, where neither the file image nor the target has a
    SoftDevice region: that region is relabelled NONE, the rest of the
    list being unchanged, unless its start address is [0x1000]; a region
    that starts at [0x1000] keeps its label. *)
Theorem lone_application_downgraded (st : AppState) (pre suf : list Region)
        (r : Region) :
  find (hasName SOFTDEVICE) (regions (file st)) = None ->
  find (hasName SOFTDEVICE) (targetRegions (target st)) = None ->
  regions (file st) = pre ++ r :: suf ->
  Forall (fun y => hasName APPLICATION y = false) pre ->
  Forall (fun y => hasName APPLICATION y = false) suf ->
  isApplication r ->
  (startAddress r <> 0x1000 ->
   finalRegions st (updateFileAppRegions st) = pre ++ asNone r :: suf)
  /\ (startAddress r = 0x1000 ->
      exists r',
        In r' (finalRegions st (updateFileAppRegions st))
        /\ isApplication r' /\ startAddress r' = 0x1000).
Proof.
  intros Hfsd Htsd E Hpre Hsuf Happ.
  assert (Hr : hasName APPLICATION r = true) by now apply hasName_iff.
  assert (Hfind : find (hasName APPLICATION) (pre ++ r :: suf) = Some r)
    by now apply find_app_first.
  rewrite updateFileAppRegions_final. rewrite Hfsd, Htsd, E. simpl.
  unfold unlabelApp. rewrite Hfind. change softDeviceMagicStart with 0x1000.
  split; intros Hs.
  - destruct (Z.eqb_spec (startAddress r) 0x1000) as [| _]; [contradiction |].
    simpl. fold (asNone r). unfold FileActions.indexOf.
    rewrite (set_found Region_eqb Region_eqb_eq (hasName APPLICATION)) by trivial.
    assert (Hnone : appStartAddress
                      (appSweep (find (hasName BOOTLOADER) (targetRegions (target st)))
                                (pre ++ asNone r :: suf)) = None).
    { unfold appSweep. rewrite appSweep_no_application; trivial.
      apply Forall_app. split; trivial. constructor; trivial. }
    unfold mergeApp. rewrite Hnone.
    now destruct (find (hasName BOOTLOADER) (targetRegions (target st))).
  - destruct (Z.eqb_spec (startAddress r) 0x1000) as [_ |]; [| contradiction].
    simpl.
    destruct (application_survives_merge
                (pre ++ r :: suf)
                (find (hasName BOOTLOADER) (targetRegions (target st)))
                (appSweep (find (hasName BOOTLOADER) (targetRegions (target st)))
                          (pre ++ r :: suf)) r)
      as (r' & Hin' & Happ' & Hs'); trivial.
    + apply in_or_app. right. now left.
    + exists r'. repeat (split; trivial). congruence.
Qed.

Lemma lone_application_downgraded_witness :
  (startAddress (Samples.region APPLICATION 0x30000 0x31000) <> 0x1000 ->
   finalRegions Samples.strayApplication (updateFileAppRegions Samples.strayApplication)
   = [Samples.region MBR 0x0 0x1000]
       ++ asNone (Samples.region APPLICATION 0x30000 0x31000) :: [])
  /\ (startAddress (Samples.region APPLICATION 0x30000 0x31000) = 0x1000 ->
      exists r',
        In r' (finalRegions Samples.strayApplication
                            (updateFileAppRegions Samples.strayApplication))
        /\ isApplication r' /\ startAddress r' = 0x1000).
Proof.
  apply (lone_application_downgraded Samples.strayApplication).
  - reflexivity.
  - reflexivity.
  - reflexivity.
  - repeat constructor.
  - constructor.
  - reflexivity.
Defined.

(** The end address the application sweep returns is the end of an
    unlabelled region that starts below the bootloader of the target. *)
Lemma appSweep_gap (bl : Region) (rs : list Region) (acc : Sweep) (e : Z) :
  appEndAddress (fold_left (appSweepStep (Some bl)) rs acc) = Some e ->
  appEndAddress acc = Some e
  \/ exists r, In r rs /\ name r = NONE /\ startAddress r < startAddress bl
               /\ e = regionEnd r.
Proof.
  revert acc. induction rs as [| r rs IH]; intros acc; simpl; auto.
  intros H. apply IH in H as [H | [r' [Hin H]]]; [| right; exists r'; tauto].
  unfold appSweepStep in H. simpl in H.
  destruct (hasName NONE r) eqn:En; simpl in H; auto.
  destruct (Z.ltb_spec (startAddress r) (startAddress bl)); simpl in H; auto.
  destruct (falsy (appEndAddress acc)
            || match appEndAddress acc with
               | Some e0 => e0 <=? startAddress r
               | None => false
               end); auto.
  right. exists r. apply hasName_iff in En. unfold regionEnd.
  injection H as <-. auto.
Qed.

(** An application with an unlabelled block above it: the block is folded
    into the application. *)
Example application_coalesced :
  finalRegions Samples.appWithGap (updateFileAppRegions Samples.appWithGap) =
  [Samples.region APPLICATION 0x26000 0x29000].
Proof. reflexivity. Qed.

(** C6.  The code at the failing input: the unlabelled region at
    [0x10000, 0x11000) lies below the application, which starts at
    [0x26000]; it is folded all the same, and the size of the application
    becomes [0x11000 - 0x26000], a negative number. *)
Theorem application_merge_folds_region_below :
  regions (file Samples.appAboveLowData)
  = [Samples.region NONE 0x10000 0x11000; Samples.region APPLICATION 0x26000 0x27000]
  /\ finalRegions Samples.appAboveLowData (updateFileAppRegions Samples.appAboveLowData)
     = [set_regionSize (Samples.region APPLICATION 0x26000 0x27000) (0x11000 - 0x26000)]
  /\ 0x11000 - 0x26000 < 0.
Proof. repeat split. Qed.

(** The two thunks in sequence, as [updateFileRegions] runs them: the
    removal loop of [updateFileBlRegion] has dropped the block at
    [0x26000] before [updateFileAppRegions] could label it. *)
Example coalesce_after_bootloader_merge :
  regions (file (coalesce Samples.appAndBootloader))
  = [Samples.region BOOTLOADER 0x70000 0x72000].
Proof. reflexivity. Qed.

End AppRegionClaims.

(** ** Further properties of the region thunks *)

Module ThunkProperties.
Import Immutable ImmutableFacts RegionFacts FileActions Statements Further
       ThunkFacts AppRegionFacts.

(** Once the sweep has an end address it keeps one. *)
Lemma blSweep_keeps (bl : Region) (rom : Z) (rs : list Region) (e : Z) :
  fold_left (blSweepStep bl rom) rs (Some e) <> None.
Proof.
  revert e. induction rs as [| r rs IH]; intros e; simpl; [discriminate |].
  unfold blSweepStep at 2.
  destruct (_ && _); apply IH.
Qed.

Lemma blSweepStep_qualifies (bl : Region) (rom : Z) (r : Region) :
  qualifies bl rom r ->
  blSweepStep bl rom None r = Some (regionEnd r).
Proof.
  intros (Hn & Hs & He). unfold blSweepStep, regionEnd in *.
  apply hasName_iff in Hn. rewrite Hn.
  destruct (Z.ltb_spec (startAddress bl) (startAddress r)); [| lia].
  destruct (Z.ltb_spec (startAddress r + regionSize r) rom); [| lia].
  reflexivity.
Qed.

Lemma blSweepStep_other (bl : Region) (rom : Z) (acc : option Z) (r : Region) :
  ~ qualifies bl rom r -> blSweepStep bl rom acc r = acc.
Proof.
  intros Hq. unfold blSweepStep.
  destruct (hasName NONE r) eqn:En; trivial.
  destruct (Z.ltb_spec (startAddress bl) (startAddress r)); trivial.
  destruct (Z.ltb_spec (startAddress r + regionSize r) rom); trivial.
  exfalso. apply Hq. apply hasName_iff in En. now repeat split.
Qed.

Lemma qualifies_dec (bl : Region) (rom : Z) (r : Region) :
  qualifies bl rom r \/ ~ qualifies bl rom r.
Proof.
  unfold qualifies, regionEnd.
  destruct (hasName NONE r) eqn:En.
  - apply hasName_iff in En.
    destruct (Z.lt_ge_cases (startAddress bl) (startAddress r));
      destruct (Z.lt_ge_cases (startAddress r + regionSize r) rom);
      try (right; lia). now left.
  - apply hasName_false in En. right. tauto.
Qed.

(** The sweep finds an end address exactly when a region qualifies. *)
Lemma blSweep_none_iff (bl : Region) (rom : Z) (rs : list Region) :
  blSweep bl rom rs = None <-> forall r, In r rs -> ~ qualifies bl rom r.
Proof.
  unfold blSweep. induction rs as [| r rs IH]; simpl.
  - split; [intros _ ? [] | trivial].
  - destruct (qualifies_dec bl rom r) as [Hq | Hq].
    + rewrite (blSweepStep_qualifies bl rom r Hq). split.
      * intros H. now apply blSweep_keeps in H.
      * intros H. exfalso. apply (H r); auto.
    + rewrite (blSweepStep_other bl rom None r Hq), IH. split.
      * intros H q [<- | Hin]; auto.
      * intros H q Hin. apply H. now right.
Qed.

(** X1.  Neither [updateFileBlRegion] nor [updateFileAppRegions] ever
    raises: whenever the merge of the application runs, the region it
    resizes is in the list. *)
Theorem region_thunks_never_raise (st : AppState) :
  thrown (updateFileBlRegion st) = None
  /\ thrown (updateFileAppRegions st) = None.
Proof.
  split;
    [apply updateFileBlRegion_never_throws
    | apply updateFileAppRegions_never_throws].
Qed.

(** X2.  [updateFileBlRegion] dispatches a region list exactly when the
    file regions hold a bootloader and an unlabelled region that starts
    above the first bootloader's start and ends below the ROM size; in
    every other case it dispatches nothing and the store keeps its
    regions. *)
Theorem updateFileBlRegion_acts_iff (st : AppState) :
  let rs := regions (file st) in
  let rom := romSize (deviceInfo (target st)) in
  (dispatched (updateFileBlRegion st) <> [] <->
   exists bl r,
     find (hasName BOOTLOADER) rs = Some bl /\ In r rs /\ qualifies bl rom r)
  /\ (dispatched (updateFileBlRegion st) = [] ->
      finalRegions st (updateFileBlRegion st) = rs).
Proof.
  intros rs rom. split.
  - unfold updateFileBlRegion. fold rs rom.
    destruct (find (hasName BOOTLOADER) rs) as [bl |] eqn:Ebl.
    + destruct (blSweep bl rom rs) as [e |] eqn:Es; simpl.
      * split; [intros _ | discriminate].
        destruct (blSweep_gap bl rom rs None e Es) as [H | (r & Hin & Hr)];
          [discriminate H |].
        exists bl, r. unfold qualifies. tauto.
      * split; [intros H; now contradiction H |].
        intros (bl' & r & Hbl & Hin & Hq). injection Hbl as <-.
        exfalso. apply (proj1 (blSweep_none_iff bl rom rs) Es r Hin Hq).
    + simpl. split; [intros H; now contradiction H |].
      intros (bl & r & Hbl & _). discriminate Hbl.
  - intros H. unfold finalRegions, afterThunk. rewrite H. reflexivity.
Qed.

Lemma blSweepStep_next (bl : Region) (rom : Z) (e0 : Z) (r : Region) :
  qualifies bl rom r -> e0 <= startAddress r ->
  blSweepStep bl rom (Some e0) r = Some (regionEnd r).
Proof.
  intros (Hn & Hs & He) Hle. unfold blSweepStep, regionEnd in *.
  apply hasName_iff in Hn. rewrite Hn.
  destruct (Z.ltb_spec (startAddress bl) (startAddress r)); [| lia].
  destruct (Z.ltb_spec (startAddress r + regionSize r) rom); [| lia].
  destruct (Z.leb_spec e0 (startAddress r)); [| lia].
  now rewrite orb_true_r.
Qed.

(** X3.  When [updateFileBlRegion] merges, the list it leaves in the
    store is the list of the labelled regions, in their order, with the
    first bootloader resized: no unlabelled region is left, no labelled
    region is lost, and the merged bootloader ends at the end of one of
    its gaps, below the ROM size. *)
Theorem bootloader_merge_result (st : AppState) (bl r : Region) :
  let rs := regions (file st) in
  let rom := romSize (deviceInfo (target st)) in
  find (hasName BOOTLOADER) rs = Some bl ->
  In r rs -> qualifies bl rom r ->
  exists pre suf gap,
    filter labelled rs = pre ++ bl :: suf
    /\ Forall (fun y => hasName BOOTLOADER y = false) pre
    /\ In gap rs /\ qualifies bl rom gap
    /\ finalRegions st (updateFileBlRegion st)
       = pre ++ set_regionSize bl (regionEnd gap - startAddress bl) :: suf
    /\ Forall (fun q => name q <> NONE) (finalRegions st (updateFileBlRegion st))
    /\ regionEnd (set_regionSize bl (regionEnd gap - startAddress bl)) < rom.
Proof.
  intros rs rom Hbl Hin Hq.
  destruct (blSweep bl rom rs) as [e |] eqn:Es;
    [| exfalso; apply (proj1 (blSweep_none_iff bl rom rs) Es r Hin Hq)].
  destruct (blSweep_gap bl rom rs None e Es) as [H | (gap & Hg & Hn & Hs & He & ->)];
    [discriminate H |].
  destruct (updateFileBlRegion_merged st bl (regionEnd gap) Hbl Es)
    as (pre & suf & Ef & Hpre & Hrun).
  exists pre, suf, gap.
  assert (Hfinal : finalRegions st (updateFileBlRegion st)
                   = pre ++ set_regionSize bl (regionEnd gap - startAddress bl) :: suf)
    by (rewrite Hrun; reflexivity).
  repeat (split; trivial).
  - rewrite Hfinal.
    assert (Hall : Forall (fun q => name q <> NONE) (pre ++ bl :: suf)).
    { fold rs in Ef. rewrite <- Ef. apply Forall_forall. intros q Hq'.
      apply filter_In in Hq' as [_ Hq']. unfold labelled in Hq'.
      apply negb_true_iff, hasName_false in Hq'. exact Hq'. }
    apply Forall_app in Hall as [Hp Hs']. inversion Hs'; subst.
    apply Forall_app. split; trivial. constructor; trivial.
  - unfold regionEnd at 1. simpl. lia.
Qed.

Lemma bootloader_merge_result_witness :
  exists pre suf gap,
    filter labelled (regions (file Samples.bootloaderGaps))
    = pre ++ Samples.region BOOTLOADER 0x70000 0x71000 :: suf
    /\ Forall (fun y => hasName BOOTLOADER y = false) pre
    /\ In gap (regions (file Samples.bootloaderGaps))
    /\ qualifies (Samples.region BOOTLOADER 0x70000 0x71000) 0x80000 gap
    /\ finalRegions Samples.bootloaderGaps (updateFileBlRegion Samples.bootloaderGaps)
       = pre ++ set_regionSize (Samples.region BOOTLOADER 0x70000 0x71000)
                               (regionEnd gap - 0x70000) :: suf
    /\ Forall (fun q => name q <> NONE)
              (finalRegions Samples.bootloaderGaps
                            (updateFileBlRegion Samples.bootloaderGaps))
    /\ regionEnd (set_regionSize (Samples.region BOOTLOADER 0x70000 0x71000)
                                 (regionEnd gap - 0x70000)) < 0x80000.
Proof.
  apply (bootloader_merge_result Samples.bootloaderGaps
           (Samples.region BOOTLOADER 0x70000 0x71000)
           (Samples.region NONE 0x71000 0x72000)).
  - reflexivity.
  - right. left. reflexivity.
  - unfold qualifies. repeat split; reflexivity.
Defined.

Lemma ordered_sizes (rs : list Region) (r : Region) :
  ordered rs -> In r rs -> 0 <= regionSize r.
Proof.
  induction rs as [| x rs IH]; simpl; [tauto |].
  intros (Hx & _ & Hrs) [<- | Hin]; auto.
Qed.

Lemma ordered_apart (rs : list Region) (x y : Region) :
  ordered rs -> In x rs -> In y rs ->
  x = y \/ regionEnd x <= startAddress y \/ regionEnd y <= startAddress x.
Proof.
  induction rs as [| z rs IH]; simpl; [tauto |].
  intros (_ & Hz & Hrs) [<- | Hx] [<- | Hy]; auto.
Qed.

(** The sweep over an ordered list ends at the end of the last gap. *)
Lemma blSweep_ordered (bl : Region) (rom : Z) (rs : list Region)
      (acc : option Z) (e : Z) :
  ordered rs ->
  (forall e0, acc = Some e0 -> forall q, In q rs -> e0 <= startAddress q) ->
  fold_left (blSweepStep bl rom) rs acc = Some e ->
  (forall g, In g rs -> qualifies bl rom g -> regionEnd g <= e)
  /\ (forall e0, acc = Some e0 -> e0 <= e).
Proof.
  revert acc. induction rs as [| r rs IH]; intros acc Hord Hacc Hfold; simpl in *.
  - split; [intros g [] |]. intros e0 H. rewrite H in Hfold.
    injection Hfold as ->. lia.
  - destruct Hord as (Hsize & Hafter & Hord).
    destruct (qualifies_dec bl rom r) as [Hq | Hq].
    + assert (Hstep : blSweepStep bl rom acc r = Some (regionEnd r)).
      { destruct acc as [e0 |].
        - apply blSweepStep_next; trivial. apply (Hacc e0 eq_refl). now left.
        - now apply blSweepStep_qualifies. }
      rewrite Hstep in Hfold.
      destruct (IH (Some (regionEnd r)) Hord) as [Hgaps Hacc']; trivial.
      { intros e0 E q Hin. injection E as <-. now apply Hafter. }
      specialize (Hacc' _ eq_refl). split.
      * intros g [<- | Hin] Hg; auto.
      * intros e0 E. specialize (Hacc e0 E r (or_introl eq_refl)).
        unfold regionEnd in Hacc'. lia.
    + rewrite (blSweepStep_other bl rom acc r Hq) in Hfold.
      destruct (IH acc Hord) as [Hgaps Hacc']; trivial.
      { intros e0 E q Hin. apply (Hacc e0 E). now right. }
      split; trivial.
      intros g [<- | Hin] Hg; [contradiction | auto].
Qed.

(** X4.  On file regions in address order that do not overlap, the merge
    of [updateFileBlRegion] never shrinks the bootloader, and the merged
    bootloader reaches the end of every gap: of every unlabelled region
    that starts above its start and ends below the ROM size. *)
Theorem bootloader_merge_covers_gaps (st : AppState) (bl r : Region) :
  let rs := regions (file st) in
  let rom := romSize (deviceInfo (target st)) in
  ordered rs ->
  find (hasName BOOTLOADER) rs = Some bl ->
  In r rs -> qualifies bl rom r ->
  exists merged,
    In merged (finalRegions st (updateFileBlRegion st))
    /\ name merged = BOOTLOADER
    /\ startAddress merged = startAddress bl
    /\ regionSize bl <= regionSize merged
    /\ forall g, In g rs -> qualifies bl rom g -> regionEnd g <= regionEnd merged.
Proof.
  intros rs rom Hord Hbl Hin Hq.
  destruct (blSweep bl rom rs) as [e |] eqn:Es;
    [| exfalso; apply (proj1 (blSweep_none_iff bl rom rs) Es r Hin Hq)].
  destruct (updateFileBlRegion_merged st bl e Hbl Es)
    as (pre & suf & Ef & Hpre & Hrun).
  destruct (blSweep_ordered bl rom rs None e Hord) as [Hgaps _]; trivial.
  { intros e0 E. discriminate E. }
  pose proof (find_some _ _ Hbl) as [Hblin Hblname].
  apply hasName_iff in Hblname.
  exists (set_regionSize bl (e - startAddress bl)).
  split; [rewrite Hrun; apply in_or_app; right; now left |].
  split; trivial. split; trivial.
  assert (Hend : regionEnd bl <= e).
  { pose proof (Hgaps r Hin Hq) as Hr.
    pose proof (ordered_sizes rs r Hord Hin) as Hsz.
    destruct Hq as (Hn & Hs & _).
    destruct (ordered_apart rs bl r Hord Hblin Hin) as [E | [H | H]].
    - subst r. congruence.
    - unfold regionEnd in *. lia.
    - unfold regionEnd in *. lia. }
  split.
  - simpl. unfold regionEnd in Hend. lia.
  - intros g Hg Hgq. specialize (Hgaps g Hg Hgq).
    unfold regionEnd at 2. simpl. lia.
Qed.

Lemma bootloader_merge_covers_gaps_witness :
  exists merged,
    In merged (finalRegions Samples.bootloaderGaps
                            (updateFileBlRegion Samples.bootloaderGaps))
    /\ name merged = BOOTLOADER
    /\ startAddress merged = 0x70000
    /\ regionSize (Samples.region BOOTLOADER 0x70000 0x71000) <= regionSize merged
    /\ forall g, In g (regions (file Samples.bootloaderGaps)) ->
                 qualifies (Samples.region BOOTLOADER 0x70000 0x71000) 0x80000 g ->
                 regionEnd g <= regionEnd merged.
Proof.
  apply (bootloader_merge_covers_gaps Samples.bootloaderGaps
           (Samples.region BOOTLOADER 0x70000 0x71000)
           (Samples.region NONE 0x71000 0x72000)).
  - simpl. unfold regionEnd. simpl.
    repeat split; try lia; intros q Hq; simpl in Hq;
      intuition (subst q; simpl; lia).
  - reflexivity.
  - right. left. reflexivity.
  - unfold qualifies. repeat split; reflexivity.
Defined.

End ThunkProperties.

(** ** Further properties of [updateFileAppRegions] *)

Module AppRegionProperties.
Import Immutable ImmutableFacts RegionFacts FileActions Statements Further
       ThunkFacts AppRegionFacts.

Lemma includes_iff (names : list RegionName) (n : RegionName) :
  includes names n = true <-> In n names.
Proof.
  unfold includes. rewrite existsb_exists. split.
  - intros [x [Hin Hx]]. apply RegionName_eqb_eq in Hx. now subst.
  - intros H. exists n. split; trivial. now apply RegionName_eqb_eq.
Qed.

Lemma addName_spec (names : list RegionName) (n m : RegionName) :
  In m (addName names n) <-> m = n \/ In m names.
Proof.
  unfold addName. destruct (includes names n) eqn:E.
  - apply includes_iff in E. split; [auto |]. intros [-> | H]; trivial.
  - rewrite in_app_iff. simpl. intuition.
Qed.

Lemma addName_NoDup (names : list RegionName) (n : RegionName) :
  NoDup names -> NoDup (addName names n).
Proof.
  intros H. unfold addName. destruct (includes names n) eqn:E; trivial.
  assert (Hn : ~ In n names).
  { intros Hin. apply includes_iff in Hin. congruence. }
  clear E. induction H as [| x l Hx Hl IH]; simpl.
  - constructor; [intros [] | constructor].
  - constructor.
    + rewrite in_app_iff. simpl. intros [H | [H | []]]; [auto |].
      apply Hn. now left.
    + apply IH. intros Hin. apply Hn. now right.
Qed.

Lemma detected_step (tbl : option Region) (acc : Sweep) (r : Region) :
  detected (appSweepStep tbl acc r) =
  if includes regionChecklist (name r) then addName (detected acc) (name r)
  else detected acc.
Proof. reflexivity. Qed.

(** The names the sweep collects. *)
Lemma appSweep_detected (tbl : option Region) (rs : list Region) (acc : Sweep) :
  NoDup (detected acc) ->
  NoDup (detected (fold_left (appSweepStep tbl) rs acc))
  /\ forall n,
       In n (detected (fold_left (appSweepStep tbl) rs acc)) <->
       In n (detected acc)
       \/ (In n regionChecklist /\ exists r, In r rs /\ name r = n).
Proof.
  revert acc. induction rs as [| r rs IH]; intros acc Hnd; simpl.
  - split; trivial. intros n. split; [auto |].
    intros [H | [_ [r [[] _]]]]; trivial.
  - destruct (IH (appSweepStep tbl acc r)) as [Hnd' Hin'].
    { rewrite detected_step.
      destruct (includes regionChecklist (name r)); trivial.
      now apply addName_NoDup. }
    split; trivial. intros n. rewrite Hin', detected_step.
    destruct (includes regionChecklist (name r)) eqn:Ec.
    + apply includes_iff in Ec. rewrite addName_spec. split.
      * intros [[-> | H] | (Hc & q & Hq & Hn)]; eauto 7.
      * intros [H | (Hc & q & [<- | Hq] & Hn)]; eauto 7.
    + assert (Hnc : ~ In (name r) regionChecklist).
      { intros Hin. apply includes_iff in Hin. congruence. }
      split.
      * intros [H | (Hc & q & Hq & Hn)]; eauto 7.
      * intros [H | (Hc & q & [<- | Hq] & Hn)]; eauto 7.
        subst n. contradiction.
Qed.

(** The labelled names of the list the merge leaves are those of the list
    it started from. *)
Lemma merge_keeps_names (rs : list Region) (tbl : option Region) (sw : Sweep)
      (n : RegionName) :
  n <> NONE ->
  (exists r, In r (match fst (mergeApp rs tbl sw) with
                   | FILE_REGIONS_KNOWN x :: _ => x
                   | _ => rs
                   end) /\ name r = n)
  <-> exists r, In r rs /\ name r = n.
Proof.
  intros Hn.
  destruct (mergeApp_cases rs tbl sw)
    as [Em | (bl & s0 & e & a & pre & suf & _ & _ & _ & Ef & _ & Ha & Em)].
  - rewrite Em. tauto.
  - rewrite Em. simpl.
    assert (Hkept : forall r, In r (pre ++ a :: suf) <-> In r rs /\ keptBelow bl r = true).
    { intros r. rewrite <- Ef. apply filter_In. }
    split.
    + intros (r & Hin & Hr). apply in_app_or in Hin as [Hin | [<- | Hin]].
      * exists r. split; trivial. apply Hkept. apply in_or_app. now left.
      * exists a. split; trivial. apply Hkept. apply in_or_app. right. now left.
      * exists r. split; trivial. apply Hkept. apply in_or_app. right. now right.
    + intros (r & Hin & Hr).
      assert (Hk : In r (pre ++ a :: suf)).
      { apply Hkept. split; trivial. unfold keptBelow, hasName. rewrite Hr.
        destruct n; trivial. contradiction. }
      apply in_app_or in Hk as [Hk | [<- | Hk]].
      * exists r. split; trivial. apply in_or_app. now left.
      * exists (set_color (set_regionSize a (e - s0)) ColorAPPLICATION).
        split; trivial. apply in_or_app. right. now left.
      * exists r. split; trivial. apply in_or_app. right. now right.
Qed.

(** X5.  [updateFileAppRegions] dispatches the detected region names
    exactly once, and the store keeps them; they are without duplicates,
    and a name is detected exactly when it is one of APPLICATION,
    SOFTDEVICE and BOOTLOADER and a region of the final file region list
    carries it. *)
Theorem detected_names_final (st : AppState) :
  let run := updateFileAppRegions st in
  let names := detectedRegionNames (file (afterThunk st run)) in
  namesKnown run = [names]
  /\ NoDup names
  /\ forall n,
       In n names <->
       In n regionChecklist
       /\ exists r, In r (finalRegions st run) /\ name r = n.
Proof.
  intros run names.
  pose proof (updateFileAppRegions_final st) as Hfinal. cbv zeta in Hfinal.
  fold run in Hfinal.
  set (rs := regions (file st)) in *.
  set (fsd := find (hasName SOFTDEVICE) rs) in *.
  set (tsd := find (hasName SOFTDEVICE) (targetRegions (target st))) in *.
  set (tbl := find (hasName BOOTLOADER) (targetRegions (target st))) in *.
  set (rs1 := fst (labelApp rs fsd tsd (pageSize (deviceInfo (target st))))) in *.
  set (rs2 := fst (unlabelApp rs1 fsd tsd)) in *.
  assert (Hrun : namesKnown run = [detected (appSweep tbl rs2)]
                 /\ names = detected (appSweep tbl rs2)).
  { subst names run. unfold namesKnown, afterThunk, updateFileAppRegions.
    fold rs fsd tsd tbl. subst rs2 rs1.
    destruct (labelApp_shape rs fsd tsd (pageSize (deviceInfo (target st))))
      as [E1 | [l1 E1]]; rewrite E1; simpl;
      [destruct (unlabelApp_shape rs fsd tsd) as [E2 | [l2 E2]]
      | destruct (unlabelApp_shape l1 fsd tsd) as [E2 | [l2 E2]]];
      rewrite E2; simpl;
      match goal with
      | |- context [mergeApp ?l ?b ?s] =>
          destruct (mergeApp_cases l b s)
            as [Em | (bl & s0 & e & a & pre & suf & _ & _ & _ & _ & _ & _ & Em)];
          [destruct (mergeApp l b s) as [out3 err]; simpl in Em; subst out3
          | rewrite Em]
      end; split; reflexivity. }
  destruct Hrun as [Hknown Hnames].
  destruct (appSweep_detected tbl rs2 (mkSweep [] None None)) as [Hnd Hin].
  { constructor. }
  fold (appSweep tbl rs2) in Hnd, Hin.
  clearbody names. subst names.
  split; trivial. split; trivial.
  intros n. rewrite Hin, Hfinal. simpl. split.
  - intros [[] | [Hc Hr]]. split; trivial.
    apply merge_keeps_names; trivial.
    intros ->. simpl in Hc. intuition discriminate.
  - intros [Hc Hr]. right. split; trivial.
    apply merge_keeps_names in Hr; trivial.
    intros ->. simpl in Hc. intuition discriminate.
Qed.

(** Replacing a found element by one of the same extent. *)
Lemma relabel_comesFrom (p : Region -> bool) (rs : list Region) (r0 v : Region) :
  find p rs = Some r0 ->
  startAddress v = startAddress r0 -> fileNames v = fileNames r0 ->
  comesFrom rs (Immutable.set rs (indexOf r0 rs) v).
Proof.
  intros Hf Hs Hn. destruct (find_split _ _ _ Hf) as (pre & suf & E & Hpre & Hp).
  rewrite E at 2 3. unfold indexOf.
  rewrite (set_found Region_eqb Region_eqb_eq p) by trivial.
  split.
  - rewrite E, !length_app. simpl. lia.
  - intros r' Hin. apply in_app_or in Hin as [Hin | [<- | Hin]].
    + exists r'. rewrite E. split; [apply in_or_app; now left | auto].
    + exists r0. rewrite E. split; [apply in_or_app; right; now left | auto].
    + exists r'. rewrite E. split; [apply in_or_app; right; now right | auto].
Qed.

Lemma comesFrom_refl (rs : list Region) : comesFrom rs rs.
Proof. split; [lia | eauto]. Qed.

Lemma comesFrom_trans (a b c : list Region) :
  comesFrom a b -> comesFrom b c -> comesFrom a c.
Proof.
  intros [L1 H1] [L2 H2]. split; [lia |].
  intros r' Hin. destruct (H2 r' Hin) as (r & Hr & Hs & Hn).
  destruct (H1 r Hr) as (q & Hq & Hs' & Hn').
  exists q. split; trivial. split; congruence.
Qed.

Lemma filter_comesFrom (p : Region -> bool) (rs : list Region) :
  comesFrom rs (filter p rs).
Proof.
  split.
  - apply filter_length_le.
  - intros r' Hin. apply filter_In in Hin as [Hin _]. eauto.
Qed.

Lemma labelApp_comesFrom (rs : list Region) (fsd tsd : option Region) (page : Z) :
  comesFrom rs (fst (labelApp rs fsd tsd page)).
Proof.
  unfold labelApp. destruct fsd, tsd as [sd |]; try apply comesFrom_refl.
  unfold findAppRegion.
  destruct (find (startsAt (appBoundary (startAddress sd + regionSize sd) page 0)) rs)
    as [r0 |] eqn:E0.
  - simpl. now apply (relabel_comesFrom _ rs r0 _ E0).
  - destruct (find (startsAt (appBoundary (startAddress sd + regionSize sd) page 1)) rs)
      as [r0 |] eqn:E1; [| apply comesFrom_refl].
    simpl. now apply (relabel_comesFrom _ rs r0 _ E1).
Qed.

Lemma unlabelApp_comesFrom (rs : list Region) (fsd tsd : option Region) :
  comesFrom rs (fst (unlabelApp rs fsd tsd)).
Proof.
  unfold unlabelApp. destruct fsd, tsd; try apply comesFrom_refl.
  destruct (find (hasName APPLICATION) rs) as [r0 |] eqn:E0;
    [| apply comesFrom_refl].
  destruct (negb (startAddress r0 =? softDeviceMagicStart));
    [| apply comesFrom_refl].
  simpl. now apply (relabel_comesFrom _ rs r0 _ E0).
Qed.

Lemma mergeApp_comesFrom (rs : list Region) (tbl : option Region) (sw : Sweep) :
  comesFrom rs (match fst (mergeApp rs tbl sw) with
                | FILE_REGIONS_KNOWN x :: _ => x
                | _ => rs
                end).
Proof.
  destruct (mergeApp_cases rs tbl sw)
    as [Em | (bl & s0 & e & a & pre & suf & _ & _ & _ & Ef & _ & Ha & Em)].
  - rewrite Em. apply comesFrom_refl.
  - rewrite Em. simpl.
    apply comesFrom_trans with (pre ++ a :: suf).
    + rewrite <- Ef. apply filter_comesFrom.
    + split.
      * rewrite !length_app. simpl. lia.
      * intros r' Hin. apply in_app_or in Hin as [Hin | [<- | Hin]].
        -- exists r'. split; [apply in_or_app; now left | auto].
        -- exists a. split; [apply in_or_app; right; now left | auto].
        -- exists r'. split; [apply in_or_app; right; now right | auto].
Qed.

(** X6.  The two thunks never add a region and never move one: every
    region of the list they leave in the store has the start address and
    the file names of a region of the list they found, and the list has
    not grown. *)
Theorem thunks_add_no_region (st : AppState) :
  comesFrom (regions (file st)) (finalRegions st (updateFileBlRegion st))
  /\ comesFrom (regions (file st)) (finalRegions st (updateFileAppRegions st))
  /\ comesFrom (regions (file st)) (regions (file (coalesce st))).
Proof.
  assert (Hbl : forall s, comesFrom (regions (file s))
                                    (finalRegions s (updateFileBlRegion s))).
  { intros s.
    destruct (find (hasName BOOTLOADER) (regions (file s))) as [bl |] eqn:Ebl.
    - destruct (blSweep bl (romSize (deviceInfo (target s))) (regions (file s)))
        as [e |] eqn:Es.
      + destruct (updateFileBlRegion_merged s bl e Ebl Es)
          as (pre & suf & Ef & _ & Hrun).
        rewrite Hrun. unfold finalRegions, afterThunk. simpl.
        apply comesFrom_trans with (pre ++ bl :: suf).
        * rewrite <- Ef. apply filter_comesFrom.
        * split.
          -- rewrite !length_app. simpl. lia.
          -- intros r' Hin. apply in_app_or in Hin as [Hin | [<- | Hin]].
             ++ exists r'. split; [apply in_or_app; now left | auto].
             ++ exists bl. split; [apply in_or_app; right; now left | auto].
             ++ exists r'. split; [apply in_or_app; right; now right | auto].
      + unfold finalRegions, afterThunk, updateFileBlRegion. rewrite Ebl, Es.
        apply comesFrom_refl.
    - unfold finalRegions, afterThunk, updateFileBlRegion. rewrite Ebl.
      apply comesFrom_refl. }
  assert (Happ : forall s, comesFrom (regions (file s))
                                     (finalRegions s (updateFileAppRegions s))).
  { intros s. rewrite updateFileAppRegions_final.
    eapply comesFrom_trans; [| apply mergeApp_comesFrom].
    eapply comesFrom_trans; [apply labelApp_comesFrom | apply unlabelApp_comesFrom]. }
  split; [apply Hbl |]. split; [apply Happ |].
  unfold coalesce.
  eapply comesFrom_trans; [apply Hbl |]. apply Happ.
Qed.

End AppRegionProperties.

(** ** Further properties of [canWrite] and [write] *)

Module JprogProperties.
Import MemoryMap MemoryMapFacts PaginateFacts FlattenFacts Jprog Statements
       Further JprogFacts WriteFacts.

Lemma selected_dec (st : AppState) : selected st \/ ~ selected st.
Proof.
  unfold selected.
  destruct (serialNumber (target st)) as [serial |];
    [| right; intros (s & p & H & _); discriminate H].
  destruct (targetPageSize (target st)) as [page |];
    [| right; intros (s & p & _ & H & _); discriminate H].
  destruct (Z.eq_dec serial 0) as [-> | Hs];
    [right; intros (s & p & H & _ & Hs & _); congruence |].
  destruct (Z.eq_dec page 0) as [-> | Hp];
    [right; intros (s & p & _ & H & _ & Hp); congruence |].
  left. exists serial, page. auto.
Qed.

Lemma write_unselected (st : AppState) (upToDate : bool) :
  ~ selected st ->
  write st upToDate =
  mkWriteRun [LoggerError "Select a device before writing"] None.
Proof.
  intros H. unfold write.
  destruct (serialNumber (target st)) as [serial |] eqn:Es; trivial.
  destruct (targetPageSize (target st)) as [page |] eqn:Ep; trivial.
  destruct (Z.eqb_spec serial 0); trivial.
  destruct (Z.eqb_spec page 0); trivial.
  exfalso. apply H. exists serial, page. auto.
Qed.

(** X7.  [write] raises exactly when a device is selected and the target
    state has no memory map; with no device selected it only logs
    "Select a device before writing", whatever the rest of the state. *)
Theorem write_raises_iff (st : AppState) (upToDate : bool) :
  (raised (write st upToDate) <> None <->
   selected st /\ memMap (target st) = None)
  /\ (~ selected st ->
      effects (write st upToDate)
      = [LoggerError "Select a device before writing"]).
Proof.
  split.
  - destruct (selected_dec st) as [(serial & page & Es & Ep & Hs & Hp) | Hn].
    + assert (Hsel : selected st) by (exists serial, page; auto).
      rewrite (write_selected st serial page upToDate Es Ep Hs Hp).
      destruct (memMap (target st)) as [t |] eqn:Em.
      * rewrite (canWrite_present st t Em), (writePages_present st t page Em).
        destruct (contains t blankUicr || _); destruct upToDate;
          try destruct (contains t blankUicr); simpl;
          intuition (discriminate || congruence).
      * unfold canWrite. rewrite Em. simpl.
        intuition (discriminate || congruence).
    + rewrite (write_unselected st upToDate Hn). simpl. tauto.
  - intros Hn. now rewrite (write_unselected st upToDate Hn).
Qed.

(** X8.  [write] reaches the device exactly when a device is selected,
    [canWrite] answers [true] and the check of the loaded files is
    fulfilled; and it dispatches WRITE_PROGRESS_START exactly in the runs
    that reach the device. *)
Theorem write_programs_iff (st : AppState) (upToDate : bool) :
  (transmitted (write st upToDate) <> [] <->
   selected st /\ canWrite st = Ok true /\ upToDate = true)
  /\ (In (Dispatch WRITE_PROGRESS_START) (effects (write st upToDate)) <->
      transmitted (write st upToDate) <> []).
Proof.
  destruct (selected_dec st) as [(serial & page & Es & Ep & Hs & Hp) | Hn].
  - assert (Hsel : selected st) by (exists serial, page; auto).
    rewrite (write_selected st serial page upToDate Es Ep Hs Hp).
    destruct (memMap (target st)) as [t |] eqn:Em.
    + rewrite (writePages_present st t page Em).
      destruct (canWrite st) as [[|] | err]; destruct upToDate;
        try destruct (contains t blankUicr); simpl;
        intuition (discriminate || congruence).
    + unfold canWrite. rewrite Em. simpl.
      intuition (discriminate || congruence).
  - rewrite (write_unselected st upToDate Hn). simpl.
    intuition (discriminate || congruence).
Qed.

(** A byte of the flattened image is a byte of one of the input maps. *)
Lemma flattened_from_input (maps : list (string * MemoryMap.t)) (a : Z) (b : byte) :
  holds (flattenOverlaps (overlapMemoryMaps maps)) a b ->
  exists fm, In fm maps /\ holds (snd fm) a b.
Proof.
  rewrite holds_flattened_range.
  intros (c1 & c2 & [id bs] & Hr & Hhd & Hb).
  destruct (ranges_consecutive _ _ _ (increasing_sortedCuts maps) Hr) as [Hlt _].
  unfold contributions in Hhd.
  apply (rev_flat_map_head _ _ _ (contributionOf_shape c1 c2)) in Hhd
    as (pre & fm & suf & E & Hfm & _).
  exists fm. split; [rewrite E; apply in_or_app; right; now left |].
  unfold contributionOf, pieceOf in Hfm.
  destruct (find (covers c1 c2) (snd fm)) as [blk |] eqn:Ef; [| discriminate Hfm].
  injection Hfm as _ <-. apply find_some in Ef as [Hin Hc].
  simpl snd in Hb. rewrite (piece_bytes c1 c2 blk a Hc Hlt) in Hb.
  destruct ((c1 <=? a) && (a <? c2)); [| discriminate Hb].
  exists blk. auto.
Qed.

(** A failed containment test has a byte to show for it. *)
Lemma bytesHeld_false (self : MemoryMap.t) (bs : list byte) (a : Z) :
  bytesHeld self a bs = false ->
  exists x b, byteAt (a, bs) x = Some b /\ ~ holds self x b.
Proof.
  revert a. induction bs as [| b0 rest IH]; intros a; simpl; [discriminate |].
  intros H. apply andb_false_iff in H as [H | H].
  - exists a, b0. split.
    + apply byteAt_cons. now left.
    + intros Hh. apply holdsb_spec in Hh. congruence.
  - destruct (IH _ H) as (x & b & Hb & Hn). exists x, b. split; trivial.
    apply byteAt_cons. now right.
Qed.

Lemma contains_false_byte (self other : MemoryMap.t) :
  contains self other = false ->
  exists a b, holds other a b /\ ~ holds self a b.
Proof.
  unfold contains. induction other as [| blk other IH]; simpl; [discriminate |].
  intros H. apply andb_false_iff in H as [H | H].
  - destruct (bytesHeld_false _ _ _ H) as (x & b & Hb & Hn).
    exists x, b. split; trivial. exists blk. split; [now left | now destruct blk].
  - destruct (IH H) as (a & b & (blk' & Hin & Hb) & Hn).
    exists a, b. split; trivial. exists blk'. split; [now right | trivial].
Qed.

(** X9.  When no loaded file has a byte in the configuration page
    [0x10001000, 0x10001400), and in particular when no file is loaded,
    [canWrite] answers [true] for every target that has a memory map. *)
Theorem canWrite_without_uicr_data (st : AppState) (t : MemoryMap.t) :
  memMap (target st) = Some t ->
  (forall fm a b, In fm (memMaps (file st)) -> inUicr a -> ~ holds (snd fm) a b) ->
  canWrite st = Ok true.
Proof.
  intros Em Hno. rewrite (canWrite_present st t Em). f_equal.
  apply orb_true_iff. right. apply contains_spec.
  intros a b H. apply holds_slice in H as [H Hr].
  apply flattened_from_input in H as (fm & Hin & H).
  exfalso. apply (Hno fm a b Hin); trivial.
Qed.

Lemma canWrite_without_uicr_data_witness :
  canWrite Samples.unread = Ok true.
Proof.
  apply (canWrite_without_uicr_data Samples.unread []).
  - reflexivity.
  - intros fm a b [<- | []] Ha [blk [[<- | []] Hb]].
    apply byteAt_in_block in Hb. unfold inUicr, uicrAddr, uicrSize in Ha.
    unfold blockEnd in Hb. simpl in Hb. lia.
Defined.

(** X10.  When [canWrite] refuses, there is a reason: the configuration
    page of the target is not blank, and one of the loaded files has a
    byte at an address of the configuration page that the target does not
    hold with that value. *)
Theorem canWrite_refusal_reason (st : AppState) (t : MemoryMap.t) :
  memMap (target st) = Some t ->
  canWrite st = Ok false ->
  ~ uicrBlank t
  /\ exists fm a b,
       In fm (memMaps (file st)) /\ inUicr a
       /\ holds (snd fm) a b /\ ~ holds t a b.
Proof.
  intros Em H. rewrite (canWrite_present st t Em) in H.
  apply (proj1 (Ok_inj _ _)) in H. apply orb_false_iff in H as [Hb Hc]. split.
  - intros Hblank. apply blank_iff in Hblank. rewrite Hblank in Hb. discriminate Hb.
  - apply contains_false_byte in Hc as (a & b & Hh & Hn).
    apply holds_slice in Hh as [Hh Hr].
    apply flattened_from_input in Hh as (fm & Hin & Hh).
    exists fm, a, b. auto.
Qed.

Lemma canWrite_refusal_reason_witness :
  ~ uicrBlank Samples.usedUicr
  /\ exists fm a b,
       In fm (memMaps (file Samples.conflicting)) /\ inUicr a
       /\ holds (snd fm) a b /\ ~ holds Samples.usedUicr a b.
Proof.
  apply (canWrite_refusal_reason Samples.conflicting Samples.usedUicr).
  - reflexivity.
  - vm_compute. reflexivity.
Defined.

End JprogProperties.

(** ** The list of recently used files *)

Module MruProperties.
Import Immutable ImmutableFacts PersistentStore Mru.

Lemma indexOfFrom_absent {A : Type} (eqb : A -> A -> bool) (x : A) (l : list A) (i : Z) :
  0 <= i ->
  (indexOfFrom eqb i x l = -1 <-> Forall (fun y => eqb x y = false) l).
Proof.
  revert i. induction l as [| y l IH]; intros i Hi; simpl.
  - split; [constructor | trivial].
  - destruct (eqb x y) eqn:E.
    + split; [lia |]. intros H. inversion H; subst. congruence.
    + rewrite IH by lia. split.
      * intros H. now constructor.
      * intros H. now inversion H.
Qed.

Lemma indexOfFrom_bound {A : Type} (eqb : A -> A -> bool) (x : A) (l : list A) (i : Z) :
  indexOfFrom eqb i x l = -1 \/ i <= indexOfFrom eqb i x l.
Proof.
  revert i. induction l as [| y l IH]; intros i; simpl; [now left |].
  destruct (eqb x y); [right; lia |].
  destruct (IH (i + 1)); [now left | right; lia].
Qed.

Lemma arrayIndexOf_absent (filename : string) (files : list string) :
  arrayIndexOf filename files = -1 <-> ~ In filename files.
Proof.
  unfold arrayIndexOf, indexOf. rewrite indexOfFrom_absent by lia.
  rewrite Forall_forall. split.
  - intros H Hin. specialize (H _ Hin). rewrite String.eqb_refl in H. discriminate.
  - intros H y Hy. destruct (String.eqb_spec filename y); [subst; contradiction | trivial].
Qed.

Lemma In_firstn {A : Type} (n : nat) (l : list A) (x : A) :
  In x (firstn n l) -> In x l.
Proof.
  intros H. rewrite <- (firstn_skipn n l). apply in_or_app. now left.
Qed.

Lemma NoDup_firstn {A : Type} (n : nat) (l : list A) :
  NoDup l -> NoDup (firstn n l).
Proof.
  revert n. induction l as [| x l IH]; intros n H.
  - rewrite firstn_nil. constructor.
  - destruct n; simpl; [constructor |]. inversion H; subst.
    constructor; [| auto].
    intros Hin. apply In_firstn in Hin. contradiction.
Qed.

Lemma filter_absent (filename : string) (files : list string) :
  ~ In filename files ->
  filter (fun f => negb (String.eqb f filename)) files = files.
Proof.
  induction files as [| y files IH]; simpl; trivial.
  intros H. destruct (String.eqb_spec y filename) as [-> | Hne]; simpl.
  - exfalso. apply H. now left.
  - rewrite IH; trivial. intros Hin. apply H. now right.
Qed.

(** X11.  The list of recently used files stays free of duplicates and
    at most ten entries long under [addMruFile] and [removeMruFile]. *)
Theorem mru_invariant (filename : string) (store : PersistentStore.t) :
  NoDup (getMruFiles store) ->
  (length (getMruFiles store) <= 10)%nat ->
  (NoDup (getMruFiles (addMruFile filename store))
   /\ (length (getMruFiles (addMruFile filename store)) <= 10)%nat)
  /\ (NoDup (getMruFiles (removeMruFile filename store))
      /\ (length (getMruFiles (removeMruFile filename store)) <= 10)%nat
      /\ ~ In filename (getMruFiles (removeMruFile filename store))).
Proof.
  intros Hnd Hlen. split.
  - unfold addMruFile.
    destruct (Z.eqb_spec (arrayIndexOf filename (getMruFiles store)) (-1)) as [E | E];
      [| auto].
    apply arrayIndexOf_absent in E.
    unfold getMruFiles at 1 3. cbn [setMruFiles storedMruFiles].
    split.
    + apply NoDup_firstn. now constructor.
    + rewrite length_firstn. lia.
  - unfold removeMruFile, getMruFiles at 1 3 5. cbn [setMruFiles storedMruFiles].
    split; [now apply NoDup_filter |]. split.
    + pose proof (filter_length_le (fun f => negb (String.eqb f filename))
                                   (getMruFiles store)). lia.
    + intros Hin. apply filter_In in Hin as [_ Hin].
      rewrite String.eqb_refl in Hin. discriminate.
Qed.

Lemma mru_invariant_witness :
  (NoDup (getMruFiles (addMruFile "b.hex" (mk (Some ["a.hex"%string]) None)))
   /\ (length (getMruFiles (addMruFile "b.hex" (mk (Some ["a.hex"%string]) None)))
       <= 10)%nat)
  /\ (NoDup (getMruFiles (removeMruFile "b.hex" (mk (Some ["a.hex"%string]) None)))
      /\ (length (getMruFiles (removeMruFile "b.hex" (mk (Some ["a.hex"%string]) None)))
          <= 10)%nat
      /\ ~ In "b.hex"%string
            (getMruFiles (removeMruFile "b.hex" (mk (Some ["a.hex"%string]) None)))).
Proof.
  apply (mru_invariant "b.hex" (mk (Some ["a.hex"%string]) None)).
  - simpl. repeat constructor. intros [].
  - simpl. lia.
Defined.

(** X12.  [addMruFile] puts a file that is not in the list in front of
    it, keeping the nine entries that came first; a file that is already
    in the list leaves the store as it is, so that the list is not
    reordered; in both cases the file is in the list afterwards. *)
Theorem addMruFile_result (filename : string) (store : PersistentStore.t) :
  (~ In filename (getMruFiles store) ->
   getMruFiles (addMruFile filename store)
   = filename :: firstn 9 (getMruFiles store))
  /\ (In filename (getMruFiles store) -> addMruFile filename store = store)
  /\ In filename (getMruFiles (addMruFile filename store))
  /\ addMruFile filename (addMruFile filename store) = addMruFile filename store.
Proof.
  assert (Hfresh : ~ In filename (getMruFiles store) ->
                   addMruFile filename store
                   = setMruFiles store (filename :: firstn 9 (getMruFiles store))).
  { intros H. unfold addMruFile.
    apply arrayIndexOf_absent in H. rewrite H. reflexivity. }
  assert (Hold : forall s, In filename (getMruFiles s) -> addMruFile filename s = s).
  { intros s H. unfold addMruFile.
    destruct (Z.eqb_spec (arrayIndexOf filename (getMruFiles s)) (-1)) as [E | E];
      trivial.
    apply arrayIndexOf_absent in E. contradiction. }
  assert (Hin : In filename (getMruFiles (addMruFile filename store))).
  { destruct (in_dec string_dec filename (getMruFiles store)) as [H | H].
    - now rewrite (Hold store H).
    - rewrite (Hfresh H). now left. }
  split; [intros H; now rewrite (Hfresh H) |].
  split; [apply Hold |]. split; [exact Hin |].
  now apply Hold.
Qed.

(** X13.  Adding a file that is not in the list and removing it again
    gives back the first nine entries of the list: the list itself when
    it had fewer than ten entries, the list without its last entry when
    it was full. *)
Theorem mru_add_remove (filename : string) (store : PersistentStore.t) :
  ~ In filename (getMruFiles store) ->
  getMruFiles (removeMruFile filename (addMruFile filename store))
  = firstn 9 (getMruFiles store)
  /\ ((length (getMruFiles store) < 10)%nat ->
      getMruFiles (removeMruFile filename (addMruFile filename store))
      = getMruFiles store).
Proof.
  intros H.
  assert (E : getMruFiles (removeMruFile filename (addMruFile filename store))
              = firstn 9 (getMruFiles store)).
  { unfold addMruFile. apply arrayIndexOf_absent in H as Hidx. rewrite Hidx.
    unfold removeMruFile, getMruFiles at 1 2. cbn [setMruFiles storedMruFiles].
    change (firstn 10 (filename :: getMruFiles store))
      with (filename :: firstn 9 (getMruFiles store)).
    simpl filter. rewrite String.eqb_refl. cbn [negb].
    apply filter_absent. intros Hin. apply In_firstn in Hin. contradiction. }
  split; trivial. intros Hlen. rewrite E. apply firstn_all2. lia.
Qed.

Lemma mru_add_remove_witness :
  getMruFiles (removeMruFile "b.hex"
                 (addMruFile "b.hex" (mk (Some ["a.hex"%string]) None)))
  = firstn 9 (getMruFiles (mk (Some ["a.hex"%string]) None))
  /\ ((length (getMruFiles (mk (Some ["a.hex"%string]) None)) < 10)%nat ->
      getMruFiles (removeMruFile "b.hex"
                     (addMruFile "b.hex" (mk (Some ["a.hex"%string]) None)))
      = getMruFiles (mk (Some ["a.hex"%string]) None)).
Proof.
  apply (mru_add_remove "b.hex" (mk (Some ["a.hex"%string]) None)).
  simpl. intros [H | []]. discriminate H.
Defined.

End MruProperties.

(** ** The file thunks *)

Module FileThunkProperties.
Import PersistentStore Mru FileThunks MruProperties.

Lemma objGet_none_iff {V : Type} (key : string) (o : list (string * V)) :
  objGet key o = None <-> ~ In key (map fst o).
Proof.
  unfold objGet. induction o as [| [k v] o IH]; simpl.
  - tauto.
  - destruct (String.eqb_spec k key) as [-> | Hne]; simpl.
    + split; [discriminate | intros H; exfalso; apply H; now left].
    + rewrite IH. intuition.
Qed.

Lemma objGet_In {V : Type} (key : string) (v : V) (o : list (string * V)) :
  In (key, v) o -> objGet key o <> None.
Proof.
  intros Hin H. apply objGet_none_iff in H. apply H.
  apply in_map_iff. exists (key, v). auto.
Qed.

Lemma objSet_fresh {V : Type} (key : string) (v : V) (o : list (string * V)) :
  objGet key o = None -> objSet key v o = o ++ [(key, v)].
Proof.
  intros H. unfold objSet.
  destruct (existsb (fun kv => String.eqb (fst kv) key) o) eqn:E; trivial.
  apply existsb_exists in E as [[k w] [Hin Hk]]. simpl in Hk.
  apply String.eqb_eq in Hk. subst k. now apply objGet_In in Hin.
Qed.

Lemma objDelete_absent {V : Type} (key : string) (o : list (string * V)) :
  ~ In key (map fst o) -> objDelete key o = o.
Proof.
  unfold objDelete. induction o as [| [k v] o IH]; simpl; trivial.
  intros H. destruct (String.eqb_spec k key) as [-> | Hne]; simpl.
  - exfalso. apply H. now left.
  - rewrite IH; trivial. intros Hin. apply H. now right.
Qed.

Lemma objDelete_added {V : Type} (key : string) (v : V) (o : list (string * V)) :
  ~ In key (map fst o) -> objDelete key (o ++ [(key, v)]) = o.
Proof.
  intros H. unfold objDelete. rewrite filter_app. simpl.
  rewrite String.eqb_refl. simpl. rewrite app_nil_r.
  now apply objDelete_absent.
Qed.

Lemma keys_filter {V : Type} (f : string -> bool) (o : list (string * V)) :
  map fst (filter (fun kv => f (fst kv)) o) = filter f (map fst o).
Proof.
  induction o as [| [k v] o IH]; simpl; trivial.
  destruct (f k); simpl; now rewrite IH.
Qed.

(** The file state after the events of a completed parse. *)
Lemma fileAfter_parsed (basename : string -> string) (filePath : string)
      (c : Captured) (mtime now : Z) (memMap : MemoryMap.t)
      (store : PersistentStore.t) (s : FileState) :
  fileAfter (fst (parseOneFile_finish basename filePath c (Parsed mtime memMap)
                                      now store)) s
  = reducer s (FILE_PARSE
                 (objSet filePath (mkLoadedFile (basename filePath) mtime now memMap)
                         (capLoaded c))
                 (capMemMaps c ++ [(filePath, memMap)])).
Proof.
  unfold fileAfter. cbn [parseOneFile_finish fst parsingLines].
  rewrite !fold_left_app. cbn [fold_left app].
  set (f := fun (s0 : FileState) (e : Event) =>
              match e with DispatchAction a => reducer s0 a | _ => s0 end).
  assert (Hblocks : forall l s0,
             fold_left f (map (fun blk : MemoryMap.Block =>
                                 LoggerInfoBlock (fst blk) (Z.of_nat (length (snd blk)))) l)
                       s0 = s0).
  { induction l as [| blk l IH]; intros s0; simpl; trivial. }
  rewrite Hblocks. reflexivity.
Qed.

Lemma parseOneFile_start_some (state : FileState) (filePath : string) (c : Captured) :
  parseOneFile_start state filePath = Some c ->
  objGet filePath (loaded state) = None
  /\ capLoaded c = loaded state /\ capMemMaps c = memMaps state.
Proof.
  unfold parseOneFile_start.
  destruct (objGet filePath (loaded state)); [discriminate |].
  intros H. injection H as <-. auto.
Qed.

Lemma fileAfter_app (e1 e2 : list Event) (s : FileState) :
  fileAfter (e1 ++ e2) s = fileAfter e2 (fileAfter e1 s).
Proof. unfold fileAfter. apply fold_left_app. Qed.

Lemma refreshOne_inert (state : FileState) (statSync : string -> JsErr + Z)
      (entry : string * LoadedFile) :
  In entry (loaded state) ->
  snd (refreshOne state statSync entry) = []
  /\ forall s, fileAfter (fst (refreshOne state statSync entry)) s = s.
Proof.
  intros Hin. destruct entry as [p entry].
  assert (Hstart : parseOneFile_start state p = None).
  { unfold parseOneFile_start.
    destruct (objGet p (loaded state)) eqn:E; trivial.
    exfalso. now apply (objGet_In p entry (loaded state)). }
  unfold refreshOne. cbn [fst snd]. rewrite Hstart.
  destruct (statSync p) as [err | mtime]; [split; reflexivity |].
  destruct (loadTime entry <? mtime); split; reflexivity.
Qed.

(** No parse is started by [refreshAllFiles], and its events leave the
    file state alone. *)
Lemma refreshAllFiles_inert (state : FileState) (statSync : string -> JsErr + Z) :
  snd (refreshAllFiles state statSync) = []
  /\ forall s, fileAfter (fst (refreshAllFiles state statSync)) s = s.
Proof.
  unfold refreshAllFiles. cbn [fst snd].
  assert (H : forall entries,
             (forall e, In e entries -> In e (loaded state)) ->
             flat_map snd (map (refreshOne state statSync) entries) = []
             /\ forall s, fileAfter (flat_map fst (map (refreshOne state statSync) entries)) s
                          = s).
  { induction entries as [| entry entries IH]; intros Hsub.
    - split; trivial.
    - destruct IH as [IH1 IH2]; [intros e He; apply Hsub; now right |].
      destruct (refreshOne_inert state statSync entry) as [H1 H2];
        [apply Hsub; now left |].
      cbn [map flat_map]. rewrite IH1, H1. split; trivial.
      intros s. now rewrite fileAfter_app, H2, IH2. }
  apply H. trivial.
Qed.

(** X14.  "Reload all files" reloads nothing: every path that
    [refreshAllFiles] hands to [parseOneFile] is loaded already, so that
    [parseOneFile] returns at once; neither [refreshAllFiles] nor
    [checkUpToDateFiles] starts a parse or dispatches an action that
    changes the file state. *)
Theorem reload_reloads_nothing (state later : FileState) (stat : string -> option Z)
        (statSync : string -> JsErr + Z) (store : PersistentStore.t)
        (button : Z) (doNotAskAgain : bool) :
  let run :=
    checkUpToDateFiles state later stat statSync store button doNotAskAgain in
  snd (refreshAllFiles state statSync) = []
  /\ (forall s, fileAfter (fst (refreshAllFiles state statSync)) s = s)
  /\ started run = []
  /\ (forall s, fileAfter (checkEvents run) s = s).
Proof.
  intros run.
  destruct (refreshAllFiles_inert state statSync) as [H1 H2].
  destruct (refreshAllFiles_inert later statSync) as [L1 L2].
  split; trivial. split; trivial.
  subst run. unfold checkUpToDateFiles.
  destruct (changedFiles stat (loaded state)) as [changed |]; [| split; reflexivity].
  destruct (truthyNames changed) as [| f fs]; [split; reflexivity |].
  assert (Hask : forall shown,
             (forall s, fileAfter shown s = s) ->
             started (answerDialog later statSync store shown button doNotAskAgain) = []
             /\ forall s, fileAfter (checkEvents
                                       (answerDialog later statSync store shown button
                                                     doNotAskAgain)) s = s).
  { intros shown Hshown. unfold answerDialog.
    destruct (button =? 0); [split; trivial |].
    destruct (button =? 1); [| split; trivial].
    cbn [started checkEvents]. split; trivial.
    intros s. now rewrite fileAfter_app, Hshown, L2. }
  destruct (storedBehaviour store) as [behaviour |]; [| now apply Hask].
  destruct (String.eqb behaviour "ignore"); [split; reflexivity |].
  destruct (String.eqb behaviour "reload"); [split; trivial |].
  now apply Hask.
Qed.

(** X15.  Two parses started on the same file state, as
    [openFileDialog] starts them for two files chosen together, do not
    add up: when both have completed, the file state holds the file of
    the parse that completed last and not the other one.  Started one
    after the other has completed, they leave both files, in the order of
    loading. *)
Theorem concurrent_parses_lose_one (state : FileState) (p1 p2 : string)
        (c1 c2 c2' : Captured) (basename : string -> string)
        (t1 t2 now1 now2 : Z) (m1 m2 : MemoryMap.t)
        (store1 store2 : PersistentStore.t) :
  let done1 :=
    fileAfter (fst (parseOneFile_finish basename p1 c1 (Parsed t1 m1) now1 store1))
              state in
  parseOneFile_start state p1 = Some c1 ->
  parseOneFile_start state p2 = Some c2 ->
  parseOneFile_start done1 p2 = Some c2' ->
  p1 <> p2 ->
  (let both :=
     fileAfter (fst (parseOneFile_finish basename p2 c2 (Parsed t2 m2) now2 store2))
               done1 in
   memMaps both = memMaps state ++ [(p2, m2)]
   /\ objGet p1 (loaded both) = None
   /\ objGet p2 (loaded both) <> None)
  /\ (let inTurn :=
        fileAfter (fst (parseOneFile_finish basename p2 c2' (Parsed t2 m2) now2 store2))
                  done1 in
      memMaps inTurn = memMaps state ++ [(p1, m1); (p2, m2)]).
Proof.
  intros done1 H1 H2 H2' Hne.
  apply parseOneFile_start_some in H1 as (G1 & L1 & M1).
  apply parseOneFile_start_some in H2 as (G2 & L2 & M2).
  apply parseOneFile_start_some in H2' as (G2' & L2' & M2').
  subst done1. cbv zeta. rewrite !fileAfter_parsed in *.
  cbn [reducer memMaps loaded] in *.
  split.
  - rewrite M2, L2, (objSet_fresh p2 _ _ G2).
    split; trivial. split.
    + apply objGet_none_iff. rewrite map_app, in_app_iff. simpl.
      apply objGet_none_iff in G1. intuition.
    + apply (objGet_In p2 (mkLoadedFile (basename p2) t2 now2 m2)).
      apply in_or_app. right. now left.
  - rewrite M2', M1, <- app_assoc. reflexivity.
Qed.

Lemma concurrent_parses_lose_one_witness :
  (let both :=
     fileAfter (fst (parseOneFile_finish MoreSamples.baseName "b.hex"
                       (mkCaptured [] []) (Parsed 20 Samples.uicrHex) 21 empty))
               (fileAfter (fst (parseOneFile_finish MoreSamples.baseName "a.hex"
                                  (mkCaptured [] []) (Parsed 10 Samples.appHex) 11 empty))
                          InitialState) in
   memMaps both = memMaps InitialState ++ [("b.hex"%string, Samples.uicrHex)]
   /\ objGet "a.hex" (loaded both) = None
   /\ objGet "b.hex" (loaded both) <> None)
  /\ (let inTurn :=
        fileAfter (fst (parseOneFile_finish MoreSamples.baseName "b.hex"
                          (mkCaptured
                             [("a.hex"%string,
                               mkLoadedFile "a.hex" 10 11 Samples.appHex)]
                             [("a.hex"%string, Samples.appHex)])
                          (Parsed 20 Samples.uicrHex) 21 empty))
                  (fileAfter (fst (parseOneFile_finish MoreSamples.baseName "a.hex"
                                     (mkCaptured [] []) (Parsed 10 Samples.appHex) 11
                                     empty))
                             InitialState) in
      memMaps inTurn
      = memMaps InitialState
          ++ [("a.hex"%string, Samples.appHex); ("b.hex"%string, Samples.uicrHex)]).
Proof.
  apply (concurrent_parses_lose_one InitialState "a.hex" "b.hex"
           (mkCaptured [] []) (mkCaptured [] [])
           (mkCaptured [("a.hex"%string, mkLoadedFile "a.hex" 10 11 Samples.appHex)]
                       [("a.hex"%string, Samples.appHex)])
           MoreSamples.baseName 10 20 11 21 Samples.appHex Samples.uicrHex empty empty).
  - reflexivity.
  - reflexivity.
  - reflexivity.
  - discriminate.
Defined.

(** X16.  Loading a file and removing it again restores the file state:
    when the path is new, [removeFile] run after the completed parse
    leaves the loaded files and the memory maps as they were before. *)
Theorem parse_then_remove (state : FileState) (filePath : string) (c : Captured)
        (basename : string -> string) (mtime now : Z) (memMap : MemoryMap.t)
        (store : PersistentStore.t) :
  parseOneFile_start state filePath = Some c ->
  ~ In filePath (map fst (memMaps state)) ->
  let parsed :=
    fileAfter (fst (parseOneFile_finish basename filePath c (Parsed mtime memMap)
                                        now store)) state in
  let removed := fileAfter (removeFile parsed filePath) parsed in
  memMaps parsed = memMaps state ++ [(filePath, memMap)]
  /\ loaded removed = loaded state
  /\ memMaps removed = memMaps state.
Proof.
  intros H Hnew parsed removed.
  apply parseOneFile_start_some in H as (G & L & M).
  subst removed parsed. rewrite !fileAfter_parsed.
  unfold removeFile, fileAfter. cbn [fold_left reducer memMaps loaded].
  rewrite L, M, (objSet_fresh filePath _ _ G).
  split; trivial. split.
  - apply objDelete_added. now apply objGet_none_iff.
  - apply (objDelete_added filePath memMap (memMaps state) Hnew).
Qed.

Lemma parse_then_remove_witness :
  let parsed :=
    fileAfter (fst (parseOneFile_finish MoreSamples.baseName "uicr.hex"
                      (mkCaptured (loaded MoreSamples.oneFile)
                                  (memMaps MoreSamples.oneFile))
                      (Parsed 20 Samples.uicrHex) 21 empty))
              MoreSamples.oneFile in
  let removed := fileAfter (removeFile parsed "uicr.hex") parsed in
  memMaps parsed = memMaps MoreSamples.oneFile ++ [("uicr.hex"%string, Samples.uicrHex)]
  /\ loaded removed = loaded MoreSamples.oneFile
  /\ memMaps removed = memMaps MoreSamples.oneFile.
Proof.
  apply (parse_then_remove MoreSamples.oneFile "uicr.hex").
  - reflexivity.
  - simpl. intros [H | []]. discriminate H.
Defined.

Lemma NoDup_snoc {A : Type} (l : list A) (x : A) :
  NoDup l -> ~ In x l -> NoDup (l ++ [x]).
Proof.
  intros Hl Hx. induction Hl as [| y l Hy Hl IH]; simpl.
  - constructor; [intros [] | constructor].
  - constructor.
    + rewrite in_app_iff. simpl. intros [H | [H | []]]; [auto |].
      apply Hx. now left.
    + apply IH. intros H. apply Hx. now right.
Qed.

(** X17.  In every file state the thunks can reach, the loaded files and
    the memory maps go together: the keys of [loaded] are the paths of
    [memMaps], in the same order, and no path occurs twice. *)
Theorem loaded_and_memMaps_agree (s : FileState) :
  Reachable s ->
  map fst (loaded s) = map fst (memMaps s) /\ NoDup (map fst (memMaps s)).
Proof.
  intros H. induction H as
      [| s earlier p c basename mtime now memMap store Hs IHs He IHe Hstart
       | s p Hs IH | s Hs IH | s rs Hs IH | s names Hs IH | s files Hs IH];
    try exact IH.
  - split; [reflexivity | constructor].
  - rewrite fileAfter_parsed. cbn [reducer memMaps loaded].
    apply parseOneFile_start_some in Hstart as (G & L & M).
    destruct IHe as [Hk Hnd].
    rewrite L, M, (objSet_fresh p _ _ G), !map_app. simpl.
    rewrite Hk. split; trivial.
    apply NoDup_snoc; trivial. rewrite <- Hk. now apply objGet_none_iff.
  - destruct IH as [Hk Hnd].
    unfold removeFile, fileAfter. cbn [fold_left reducer memMaps loaded].
    unfold objDelete.
    rewrite (keys_filter (fun k => negb (String.eqb k p)) (loaded s)),
      (keys_filter (fun k => negb (String.eqb k p)) (memMaps s)), Hk.
    split; trivial. now apply NoDup_filter.
  - split; [reflexivity | constructor].
Qed.

Lemma loaded_and_memMaps_agree_witness :
  let parsed :=
    fileAfter (fst (parseOneFile_finish MoreSamples.baseName "app.hex"
                                        (mkCaptured [] []) (Parsed 100 Samples.appHex)
                                        200 PersistentStore.empty))
              InitialState in
  map fst (loaded parsed) = map fst (memMaps parsed)
  /\ NoDup (map fst (memMaps parsed)).
Proof.
  apply (loaded_and_memMaps_agree
           (fileAfter (fst (parseOneFile_finish MoreSamples.baseName "app.hex"
                                                (mkCaptured [] [])
                                                (Parsed 100 Samples.appHex)
                                                200 PersistentStore.empty))
                      InitialState)).
  apply (ReachParsed InitialState InitialState).
  - apply ReachInitial.
  - apply ReachInitial.
  - reflexivity.
Defined.

End FileThunkProperties.

(** ** [checkUpToDateFiles] *)

Module CheckProperties.
Import PersistentStore Mru FileThunks MruProperties FileThunkProperties
       CheckStatements.

Lemma changedFiles_none_iff (stat : string -> option Z)
      (entries : list (string * LoadedFile)) :
  changedFiles stat entries = None <->
  exists entry, In entry entries /\ stat (fst entry) = None.
Proof.
  induction entries as [| [p e] entries IH]; simpl.
  - split; [discriminate | intros (x & [] & _)].
  - destruct (stat p) as [mtime |] eqn:Es.
    + destruct (changedFiles stat entries) as [changed |].
      * split.
        -- destruct (loadTime e <? mtime); discriminate.
        -- intros (x & [<- | Hin] & Hx); [simpl in Hx; congruence |].
           assert (H : Some changed = None) by (apply IH; eauto).
           discriminate H.
      * split; [| trivial]. intros _.
        destruct (proj1 IH eq_refl) as (x & Hin & Hx). eauto.
    + split; [| trivial]. intros _. exists (p, e). auto.
Qed.

Lemma refresh_shows_no_dialog (state : FileState) (statSync : string -> JsErr + Z) :
  ~ dialogShown (fst (refreshAllFiles state statSync)).
Proof.
  unfold refreshAllFiles. cbn [fst]. intros (t & fs & Hin).
  apply in_flat_map in Hin as (run & Hrun & Hin).
  apply in_map_iff in Hrun as ([p e] & <- & _).
  unfold refreshOne in Hin. cbn [fst snd] in Hin.
  destruct (statSync p) as [err | mtime]; cbn [fst] in Hin.
  - destruct Hin as [H | [H | []]]; discriminate H.
  - destruct (loadTime e <? mtime); cbn [fst] in Hin;
      destruct Hin as [H | []]; discriminate H.
Qed.

(** The run of the dialog. *)
Lemma answerDialog_run (state : FileState) (statSync : string -> JsErr + Z)
      (store : PersistentStore.t) (timestamp : option Z) (filenames : list string)
      (button : Z) (doNotAskAgain : bool) :
  let run := answerDialog state statSync store
                          [ShowMessageBox timestamp filenames] button doNotAskAgain in
  dialogShown (checkEvents run)
  /\ (settled run = Rejected <-> button <> 0 /\ button <> 1)
  /\ settled run <> Pending
  /\ storeAfter run
     = if doNotAskAgain
       then setBehaviour store (if button =? 0 then "ignore" else "reload")
       else store.
Proof.
  unfold answerDialog.
  destruct (Z.eqb_spec button 0) as [-> | H0]; cbn [settled checkEvents storeAfter].
  - split; [exists timestamp, filenames; now left |].
    split; [split; [discriminate | lia] |]. split; [discriminate | trivial].
  - destruct (Z.eqb_spec button 1) as [-> | H1]; cbn [settled checkEvents storeAfter].
    + split; [exists timestamp, filenames; now left |].
      split; [split; [discriminate | lia] |]. split; [discriminate | trivial].
    + split; [exists timestamp, filenames; now left |].
      split; [tauto |]. split; [discriminate | trivial].
Qed.

(** With an answer in the store no question is asked. *)
Lemma check_spared (state later : FileState) (stat : string -> option Z)
      (statSync : string -> JsErr + Z) (store : PersistentStore.t)
      (button : Z) (doNotAskAgain : bool) :
  storedBehaviour store = Some "ignore"%string
  \/ storedBehaviour store = Some "reload"%string ->
  let run :=
    checkUpToDateFiles state later stat statSync store button doNotAskAgain in
  ~ dialogShown (checkEvents run)
  /\ settled run <> Rejected
  /\ storeAfter run = store.
Proof.
  intros Hb run. subst run. unfold checkUpToDateFiles.
  destruct (changedFiles stat (loaded state)) as [changed |];
    cbn [settled checkEvents storeAfter];
    [| split; [intros (t & fs & []) | split; [discriminate | trivial]]].
  destruct (truthyNames changed) as [| f fs];
    cbn [settled checkEvents storeAfter];
    [split; [intros (t & fs & []) | split; [discriminate | trivial]] |].
  destruct Hb as [-> | ->]; simpl String.eqb; cbn [settled checkEvents storeAfter].
  - split; [intros (t & fs0 & []) | split; [discriminate | trivial]].
  - split; [apply refresh_shows_no_dialog | split; [discriminate | trivial]].
Qed.

(** The outcomes of [checkUpToDateFiles], in terms of the list of
    changed files that its first [then] receives. *)
Lemma check_cases (state later : FileState) (stat : string -> option Z)
        (statSync : string -> JsErr + Z) (store : PersistentStore.t)
        (button : Z) (doNotAskAgain : bool) :
  let run :=
    checkUpToDateFiles state later stat statSync store button doNotAskAgain in
  (settled run = Pending <->
   exists entry, In entry (loaded state) /\ stat (fst entry) = None)
  /\ (dialogShown (checkEvents run) <->
      exists changed,
        changedFiles stat (loaded state) = Some changed
        /\ truthyNames changed <> [] /\ mustAsk store)
  /\ (settled run = Rejected <->
      dialogShown (checkEvents run) /\ button <> 0 /\ button <> 1)
  /\ (storeAfter run <> store ->
      dialogShown (checkEvents run) /\ doNotAskAgain = true).
Proof.
  intros run. subst run. unfold checkUpToDateFiles.
  rewrite <- changedFiles_none_iff.
  destruct (changedFiles stat (loaded state)) as [changed |];
    cbn [settled checkEvents storeAfter].
  2:{ split; [tauto |]. split.
      - split; [intros (t & fs & []) | intros (c & H & _); discriminate H].
      - split; [split; [discriminate | intros [(t & fs & []) _]] |].
        intros H. now contradiction H. }
  assert (Hquiet : forall (s : Settled) (ev : list Event),
             s = Fulfilled -> ~ dialogShown ev ->
             ~ (truthyNames changed <> [] /\ mustAsk store) ->
             (s = Pending <-> @Some (list (string * Z)) changed = None)
             /\ (dialogShown ev <->
                 exists changed0,
                   Some changed = Some changed0
                   /\ truthyNames changed0 <> [] /\ mustAsk store)
             /\ (s = Rejected <-> dialogShown ev /\ button <> 0 /\ button <> 1)
             /\ (store <> store -> dialogShown ev /\ doNotAskAgain = true)).
  { intros s ev -> Hev Hno.
    split; [split; discriminate |]. split.
    - split; [contradiction |].
      intros (c0 & E & H). injection E as <-. contradiction.
    - split; [split; [discriminate | tauto] |].
      intros H. now contradiction H. }
  destruct (truthyNames changed) as [| f fs] eqn:Et.
  { cbn [settled checkEvents storeAfter]. apply Hquiet; trivial.
    - intros (t & fs & []).
    - try rewrite Et. tauto. }
  assert (Hask : mustAsk store ->
          let run := answerDialog later statSync store
                                  [ShowMessageBox (newest changed) (f :: fs)]
                                  button doNotAskAgain in
          (settled run = Pending <-> @Some (list (string * Z)) changed = None)
          /\ (dialogShown (checkEvents run) <->
              exists changed0,
                Some changed = Some changed0
                /\ truthyNames changed0 <> [] /\ mustAsk store)
          /\ (settled run = Rejected <->
              dialogShown (checkEvents run) /\ button <> 0 /\ button <> 1)
          /\ (storeAfter run <> store ->
              dialogShown (checkEvents run) /\ doNotAskAgain = true)).
  { intros Hmust run.
    destruct (answerDialog_run later statSync store (newest changed) (f :: fs)
                               button doNotAskAgain) as (Hs & Hr & Hp & Hst).
    fold run in Hs, Hr, Hp, Hst.
    split; [split; [contradiction | discriminate] |]. split.
    - split; [| trivial]. intros _. exists changed. rewrite Et.
      split; trivial. split; [discriminate | trivial].
    - split; [tauto |]. intros H. split; trivial.
      destruct doNotAskAgain; trivial. now contradiction H. }
  unfold mustAsk in *.
  destruct (storedBehaviour store) as [behaviour |] eqn:Eb.
  - destruct (String.eqb_spec behaviour "ignore") as [-> | Hi].
    + cbn [settled checkEvents storeAfter]. apply Hquiet; trivial.
      * intros (t & fs0 & []).
      * intros (_ & H & _). now contradiction H.
    + destruct (String.eqb_spec behaviour "reload") as [-> | Hr].
      * cbn [settled checkEvents storeAfter]. apply Hquiet; trivial.
        -- apply refresh_shows_no_dialog.
        -- intros (_ & _ & H). now contradiction H.
      * apply Hask. split; congruence.
  - apply Hask. split; discriminate.
Qed.

(** What [changedFiles] lists: the loaded files whose modification time
    on disk is later than the time they were loaded at. *)
Lemma changedFiles_spec (stat : string -> option Z)
      (entries : list (string * LoadedFile)) (changed : list (string * Z)) :
  changedFiles stat entries = Some changed ->
  forall path mtime,
    In (path, mtime) changed <->
    exists entry,
      In (path, entry) entries /\ stat path = Some mtime /\ loadTime entry < mtime.
Proof.
  revert changed. induction entries as [| [p e] entries IH]; intros changed H.
  - injection H as <-. intros path mtime. split; [intros [] |].
    now intros (entry & [] & _).
  - simpl in H. destruct (stat p) as [m |] eqn:Es; [| discriminate H].
    destruct (changedFiles stat entries) as [rest |]; [| discriminate H].
    specialize (IH rest eq_refl). intros path mtime.
    destruct (Z.ltb_spec (loadTime e) m) as [Hlt | Hge]; injection H as <-.
    + simpl. rewrite IH. split.
      * intros [Heq | (entry & Hin & Hs & Ht)].
        -- injection Heq as <- <-. exists e. auto.
        -- exists entry. auto.
      * intros (entry & [Heq | Hin] & Hs & Ht).
        -- injection Heq as <- <-. left. congruence.
        -- right. exists entry. auto.
    + rewrite IH. split.
      * intros (entry & Hin & Hs & Ht). exists entry. simpl. auto.
      * intros (entry & [Heq | Hin] & Hs & Ht).
        -- injection Heq as <- <-. rewrite Es in Hs. injection Hs as <-. lia.
        -- exists entry. auto.
Qed.

Lemma truthyNames_spec (changed : list (string * Z)) :
  truthyNames changed <> [] <->
  exists path mtime, In (path, mtime) changed /\ path <> ""%string.
Proof.
  unfold truthyNames. induction changed as [| [p m] changed IH]; simpl.
  - split; [congruence | intros (? & ? & [] & _)].
  - destruct (String.eqb_spec p "") as [-> | Hp]; simpl.
    + rewrite IH. split.
      * intros (path & mtime & Hin & Hne). exists path, mtime. auto.
      * intros (path & mtime & [Heq | Hin] & Hne).
        -- injection Heq as <- <-. congruence.
        -- exists path, mtime. auto.
    + split; [| discriminate]. intros _. exists p, m. auto.
Qed.

(** X18.  [checkUpToDateFiles] stays pending exactly when a [stat] fails;
    it shows the message box exactly when every [stat] succeeds, some
    loaded file of non-empty path has a modification time on disk later
    than the time it was loaded at, and the store holds neither
    ['ignore'] nor ['reload']; it rejects exactly
    when the box is shown and answered with a button other than the first
    two; and it writes to the store only when the box is shown with
    "don't ask again" ticked. *)
Theorem check_outcomes (state later : FileState) (stat : string -> option Z)
        (statSync : string -> JsErr + Z) (store : PersistentStore.t)
        (button : Z) (doNotAskAgain : bool) :
  let run :=
    checkUpToDateFiles state later stat statSync store button doNotAskAgain in
  (settled run = Pending <->
   exists entry, In entry (loaded state) /\ stat (fst entry) = None)
  /\ (dialogShown (checkEvents run) <->
      (forall entry, In entry (loaded state) -> stat (fst entry) <> None)
      /\ (exists path entry mtime,
            In (path, entry) (loaded state)
            /\ path <> ""%string
            /\ stat path = Some mtime
            /\ loadTime entry < mtime)
      /\ storedBehaviour store <> Some "ignore"%string
      /\ storedBehaviour store <> Some "reload"%string)
  /\ (settled run = Rejected <->
      dialogShown (checkEvents run) /\ button <> 0 /\ button <> 1)
  /\ (storeAfter run <> store ->
      dialogShown (checkEvents run) /\ doNotAskAgain = true).
Proof.
  intros run.
  destruct (check_cases state later stat statSync store button doNotAskAgain)
    as (Hpending & Hshown & Hrejected & Hstore).
  fold run in Hpending, Hshown, Hrejected, Hstore.
  split; [exact Hpending |]. split; [| split; assumption].
  rewrite Hshown. unfold mustAsk. split.
  - intros (changed & Hc & Hnames & Hmust).
    split.
    { intros entry Hin Hnone.
      assert (H : changedFiles stat (loaded state) = None)
        by (apply changedFiles_none_iff; eauto).
      congruence. }
    split; [| exact Hmust].
    apply truthyNames_spec in Hnames as (path & mtime & Hin & Hne).
    apply (changedFiles_spec stat (loaded state) changed Hc) in Hin
      as (entry & Hin & Hs & Ht).
    exists path, entry, mtime. auto.
  - intros (Hall & (path & entry & mtime & Hin & Hne & Hs & Ht) & Hmust).
    destruct (changedFiles stat (loaded state)) as [changed |] eqn:Hc.
    + exists changed. split; trivial. split; [| exact Hmust].
      apply truthyNames_spec. exists path, mtime. split; trivial.
      apply (changedFiles_spec stat (loaded state) changed Hc). eauto.
    + apply changedFiles_none_iff in Hc as (bad & Hbad & Hnone).
      now destruct (Hall bad Hbad).
Qed.


(** X19.  Once the message box has been answered with "don't ask again"
    ticked, it is never shown again: the store then holds ['ignore'] for
    the first button and ['reload'] for every other one, Cancel included,
    and every later check is fulfilled or pending without a question and
    leaves the store as it is. *)
Theorem dont_ask_again (state later : FileState) (stat : string -> option Z)
        (statSync : string -> JsErr + Z) (store : PersistentStore.t) (button : Z) :
  let first := checkUpToDateFiles state later stat statSync store button true in
  dialogShown (checkEvents first) ->
  storedBehaviour (storeAfter first)
  = Some (if button =? 0 then "ignore"%string else "reload"%string)
  /\ forall state' later' stat' statSync' button' doNotAskAgain',
       let next :=
         checkUpToDateFiles state' later' stat' statSync' (storeAfter first)
                            button' doNotAskAgain' in
       ~ dialogShown (checkEvents next)
       /\ settled next <> Rejected
       /\ storeAfter next = storeAfter first.
Proof.
  intros first Hshown.
  assert (Hstore : storedBehaviour (storeAfter first)
                   = Some (if button =? 0 then "ignore"%string else "reload"%string)).
  { subst first. unfold checkUpToDateFiles in *.
    destruct (changedFiles stat (loaded state)) as [changed |];
      [| destruct Hshown as (t & fs & [])].
    destruct (truthyNames changed) as [| f fs];
      [destruct Hshown as (t & fs & []) |].
    assert (Hask : storedBehaviour
                     (storeAfter (answerDialog later statSync store
                                    [ShowMessageBox (newest changed) (f :: fs)]
                                    button true))
                   = Some (if button =? 0 then "ignore"%string else "reload"%string)).
    { destruct (answerDialog_run later statSync store (newest changed) (f :: fs)
                                 button true) as (_ & _ & _ & ->).
      reflexivity. }
    destruct (storedBehaviour store) as [behaviour |]; trivial.
    destruct (String.eqb behaviour "ignore");
      [destruct Hshown as (t & fs0 & []) |].
    destruct (String.eqb behaviour "reload"); trivial.
    exfalso. now apply (refresh_shows_no_dialog later statSync). }
  split; trivial.
  intros state' later' stat' statSync' button' dna' next.
  apply check_spared. rewrite Hstore.
  destruct (button =? 0); [left | right]; reflexivity.
Qed.

Lemma dont_ask_again_witness :
  storedBehaviour
    (storeAfter (checkUpToDateFiles MoreSamples.oneFile MoreSamples.oneFile
                   MoreSamples.modified MoreSamples.modifiedSync empty 2 true))
  = Some (if 2 =? 0 then "ignore"%string else "reload"%string)
  /\ forall state' later' stat' statSync' button' doNotAskAgain',
       let next :=
         checkUpToDateFiles state' later' stat' statSync'
           (storeAfter (checkUpToDateFiles MoreSamples.oneFile MoreSamples.oneFile
                          MoreSamples.modified MoreSamples.modifiedSync empty 2 true))
           button' doNotAskAgain' in
       ~ dialogShown (checkEvents next)
       /\ settled next <> Rejected
       /\ storeAfter next
          = storeAfter (checkUpToDateFiles MoreSamples.oneFile MoreSamples.oneFile
                          MoreSamples.modified MoreSamples.modifiedSync empty 2 true).
Proof.
  apply (dont_ask_again MoreSamples.oneFile MoreSamples.oneFile
           MoreSamples.modified MoreSamples.modifiedSync empty 2).
  exists (Some 300), ["app.hex"%string]. left. reflexivity.
Defined.

(** With nothing changed on disk the check is fulfilled in silence. *)
Example check_untouched :
  checkUpToDateFiles MoreSamples.oneFile MoreSamples.oneFile
                     MoreSamples.untouched MoreSamples.modifiedSync empty 2 true
  = mkCheckRun Fulfilled [] [] empty.
Proof. reflexivity. Qed.

End CheckProperties.

(** * [openFile] *)

Module OpenFileProperties.
Import PersistentStore Mru FileThunks MruProperties FileThunkProperties
       CheckStatements.

(** X20.  [openFile] loads the list of recently used files from the store
    before the callbacks of the parse have run: when the file is new,
    the store has it in front of the list once the parse has completed,
    while the list in the state is the one from before, without it. *)
Theorem openFile_mru_is_stale (state : FileState) (filename : string)
        (store : PersistentStore.t) (c : Captured) (basename : string -> string)
        (mtime now : Z) (memMap : MemoryMap.t) :
  parseOneFile_start state filename = Some c ->
  ~ In filename (getMruFiles store) ->
  let opened := openFile state filename store in
  let finished :=
    parseOneFile_finish basename filename c (Parsed mtime memMap) now store in
  let final := fileAfter (snd opened ++ fst finished) state in
  fst opened = Some c
  /\ mruFiles final = getMruFiles store
  /\ ~ In filename (mruFiles final)
  /\ getMruFiles (snd finished) = filename :: firstn 9 (getMruFiles store).
Proof.
  intros Hstart Hnew opened finished final.
  assert (Hm : mruFiles final = getMruFiles store).
  { subst final opened finished. rewrite fileAfter_app, fileAfter_parsed.
    reflexivity. }
  split; [exact Hstart |]. split; trivial. split; [now rewrite Hm |].
  subst finished. cbn [parseOneFile_finish snd].
  unfold addMruFile. apply arrayIndexOf_absent in Hnew. rewrite Hnew.
  reflexivity.
Qed.

Lemma openFile_mru_is_stale_witness :
  let opened := openFile InitialState "a.hex" empty in
  let finished :=
    parseOneFile_finish MoreSamples.baseName "a.hex" (mkCaptured [] [])
                        (Parsed 10 Samples.appHex) 11 empty in
  let final := fileAfter (snd opened ++ fst finished) InitialState in
  fst opened = Some (mkCaptured [] [])
  /\ mruFiles final = getMruFiles empty
  /\ ~ In "a.hex"%string (mruFiles final)
  /\ getMruFiles (snd finished) = "a.hex"%string :: firstn 9 (getMruFiles empty).
Proof.
  apply (openFile_mru_is_stale InitialState "a.hex" empty (mkCaptured [] [])).
  - reflexivity.
  - intros [].
Defined.

End OpenFileProperties.

(** * [updateFileRegions] *)

Module RegionsThunkProperties.

Import MemoryMap FileActions RegionsThunk.

(** Every range of [overlapMemoryMaps] has a contribution. *)
Lemma overlap_entries_nonempty (maps : list (string * t)) (s : Z)
      (tuples : list (string * list byte)) :
  In (s, tuples) (overlapMemoryMaps maps) -> tuples <> [].
Proof.
  unfold overlapMemoryMaps. rewrite in_flat_map. intros [r [_ Hin]].
  unfold overlapRange in Hin.
  destruct (contributions maps (fst r) (snd r)) eqn:E; [destruct Hin |].
  destruct Hin as [Heq | []]. injection Heq as _ <-. discriminate.
Qed.

Lemma outsideFlashBlocks_spec (base : option Z) (rom page : Z) (overlaps : Overlaps) :
  (forall s tuples, In (s, tuples) overlaps -> tuples <> []) ->
  exists blocks,
    outsideFlashBlocks base rom page overlaps = Ok blocks
    /\ forall s e,
         In (s, e) blocks <->
         exists source bytes more,
           In (s, (source, bytes) :: more) overlaps
           /\ e = s + Z.of_nat (length bytes)
           /\ outside base rom page s e = true.
Proof.
  induction overlaps as [| [s0 overlap] rest IH]; intros Hne.
  - exists []. split; trivial. intros s e. split; [intros [] |].
    now intros (? & ? & ? & [] & _).
  - destruct IH as (blocks & Hok & Hspec).
    { intros s tuples Hin. apply (Hne s). now right. }
    destruct overlap as [| [source0 bytes0] more0].
    { now destruct (Hne s0 []); [left |]. }
    simpl. rewrite Hok.
    eexists. split; [reflexivity |]. intros s e.
    destruct (outside base rom page s0 (s0 + Z.of_nat (length bytes0))) eqn:Eo.
    + simpl. rewrite Hspec. split.
      * intros [Heq | (source & bytes & more & Hin & He & Ho)].
        -- injection Heq as <- <-. exists source0, bytes0, more0. auto.
        -- exists source, bytes, more. auto.
      * intros (source & bytes & more & [Heq | Hin] & He & Ho).
        -- injection Heq as <- _ <- _. left. now rewrite He.
        -- right. exists source, bytes, more. auto.
    + rewrite Hspec. split.
      * intros (source & bytes & more & Hin & He & Ho).
        exists source, bytes, more. auto.
      * intros (source & bytes & more & [Heq | Hin] & He & Ho).
        -- injection Heq as <- _ <- _. subst e. congruence.
        -- exists source, bytes, more. auto.
Qed.

(** What the condition of the source amounts to on a device whose
    configuration page lies above the flash. *)
Lemma outside_meaning (base rom page s e : Z) :
  rom <= base -> 0 <= page ->
  outside (Some base) rom page s e = true
  <-> ~ e <= rom /\ ~ (base <= s /\ e <= base + page).
Proof.
  intros Hrom Hpage. unfold outside.
  rewrite orb_true_iff, !andb_true_iff, !Z.ltb_lt, Z.leb_le. lia.
Qed.

Lemma in_file_actions (w : Warning) (acts : list Action) :
  ~ In (AddFileWarning w) (map FileAction acts).
Proof. rewrite in_map_iff. now intros (a & Heq & _). Qed.

(** The warning about data outside the flash is the list computed by the
    loop, when that list is not empty. *)
Lemma outside_dispatched
      (getFileRegions : list (string * MemoryMap.t) -> DeviceInfo -> list Region)
      (base : option Z) (st : AppState) (blocks reported : list (Z * Z)) :
  outsideFlashBlocks base (romSize (deviceInfo (target st)))
                     (pageSize (deviceInfo (target st)))
                     (overlapMemoryMaps (memMaps (file st))) = Ok blocks ->
  In (AddFileWarning (OutsideFlash reported))
     (dispatches (updateFileRegions getFileRegions base st))
  <-> reported = blocks /\ blocks <> [].
Proof.
  intros Hok. unfold updateFileRegions. rewrite Hok.
  set (regions := getFileRegions _ _).
  set (st1 := appReducer st _).
  rewrite (ThunkFacts.updateFileBlRegion_never_throws st1).
  cbn [dispatches]. cbn [In]. rewrite !in_app_iff. cbn [In].
  assert (Hov : forall l, l = match find sharedByFiles regions with
                              | Some _ => [AddFileWarning OverlappingData]
                              | None => []
                              end ->
                          ~ In (AddFileWarning (OutsideFlash reported)) l).
  { intros l ->. destruct (find sharedByFiles regions); simpl; [| tauto].
    intros [H | []]. discriminate H. }
  specialize (Hov _ eq_refl).
  pose proof (in_file_actions (OutsideFlash reported)) as Hfa.
  split.
  - intros [H | [H | [H | [[H | []] | [H | H]]]]];
      try discriminate H; try (now apply Hov in H); try (now apply Hfa in H).
    destruct blocks; [destruct H |]. destruct H as [H | []].
    injection H as <-. split; [reflexivity | discriminate].
  - intros [-> Hne]. right. right. left.
    destruct blocks; [congruence | now left].
Qed.

(** X21.  On a device whose [uicrBaseAddr] is not below its ROM size,
    [updateFileRegions] does not raise, and the warning about data
    outside the user-writable areas lists exactly the ranges of the
    overlaps of the loaded files that fit neither below the ROM size nor
    in the page that starts at [uicrBaseAddr]; when the device record
    has no [uicrBaseAddr], nothing is listed. *)
Theorem outside_warning
        (getFileRegions : list (string * MemoryMap.t) -> DeviceInfo -> list Region)
        (uicrBaseAddr : option Z) (st : AppState) :
  (forall base, uicrBaseAddr = Some base -> romSize (deviceInfo (target st)) <= base) ->
  0 <= pageSize (deviceInfo (target st)) ->
  let run := updateFileRegions getFileRegions uicrBaseAddr st in
  failure run = None
  /\ forall s e,
       reportedOutside run s e <->
       exists base source bytes more,
         uicrBaseAddr = Some base
         /\ In (s, (source, bytes) :: more) (overlapMemoryMaps (memMaps (file st)))
         /\ e = s + Z.of_nat (length bytes)
         /\ ~ e <= romSize (deviceInfo (target st))
         /\ ~ (base <= s /\ e <= base + pageSize (deviceInfo (target st))).
Proof.
  intros Hrom Hpage run.
  destruct (outsideFlashBlocks_spec uicrBaseAddr
              (romSize (deviceInfo (target st))) (pageSize (deviceInfo (target st)))
              (overlapMemoryMaps (memMaps (file st))))
    as (blocks & Hok & Hspec).
  { intros s tuples. apply overlap_entries_nonempty. }
  split.
  - subst run. unfold updateFileRegions. rewrite Hok.
    rewrite ThunkFacts.updateFileBlRegion_never_throws.
    apply AppRegionFacts.updateFileAppRegions_never_throws.
  - intros s e. unfold reportedOutside. subst run. split.
    + intros (reported & Hin & Hse).
      apply (outside_dispatched getFileRegions uicrBaseAddr st blocks) in Hin;
        trivial.
      destruct Hin as [-> _]. apply Hspec in Hse.
      destruct Hse as (source & bytes & more & Hin & He & Ho).
      destruct uicrBaseAddr as [base |]; [| discriminate Ho].
      apply outside_meaning in Ho; auto.
      exists base, source, bytes, more. tauto.
    + intros (base & source & bytes & more & -> & Hin & He & H1 & H2).
      exists blocks.
      assert (Hse : In (s, e) blocks).
      { apply Hspec. exists source, bytes, more. repeat split; trivial.
        apply outside_meaning; auto. }
      split; trivial.
      apply (outside_dispatched getFileRegions (Some base) st blocks); trivial.
      split; trivial. intros ->. destruct Hse.
Qed.

Lemma outside_warning_witness :
  let run := updateFileRegions (fun _ _ => []) (Some 0x10001000) Samples.withHighData in
  failure run = None
  /\ forall s e,
       reportedOutside run s e <->
       exists base source bytes more,
         Some 0x10001000 = Some base
         /\ In (s, (source, bytes) :: more)
               (overlapMemoryMaps (memMaps (file Samples.withHighData)))
         /\ e = s + Z.of_nat (length bytes)
         /\ ~ e <= romSize (deviceInfo (target Samples.withHighData))
         /\ ~ (base <= s
               /\ e <= base + pageSize (deviceInfo (target Samples.withHighData))).
Proof.
  apply (outside_warning (fun _ _ => []) (Some 0x10001000) Samples.withHighData).
  - intros base H. injection H as <-. vm_compute. discriminate.
  - vm_compute. discriminate.
Defined.

(** The byte of [high.hex] lies above the configuration page: it is
    reported, and the application data is not. *)
Example high_data_reported :
  dispatches (updateFileRegions (fun _ _ => []) (Some 0x10001000) Samples.withHighData)
  = [FileWarningRemove;
     AddFileWarning (OutsideFlash [(0x10002000, 0x10002001)]);
     FileAction (FILE_REGIONS_KNOWN []);
     FileAction (FILE_REGION_NAMES_KNOWN [])].
Proof. reflexivity. Qed.

(** *** Running the thunk again *)

Lemma sameButNames_step (a b : AppState) (act : Action) :
  sameButNames a b -> sameButNames (appReducer a act) (appReducer b act).
Proof.
  intros (Ht & Hl & Hm & Hr & Hf). unfold sameButNames.
  destruct act; simpl; auto.
Qed.

Lemma sameButNames_fold (acts : list Action) (a b : AppState) :
  sameButNames a b ->
  sameButNames (fold_left appReducer acts a) (fold_left appReducer acts b).
Proof.
  revert a b. induction acts as [| act acts IH]; intros a b H; simpl; trivial.
  apply IH. now apply sameButNames_step.
Qed.

(** Once the names are dispatched, nothing tells the two stores apart. *)
Lemma names_level (acts : list Action) (names : list RegionName) (a b : AppState) :
  sameButNames a b -> In (FILE_REGION_NAMES_KNOWN names) acts ->
  fold_left appReducer acts a = fold_left appReducer acts b.
Proof.
  revert a b. induction acts as [| act acts IH]; intros a b H Hin; [destruct Hin |].
  simpl. destruct Hin as [-> | Hin].
  - f_equal. destruct H as (Ht & Hl & Hm & Hr & Hf).
    destruct a as [fa ta], b as [fb tb]. simpl in *. subst tb.
    unfold appReducer. simpl. now rewrite Hl, Hm, Hr, Hf.
  - apply IH; trivial. now apply sameButNames_step.
Qed.

(** The region thunks read the regions and the target, nothing else. *)
Lemma updateFileBlRegion_reads (a b : AppState) :
  sameButNames a b -> updateFileBlRegion a = updateFileBlRegion b.
Proof.
  intros (Ht & _ & _ & Hr & _). unfold updateFileBlRegion. now rewrite Ht, Hr.
Qed.

Lemma updateFileAppRegions_reads (a b : AppState) :
  sameButNames a b -> updateFileAppRegions a = updateFileAppRegions b.
Proof.
  intros (Ht & _ & _ & Hr & _). unfold updateFileAppRegions. now rewrite Ht, Hr.
Qed.

Lemma updateFileBlRegion_regionsOnly (st : AppState) :
  forallb regionsOnly (dispatched (updateFileBlRegion st)) = true.
Proof.
  unfold updateFileBlRegion.
  destruct (find (hasName BOOTLOADER) (regions (file st))) as [bl |]; trivial.
  now destruct (blSweep bl (romSize (deviceInfo (target st))) (regions (file st))).
Qed.

Lemma updateFileAppRegions_actions (st : AppState) :
  forallb regionsOnly (dispatched (updateFileAppRegions st)) = true
  /\ exists names, In (FILE_REGION_NAMES_KNOWN names) (dispatched (updateFileAppRegions st)).
Proof.
  unfold updateFileAppRegions.
  set (rs := regions (file st)).
  set (fsd := find (hasName SOFTDEVICE) rs).
  set (tsd := find (hasName SOFTDEVICE) (targetRegions (target st))).
  set (tbl := find (hasName BOOTLOADER) (targetRegions (target st))).
  destruct (AppRegionFacts.labelApp_shape rs fsd tsd (pageSize (deviceInfo (target st))))
    as [E1 | [rs1 E1]]; rewrite E1;
    [destruct (AppRegionFacts.unlabelApp_shape rs fsd tsd) as [E2 | [rs2 E2]]
    | destruct (AppRegionFacts.unlabelApp_shape rs1 fsd tsd) as [E2 | [rs2 E2]]];
    rewrite E2;
    match goal with
    | |- context [mergeApp ?l ?b ?s] =>
        destruct (AppRegionFacts.mergeApp_cases l b s)
          as [Em | (bl & s0 & e & a & pre & suf & _ & _ & _ & _ & _ & _ & Em)];
        [destruct (mergeApp l b s) as [out3 err]; simpl in Em; subst out3
        | rewrite Em]
    end; simpl; (split; [reflexivity | eexists; eauto 6]).
Qed.

(** Actions on the regions and their names leave the rest of the store. *)
Lemma regionsOnly_keeps (acts : list Action) (st : AppState) :
  forallb regionsOnly acts = true ->
  target (fold_left appReducer acts st) = target st
  /\ loaded (file (fold_left appReducer acts st)) = loaded (file st)
  /\ memMaps (file (fold_left appReducer acts st)) = memMaps (file st)
  /\ mruFiles (file (fold_left appReducer acts st)) = mruFiles (file st).
Proof.
  revert st. induction acts as [| act acts IH]; intros st H; simpl; auto.
  simpl in H. apply andb_true_iff in H as [Hact H].
  destruct (IH (appReducer st act) H) as (Ht & Hl & Hm & Hf).
  rewrite Ht, Hl, Hm, Hf. now destruct act.
Qed.

Lemma fold_file_actions (acts : list Action) (st : AppState) :
  fold_left (fun s d => match d with
                        | FileAction a => appReducer s a
                        | _ => s
                        end) (map FileAction acts) st
  = fold_left appReducer acts st.
Proof.
  revert st. induction acts as [| a acts IH]; intros st; simpl; auto.
Qed.

Section Run.

Variable getFileRegions : list (string * MemoryMap.t) -> DeviceInfo -> list Region.
Variable uicrBaseAddr : option Z.

(** The run as a whole: it does not raise, and the store it leaves is
    the one the two region thunks make of the fresh region list. *)
Lemma updateFileRegions_run (st : AppState) :
  let fresh :=
    appReducer st (fileRegionsKnownAction
                     (getFileRegions (memMaps (file st)) (deviceInfo (target st)))) in
  failure (updateFileRegions getFileRegions uicrBaseAddr st) = None
  /\ afterRun st (updateFileRegions getFileRegions uicrBaseAddr st) = coalesce fresh.
Proof.
  intros fresh.
  destruct (outsideFlashBlocks_spec uicrBaseAddr
              (romSize (deviceInfo (target st))) (pageSize (deviceInfo (target st)))
              (overlapMemoryMaps (memMaps (file st))))
    as (blocks & Hok & _).
  { intros s tuples. apply overlap_entries_nonempty. }
  unfold afterRun, updateFileRegions. rewrite Hok. fold fresh.
  rewrite ThunkFacts.updateFileBlRegion_never_throws.
  split; [apply AppRegionFacts.updateFileAppRegions_never_throws |].
  cbn [dispatches failure]. cbn [fold_left].
  rewrite !fold_left_app, !fold_file_actions. unfold coalesce, afterThunk.
  destruct (find sharedByFiles _); destruct blocks; reflexivity.
Qed.

Lemma fresh_sameButNames (a b : AppState) :
  target a = target b -> loaded (file a) = loaded (file b) ->
  memMaps (file a) = memMaps (file b) -> mruFiles (file a) = mruFiles (file b) ->
  sameButNames
    (appReducer a (fileRegionsKnownAction
                     (getFileRegions (memMaps (file a)) (deviceInfo (target a)))))
    (appReducer b (fileRegionsKnownAction
                     (getFileRegions (memMaps (file b)) (deviceInfo (target b))))).
Proof.
  intros Ht Hl Hm Hf. unfold sameButNames. simpl. now rewrite Ht, Hl, Hm, Hf.
Qed.

Lemma updateFileRegions_reads (a b : AppState) :
  target a = target b -> loaded (file a) = loaded (file b) ->
  memMaps (file a) = memMaps (file b) -> mruFiles (file a) = mruFiles (file b) ->
  dispatches (updateFileRegions getFileRegions uicrBaseAddr a)
  = dispatches (updateFileRegions getFileRegions uicrBaseAddr b).
Proof.
  intros Ht Hl Hm Hf.
  pose proof (fresh_sameButNames a b Ht Hl Hm Hf) as Hfresh.
  unfold updateFileRegions.
  set (fa := appReducer a _) in *. set (fb := appReducer b _) in *.
  rewrite (updateFileBlRegion_reads fa fb Hfresh).
  rewrite (updateFileAppRegions_reads (afterThunk fa (updateFileBlRegion fb))
                                      (afterThunk fb (updateFileBlRegion fb)))
    by (now apply sameButNames_fold).
  now rewrite Ht, Hm.
Qed.

Lemma coalesce_keeps (st : AppState) :
  target (coalesce st) = target st
  /\ loaded (file (coalesce st)) = loaded (file st)
  /\ memMaps (file (coalesce st)) = memMaps (file st)
  /\ mruFiles (file (coalesce st)) = mruFiles (file st).
Proof.
  unfold coalesce, afterThunk.
  destruct (regionsOnly_keeps (dispatched (updateFileBlRegion st)) st
              (updateFileBlRegion_regionsOnly st)) as (Ht & Hl & Hm & Hf).
  set (st1 := fold_left appReducer (dispatched (updateFileBlRegion st)) st) in *.
  destruct (regionsOnly_keeps (dispatched (updateFileAppRegions st1)) st1
              (proj1 (updateFileAppRegions_actions st1))) as (Ht' & Hl' & Hm' & Hf').
  rewrite Ht', Hl', Hm', Hf'. auto.
Qed.

Lemma coalesce_reads (a b : AppState) :
  sameButNames a b -> coalesce a = coalesce b.
Proof.
  intros H. unfold coalesce.
  rewrite (updateFileBlRegion_reads a b H).
  assert (H1 : sameButNames (afterThunk a (updateFileBlRegion b))
                            (afterThunk b (updateFileBlRegion b)))
    by (now apply sameButNames_fold).
  rewrite (updateFileAppRegions_reads _ _ H1).
  destruct (updateFileAppRegions_actions (afterThunk b (updateFileBlRegion b)))
    as [_ [names Hin]].
  now apply (names_level _ names).
Qed.

(** X22.  [updateFileRegions] computes the regions anew from the loaded
    memory maps and the target: run on the store that it has left, it
    dispatches the same actions again and leaves the store as it is. *)
Theorem updateFileRegions_again (st : AppState) :
  let once := afterRun st (updateFileRegions getFileRegions uicrBaseAddr st) in
  dispatches (updateFileRegions getFileRegions uicrBaseAddr once)
  = dispatches (updateFileRegions getFileRegions uicrBaseAddr st)
  /\ afterRun once (updateFileRegions getFileRegions uicrBaseAddr once) = once.
Proof.
  intros once.
  destruct (updateFileRegions_run st) as [_ Honce]. fold once in Honce.
  destruct (updateFileRegions_run once) as [_ Htwice].
  set (fresh := appReducer st _) in Honce.
  destruct (coalesce_keeps fresh) as (Ht & Hl & Hm & Hf).
  rewrite <- Honce in Ht, Hl, Hm, Hf. simpl in Ht, Hl, Hm, Hf.
  split.
  - now apply updateFileRegions_reads.
  - rewrite Htwice. transitivity (coalesce fresh); [| now symmetry].
    apply coalesce_reads. now apply fresh_sameButNames.
Qed.

End Run.

End RegionsThunkProperties.

(** * The callbacks of [writeHex] and [recover] *)

Module ProgrammingProperties.

Import MemoryMap Jprog Programming Further JprogFacts WriteFacts JprogProperties.

Lemma split_cons (s : string) : exists line lines, split s = line :: lines.
Proof.
  destruct s as [| c rest]; simpl; [eauto |].
  destruct (Ascii.eqb c newline); [eauto |].
  destruct (split rest); eauto.
Qed.

Lemma join_cons (x line : string) (lines : list string) :
  join (x :: line :: lines) = (x ++ String newline (join (line :: lines)))%string.
Proof. reflexivity. Qed.

(** Splitting at the line breaks loses nothing. *)
Lemma join_split (s : string) : join (split s) = s.
Proof.
  induction s as [| c rest IH]; trivial.
  simpl split. destruct (split_cons rest) as (line & lines & E).
  rewrite E in *. destruct (Ascii.eqb c newline) eqn:Ec.
  - apply Ascii.eqb_eq in Ec. subst c. rewrite join_cons, IH. reflexivity.
  - destruct lines as [| l2 lines].
    + unfold join in *. simpl in *. now rewrite IH.
    + rewrite join_cons in *. simpl. now rewrite IH.
Qed.

Lemma split_singleLine (s : string) : forallb singleLine (split s) = true.
Proof.
  induction s as [| c rest IH]; trivial.
  simpl split. destruct (Ascii.eqb c newline) eqn:Ec.
  - simpl. exact IH.
  - destruct (split_cons rest) as (line & lines & E). rewrite E in *.
    simpl in *. now rewrite Ec.
Qed.

Lemma errorLines_app (a b : list Effect) :
  errorLines (a ++ b) = errorLines a ++ errorLines b.
Proof. unfold errorLines. apply flat_map_app. Qed.

Lemma errorLines_info (msgs : list string) : errorLines (map LoggerInfo msgs) = [].
Proof. induction msgs; simpl; trivial. Qed.

Lemma errorLines_error (msgs : list string) : errorLines (map LoggerError msgs) = msgs.
Proof. induction msgs as [| m msgs IH]; simpl; [| rewrite IH]; trivial. Qed.

Lemma callbacks_finished (r : Report) :
  In (Dispatch WRITE_PROGRESS_FINISHED) (writeHexCallbacks r) <-> failed r = None.
Proof.
  unfold writeHexCallbacks. rewrite in_app_iff, in_map_iff.
  destruct (failed r) as [log |]; simpl.
  - rewrite in_map_iff. split; [| discriminate].
    intros [(x & H & _) | (x & H & _)]; discriminate H.
  - split; trivial. intros _. right. right. now left.
Qed.

(** X23.  When the programming fails, the finish callback of [writeHex]
    logs the whole log of the error, cut at its line breaks: the lines
    logged as errors, joined by line breaks, are the log, none of them
    has a line break in it, and WRITE_PROGRESS_FINISHED is not
    dispatched. *)
Theorem failed_programming_logged (reports : list string) (log : string) :
  let done := writeHexCallbacks (mkReport reports (Some log)) in
  join (errorLines done) = log
  /\ forallb singleLine (errorLines done) = true
  /\ ~ In (Dispatch WRITE_PROGRESS_FINISHED) done.
Proof.
  intros done.
  assert (E : errorLines done = split log).
  { subst done. unfold writeHexCallbacks. simpl.
    now rewrite errorLines_app, errorLines_info, errorLines_error. }
  rewrite E. split; [apply join_split |]. split; [apply split_singleLine |].
  subst done. rewrite callbacks_finished. discriminate.
Qed.

(** X24.  A run of [write] ends with WRITE_PROGRESS_FINISHED exactly when
    a device is selected, [canWrite] answers [true], the check of the
    loaded files is fulfilled and the programming reports no error; a
    programming that fails leaves WRITE_PROGRESS_START without its
    WRITE_PROGRESS_FINISHED. *)
Theorem write_finished_iff (st : AppState) (upToDate : bool) (r : Report) :
  (In (Dispatch WRITE_PROGRESS_FINISHED) (writeAndProgram st upToDate r) <->
   selected st /\ canWrite st = Ok true /\ upToDate = true /\ failed r = None)
  /\ (transmitted (write st upToDate) <> [] -> failed r <> None ->
      In (Dispatch WRITE_PROGRESS_START) (writeAndProgram st upToDate r)
      /\ ~ In (Dispatch WRITE_PROGRESS_FINISHED) (writeAndProgram st upToDate r)).
Proof.
  pose proof (callbacks_finished r) as Hcb.
  unfold writeAndProgram.
  destruct (selected_dec st) as [(serial & page & Es & Ep & Hs & Hp) | Hn].
  - assert (Hsel : selected st) by (exists serial, page; auto).
    rewrite (write_selected st serial page upToDate Es Ep Hs Hp).
    destruct (memMap (target st)) as [t |] eqn:Em.
    + rewrite (writePages_present st t page Em).
      destruct (canWrite st) as [[|] | err]; destruct upToDate;
        try destruct (contains t blankUicr); cbn [effects flat_map transmitted app];
        rewrite ?app_nil_r, ?in_app_iff; cbn [In];
        intuition (discriminate || congruence).
    + unfold canWrite. rewrite Em. simpl.
      intuition (discriminate || congruence).
  - rewrite (write_unselected st upToDate Hn). simpl.
    intuition (discriminate || congruence).
Qed.

Lemma forEachFrom_In (line : string) (index : Z) (lines all rest : list string) (k : Z) :
  In (LoggerErrorEach line index lines) (forEachFrom LoggerErrorEach k all rest)
  <-> lines = all
      /\ exists n, nth_error rest n = Some line /\ index = k + Z.of_nat n.
Proof.
  revert k. induction rest as [| x rest IH]; intros k; simpl.
  - split; [intros [] |]. intros [_ [[| n] [H _]]]; discriminate H.
  - rewrite IH. split.
    + intros [H | [Hl [n [Hn Hi]]]].
      * injection H as -> -> ->. split; trivial. exists 0%nat. split; trivial.
        simpl. lia.
      * split; trivial. exists (S n). split; trivial. lia.
    + intros [Hl [[| n] [Hn Hi]]].
      * left. simpl in Hn. injection Hn as ->. subst. f_equal. simpl. lia.
      * right. split; trivial. exists n. split; trivial. lia.
Qed.

Lemma did_info (e : RecoverEffect) (msgs : list string) :
  In e (map (fun p => Did (LoggerInfo p)) msgs) -> exists p, e = Did (LoggerInfo p).
Proof. rewrite in_map_iff. intros (p & <- & _). eauto. Qed.

Lemma in_running (e : RecoverEffect) (serial : Z) (r : Report) :
  In e (running serial r)
  <-> e = Did (Dispatch WRITE_PROGRESS_START)
      \/ e = Recover serial
      \/ (exists p, In p (progress r) /\ e = Did (LoggerInfo p))
      \/ In e (finish r).
Proof.
  unfold running. cbn [app In]. rewrite in_app_iff, in_map_iff.
  split.
  - intros [H | [H | [(p & H & Hp) | H]]]; eauto 6.
  - intros [H | [H | [(p & Hp & H) | H]]]; eauto 6.
Qed.

Lemma finish_shape (e : RecoverEffect) (r : Report) :
  In e (finish r) ->
  (exists line index lines,
      (exists log, failed r = Some log
                   /\ In (LoggerErrorEach line index lines)
                         (forEachFrom LoggerErrorEach 0 (split log) (split log)))
      /\ e = LoggerErrorEach line index lines)
  \/ (failed r = None
      /\ (e = Did (LoggerInfo "Recovery procedure finished")
          \/ e = Did (Dispatch WRITE_PROGRESS_FINISHED))).
Proof.
  unfold finish. destruct (failed r) as [log |].
  - intros H. left. unfold forEach in H.
    assert (Hs : exists line index, e = LoggerErrorEach line index (split log)).
    { revert H. generalize 0. generalize (split log) at 1 3.
      intros all. induction (split log) as [| x rest IH]; simpl; intros k [].
      - eauto.
      - eauto. }
    destruct Hs as (line & index & ->). exists line, index, (split log).
    split; trivial. eauto.
  - intros [H | [H | []]]; right; auto.
Qed.

(** X25.  [recover] asks for the serial number only.  It calls
    [nrfjprog.recover] exactly when the serial number is set and not
    zero, whatever the page size, the memory map of the target and the
    loaded files are; it dispatches WRITE_PROGRESS_FINISHED exactly when
    moreover the recovery reports no error; and when it reports one, the
    logger is handed each line of the log together with the index of the
    line and the list of all lines. *)
Theorem recover_runs (st : AppState) (r : Report) :
  let chosen := exists serial, serialNumber (target st) = Some serial /\ serial <> 0 in
  (forall serial,
      In (Recover serial) (recover st r) <->
      serialNumber (target st) = Some serial /\ serial <> 0)
  /\ (In (Did (Dispatch WRITE_PROGRESS_FINISHED)) (recover st r) <->
      chosen /\ failed r = None)
  /\ (forall line index lines,
        In (LoggerErrorEach line index lines) (recover st r) <->
        chosen
        /\ (exists log, failed r = Some log /\ lines = split log)
        /\ 0 <= index /\ nth_error lines (Z.to_nat index) = Some line).
Proof.
  intros chosen.
  assert (Hdec : (exists serial, serialNumber (target st) = Some serial /\ serial <> 0
                                 /\ recover st r = running serial r)
                 \/ (~ chosen /\ recover st r = refused)).
  { unfold recover. fold refused. destruct (serialNumber (target st)) as [serial |].
    - destruct (Z.eqb_spec serial 0) as [-> | Hs].
      + right. split; trivial. intros [s [H Hs]]. congruence.
      + left. exists serial. auto.
    - right. split; trivial. now intros [s [H _]]. }
  destruct Hdec as [(serial & Es & Hs & ->) | [Hn ->]].
  - assert (Hc : chosen) by (exists serial; auto). clearbody chosen.
    rewrite Es. split; [| split].
    + intros s. rewrite in_running. split.
      * intros [H | [H | [(p & _ & H) | H]]]; try discriminate H.
        -- injection H as <-. auto.
        -- apply finish_shape in H as [(line & index & lines & _ & H) | [_ [H | H]]];
             discriminate H.
      * intros [H _]. injection H as <-. auto.
    + rewrite in_running. split.
      * intros [H | [H | [(p & _ & H) | H]]]; try discriminate H.
        apply finish_shape in H as [(line & index & lines & _ & H) | [Hf _]];
          [discriminate H | auto].
      * intros [_ Hf]. right. right. right. unfold finish. rewrite Hf.
        right. now left.
    + intros line index lines. rewrite in_running. split.
      * intros [H | [H | [(p & _ & H) | H]]]; try discriminate H.
        apply finish_shape in H as [(line' & index' & lines' & Hlog & H) | [_ [H | H]]];
          try discriminate H.
        injection H as -> -> ->. destruct Hlog as (log & Hf & Hin).
        apply forEachFrom_In in Hin as [-> [n [Hnth ->]]].
        split; trivial. split; [eauto |]. split; [lia |].
        now rewrite Z.add_0_l, Nat2Z.id.
      * intros (_ & (log & Hf & ->) & Hi & Hnth). right. right. right.
        unfold finish. rewrite Hf. apply forEachFrom_In. split; trivial.
        exists (Z.to_nat index). split; trivial. lia.
  - unfold refused. split; [| split].
    + intros s. split; [intros [H | []]; discriminate H |].
      intros [H1 H2]. exfalso. apply Hn. exists s. auto.
    + split; [intros [H | []]; discriminate H | intros [H _]; contradiction].
    + intros line index lines.
      split; [intros [H | []]; discriminate H | intros [H _]; contradiction].
Qed.

(** A recovery that fails with a log of two lines. *)
Example recover_failed :
  recover Samples.absent (mkReport ["Recovering"%string]
                                   (Some ("a" ++ String newline "b")%string))
  = [Did (Dispatch WRITE_PROGRESS_START);
     Recover 682000001;
     Did (LoggerInfo "Recovering");
     LoggerErrorEach "a" 0 ["a"%string; "b"%string];
     LoggerErrorEach "b" 1 ["a"%string; "b"%string]].
Proof. reflexivity. Qed.

End ProgrammingProperties.

(** * Probing a device *)

Module ProbingProperties.

Import FileThunks Probing.

Ltac no_step H :=
  repeat (destruct H as [H | H]; [try discriminate H |]); try contradiction.

Section Run.

Variable Contents : Type.
Variable contents : list byte -> list byte -> DevInfo -> Contents.
Variable size : Contents -> Z.

(** X26.  [logDeviceInfo] logs an error exactly when the probe or the
    device information cannot be read, and then dispatches nothing.  It
    dispatches TARGET_CONTENTS_KNOWN exactly when the information and
    both memory reads succeed, after TARGET_SIZE_KNOWN and with the
    same port, size and page size.  A memory read that fails is told
    nowhere: TARGET_SIZE_KNOWN is the last step of the run, and no
    error is logged. *)
Theorem probe_outcomes (k : Constants) (serial : Z) (comName : string)
        (probe : Probe) (readout : Readout) :
  let steps := logDeviceInfo Contents contents size k serial comName probe readout in
  (existsb (isError Contents) steps = true <->
   forall probeInfo devInfo, probe <> Known probeInfo devInfo)
  /\ (existsb (isError Contents) steps = true ->
      forall port s p, ~ In (TARGET_SIZE_KNOWN Contents port s p) steps)
  /\ (existsb (isContents Contents) steps = true <->
      exists probeInfo devInfo flashBytes uicrBytes,
        probe = Known probeInfo devInfo /\ readout = Read flashBytes uicrBytes)
  /\ (forall port s p read,
        In (TARGET_CONTENTS_KNOWN Contents port s p read) steps ->
        exists before after,
          steps = before ++ TARGET_CONTENTS_KNOWN Contents port s p read :: after
          /\ In (TARGET_SIZE_KNOWN Contents port s p) before
          /\ port = comName /\ after = [])
  /\ (forall probeInfo devInfo,
        probe = Known probeInfo devInfo ->
        (forall flashBytes uicrBytes, readout <> Read flashBytes uicrBytes) ->
        exists before,
          steps = before ++ [TARGET_SIZE_KNOWN Contents comName (codeSize devInfo)
                                               (codePageSize devInfo)]
          /\ existsb (isError Contents) steps = false).
Proof.
  cbv zeta.
  destruct probe as [err1 | probeInfo err2 | probeInfo devInfo];
    [| | destruct readout as [err1 | flashBytes err2 | flashBytes uicrBytes]];
    cbn; (split; [| split; [| split; [| split]]]).
  all: match goal with
       | |- (_ = true <-> forall _ _, _ <> _) =>
           split;
           [intros H; first [discriminate H | intros ? ? E; discriminate E]
           | intros H; first [reflexivity | exfalso; eapply H; reflexivity]]
       | |- (_ = true -> forall _ _ _, ~ _) =>
           intros H; first [discriminate H | intros port s p Hin; no_step Hin]
       | |- (_ = true <-> exists _ _ _ _, _) =>
           split;
           [intros H; first [discriminate H | eauto 6]
           | intros (? & ? & ? & ? & E1 & E2);
             first [discriminate E1 | discriminate E2 | reflexivity]]
       | |- (forall _ _ _ _, _ -> exists _ _, _) =>
           intros port s p read Hin; no_step Hin
       | |- (forall _ _, _ = _ -> _) =>
           intros pi di E Hr; first [discriminate E | injection E as <- <-]
       end.
  - eexists [_; _; _; _; _]. split; reflexivity.
  - eexists [_; _; _; _; _]. split; reflexivity.
  - injection Hin as <- <- <- <-.
    eexists [_; _; _; _; _; _; _], []. split; [reflexivity |].
    split; [| auto]. simpl. tauto.
  - exfalso. eapply Hr. reflexivity.
Qed.

End Run.

End ProbingProperties.
